(* ===================================================================== *)
(*  heap-go: a reflection-driven binary heap with identity-based removal *)
(*  Shallow embedding of src/heap.go and of the container/heap routines  *)
(*  it is driven by, with the properties of its specification.           *)
(* ===================================================================== *)

From stdpp Require Import gmap strings list fin_maps countable.
From Stdlib Require Import ZArith Lia.

Local Open Scope Z_scope.

(* --------------------------------------------------------------------- *)
(*  1. Go types as reflect sees them                                     *)
(* --------------------------------------------------------------------- *)

(** The part of [reflect.Kind] the program inspects. *)
Inductive Kind : Type :=
  | Bool | Int | String | Struct | Ptr | Slice | Func.

#[local] Set Warnings "-register-all,-clear-no-such-hyp".

(** Go types.  Two [reflect.Type] values are [==] exactly when they denote
    the same type, which is structural equality here. *)
Inductive GoType : Type :=
  | TBool
  | TInt
  | TString
  | TStruct (name : string)
  | TNamed (name : string) (underlying : GoType)
  | TPtr (elem : GoType)
  | TSlice (elem : GoType)
  | TFunc (ins outs : list GoType).

Fixpoint kind (t : GoType) : Kind :=
  match t with
  | TBool => Bool
  | TInt => Int
  | TString => String
  | TStruct _ => Struct
  | TNamed _ u => kind u
  | TPtr _ => Ptr
  | TSlice _ => Slice
  | TFunc _ _ => Func
  end.

#[global] Instance Kind_eq_dec : EqDecision Kind.
Proof. solve_decision. Defined.

(** Induction over [GoType] that reaches inside the signature lists. *)
Fixpoint GoType_nested_ind (P : GoType → Prop)
    (HBool : P TBool) (HInt : P TInt) (HString : P TString)
    (HStruct : ∀ n, P (TStruct n))
    (HNamed : ∀ n u, P u → P (TNamed n u))
    (HPtr : ∀ e, P e → P (TPtr e))
    (HSlice : ∀ e, P e → P (TSlice e))
    (HFunc : ∀ ins outs, Forall P ins → Forall P outs → P (TFunc ins outs))
    (t : GoType) : P t :=
  let rec := GoType_nested_ind P HBool HInt HString HStruct HNamed HPtr HSlice HFunc in
  let all := fix all (l : list GoType) : Forall P l :=
    match l with
    | [] => Forall_nil_2 P
    | x :: l' => Forall_cons_2 P x l' (rec x) (all l')
    end in
  match t with
  | TBool => HBool
  | TInt => HInt
  | TString => HString
  | TStruct n => HStruct n
  | TNamed n u => HNamed n u (rec u)
  | TPtr e => HPtr e (rec e)
  | TSlice e => HSlice e (rec e)
  | TFunc ins outs => HFunc ins outs (all ins) (all outs)
  end.

(** Types are countable: they are coded as generic trees, which lets
    [reflect.Value]s serve as keys of a finite map. *)
Fixpoint GoType_code (t : GoType) : gen_tree string :=
  match t with
  | TBool => GenNode 0 []
  | TInt => GenNode 1 []
  | TString => GenNode 2 []
  | TStruct n => GenNode 3 [GenLeaf n]
  | TNamed n u => GenNode 4 [GenLeaf n; GoType_code u]
  | TPtr e => GenNode 5 [GoType_code e]
  | TSlice e => GenNode 6 [GoType_code e]
  | TFunc ins outs =>
      GenNode 7 [GenNode 0 (GoType_code <$> ins); GenNode 0 (GoType_code <$> outs)]
  end.

Fixpoint GoType_decode (c : gen_tree string) : GoType :=
  match c with
  | GenNode 1%nat [] => TInt
  | GenNode 2%nat [] => TString
  | GenNode 3%nat [GenLeaf n] => TStruct n
  | GenNode 4%nat [GenLeaf n; u] => TNamed n (GoType_decode u)
  | GenNode 5%nat [e] => TPtr (GoType_decode e)
  | GenNode 6%nat [e] => TSlice (GoType_decode e)
  | GenNode 7%nat [GenNode _ ins; GenNode _ outs] =>
      TFunc (GoType_decode <$> ins) (GoType_decode <$> outs)
  | _ => TBool
  end.

Lemma GoType_decode_code (t : GoType) : GoType_decode (GoType_code t) = t.
Proof.
  induction t using GoType_nested_ind; simpl; try congruence.
  f_equal.
  - induction H as [|x l Hx _ IH]; [done|]. rewrite !fmap_cons. by f_equal.
  - induction H0 as [|x l Hx _ IH]; [done|]. rewrite !fmap_cons. by f_equal.
Qed.

#[global] Instance GoType_eq_dec : EqDecision GoType.
Proof.
  intros a b. destruct (decide (GoType_code a = GoType_code b)) as [E|E].
  - left. rewrite <- (GoType_decode_code a), <- (GoType_decode_code b). by rewrite E.
  - right. congruence.
Defined.

#[global] Instance GoType_countable : Countable GoType.
Proof. exact (inj_countable' GoType_code GoType_decode GoType_decode_code). Defined.

(* --------------------------------------------------------------------- *)
(*  2. Values, memory and panics                                         *)
(* --------------------------------------------------------------------- *)

(** Addresses; [nil] is the address [0], at which nothing is ever stored. *)
Definition addr := nat.
Definition nil : addr := 0%nat.

(** A valid [reflect.Value] holding pointer-shaped data, and equally the
    two words of a non-nil [interface{}]: the dynamic type and the data
    word.  For a pointer the data word is the pointer itself, for a
    function value it is the address of its closure. *)
Record Value : Type := mkValue { typ : GoType; ptr : addr }.

#[global] Instance Value_eq_dec : EqDecision Value.
Proof. solve_decision. Defined.

#[global] Instance Value_countable : Countable Value.
Proof.
  refine (inj_countable' (λ v, (typ v, ptr v)) (λ p, mkValue p.1 p.2) _).
  by intros [].
Defined.

(** [interface{}]: [None] is the nil interface. *)
Definition Interface := option Value.

(** [reflect.TypeOf]: the nil interface has the nil type. *)
Definition TypeOf (i : Interface) : option GoType := typ <$> i.

(** What a Go panic carries. *)
Inductive panic : Type :=
  | PanicString (msg : string)     (* panic("...") raised by the program *)
  | IndexOutOfRange                (* runtime error: index out of range *)
  | NilDereference                 (* runtime error: nil pointer dereference *)
  | InterfaceConversion            (* failed type assertion *)
  | ReflectPanic                   (* panic raised inside package reflect *)
  | PanicError (msg : string).     (* panic(err) for an error value *)

(** Go's [error] values built with [errors.New]. *)
Inductive error : Type := errorString (msg : string).

Definition Error (e : error) : string := match e with errorString s => s end.

(** The result of a computation that may panic. *)
Inductive result (A : Type) : Type :=
  | Ok (a : A)
  | Raise (p : panic).
Arguments Ok {A} a.
Arguments Raise {A} p.

(** How one element type implements [Indexer]: the bodies of [GetIndex]
    and [SetIndex] for a receiver at the given address. *)
Record IndexerMethods (Obj : Type) : Type := mkIndexer {
  GetIndex : addr → gmap addr Obj → result Z;
  SetIndex : addr → Z → gmap addr Obj → result (gmap addr Obj)
}.
Arguments mkIndexer {Obj} _ _.
Arguments GetIndex {Obj} _ _ _.
Arguments SetIndex {Obj} _ _ _ _.

(** The program around the heap: what memory cells hold, the bodies of the
    function values (by closure address, applied to two arguments), and
    the method table of interface [Indexer]: a type of kind pointer, the
    only kind [checkAndSetFn] asks about, implements [Indexer] exactly
    when it has an entry. *)
Class Runtime : Type := {
  Obj : Type;
  fnBody : addr → gmap addr Obj → Value → Value → result bool;
  methodsOf : GoType → option (IndexerMethods Obj)
}.

(** [t.Implements(reflect.TypeOf(( *Indexer)(nil)).Elem())] *)
Definition Implements_Indexer `{Runtime} (t : GoType) : bool :=
  bool_decide (is_Some (methodsOf t)).

(* --------------------------------------------------------------------- *)
(*  3. The heap and the monad its methods run in                         *)
(* --------------------------------------------------------------------- *)

(** [type Heap struct], with the fields as [NewHeap] leaves them. *)
Record Heap : Type := mkHeap {
  objects : list Value;
  cmpFn : Value;
  dataType : GoType;
  indexer : bool;
  lookup : gmap Value Z
}.

(** Slices are indexed by Go [int]s: a negative or too large index is out
    of range. *)
Definition at_index {A} (l : list A) (i : Z) : option A :=
  if decide (0 ≤ i) then l !! Z.to_nat i else None.

Definition set_index {A} (l : list A) (i : Z) (x : A) : list A :=
  <[Z.to_nat i := x]> l.

Section HeapCode.
Context `{RT : Runtime}.

Abbreviation Mem := (gmap addr Obj).

(** A heap together with the memory its elements live in. *)
Record State : Type := mkState { heap : Heap; mem : Mem }.

(** A call returns a value, or panics, in both cases leaving a state
    behind; [OutOfFuel] marks a loop cut short by the model's bound. *)
Inductive outcome (S A : Type) : Type :=
  | Returns (a : A) (s : S)
  | Panics (p : panic) (s : S)
  | OutOfFuel.
Arguments Returns {S A} a s.
Arguments Panics {S A} p s.
Arguments OutOfFuel {S A}.

Definition M (A : Type) : Type := State → outcome State A.

Definition ret {A} (a : A) : M A := λ s, Returns a s.
Definition bind {A B} (c : M A) (k : A → M B) : M B :=
  λ s, match c s with
       | Returns a s' => k a s'
       | Panics p s' => Panics p s'
       | OutOfFuel => OutOfFuel
       end.
Definition throw {A} (p : panic) : M A := λ s, Panics p s.
Definition gets {A} (f : Heap → A) : M A := λ s, Returns (f (heap s)) s.
Definition getMem : M Mem := λ s, Returns (mem s) s.
Definition setMem (m : Mem) : M unit := λ s, Returns tt (mkState (heap s) m).
Definition setObjects (l : list Value) : M unit :=
  λ s, let h := heap s in
       Returns tt (mkState (mkHeap l (cmpFn h) (dataType h) (indexer h) (lookup h)) (mem s)).
Definition setLookup (k : Value) (i : Z) : M unit :=
  λ s, let h := heap s in
       Returns tt (mkState (mkHeap (objects h) (cmpFn h) (dataType h) (indexer h)
                                   (<[k := i]> (lookup h))) (mem s)).
Definition lift {A} (r : result A) : M A :=
  match r with Ok a => ret a | Raise p => throw p end.

Notation "x <- c ;; k" := (bind c (λ x, k))
  (at level 100, c at next level, right associativity).
Notation "c ;; k" := (bind c (λ _, k))
  (at level 100, right associativity).

(** [h.objects[i]] *)
Definition objectAt (i : Z) : M Value :=
  l <- gets objects;;
  match at_index l i with
  | Some v => ret v
  | None => throw IndexOutOfRange
  end.

(* --------------------------------------------------------------------- *)
(*  4. heap.go: the methods of heap.Interface                            *)
(* --------------------------------------------------------------------- *)

(** The signature behind a type of kind [Func], on which [NumIn], [In],
    [NumOut] and [Out] work. *)
Fixpoint signature (t : GoType) : option (list GoType * list GoType) :=
  match t with
  | TFunc ins outs => Some (ins, outs)
  | TNamed _ u => signature u
  | _ => None
  end.

(** [h.cmpFn.Call([]reflect.Value{x, y})[0].Interface().(bool)].  [Call]
    panics on a Value that is no function and on a nil function, and runs
    the body otherwise.  The result is a Value of the first result type [B]
    of the signature behind the function's type, be that type named or
    not; [Interface()] boxes it with dynamic type [B], and the assertion
    holds exactly when [B] is [bool] itself.  The two arguments are
    elements of the array: [Push] has checked their type against
    [dataType], the type of both parameters. *)
Definition callCmp (x y : Value) : M bool :=
  f <- gets cmpFn;;
  match signature (typ f) with
  | None => throw ReflectPanic            (* [Call] of a Value that is no func *)
  | Some (_, outs) =>
      if decide (ptr f = nil) then throw ReflectPanic   (* call of nil function *)
      else
        m <- getMem;;
        b <- lift (fnBody (ptr f) m x y);;
        match outs with
        | [] => throw IndexOutOfRange     (* [...[0]] of no results *)
        | TBool :: _ => ret b
        | _ :: _ => throw InterfaceConversion
        end
  end.

Definition Less (i j : Z) : M bool :=
  x <- objectAt i;;
  y <- objectAt j;;
  callCmp x y.

(** [v.Interface().(Indexer).SetIndex(i)] *)
Definition callSetIndex (v : Value) (i : Z) : M unit :=
  match methodsOf (typ v) with
  | None => throw InterfaceConversion
  | Some ms =>
      m <- getMem;;
      m' <- lift (SetIndex ms (ptr v) i m);;
      setMem m'
  end.

Definition Swap (i j : Z) : M unit :=
  ix <- gets indexer;;
  (if ix then
     x <- objectAt i;;
     callSetIndex x j;;
     y <- objectAt j;;
     callSetIndex y i
   else ret tt);;
  x <- objectAt i;;
  setLookup x j;;
  y <- objectAt j;;
  setLookup y i;;
  oj <- objectAt j;;
  oi <- objectAt i;;
  l <- gets objects;;
  setObjects (set_index (set_index l i oj) j oi).

Definition Len : M Z :=
  l <- gets objects;;
  ret (Z.of_nat (length l)).

Definition Push (i : Interface) : M unit :=
  dt <- gets dataType;;
  if decide (TypeOf i ≠ Some dt) then throw (PanicString "tried to put invalid type")
  else
    match i with
    | None => throw (PanicString "tried to put invalid type")
    | Some val =>
        l <- gets objects;;
        setLookup val (Z.of_nat (length l));;
        l <- gets objects;;
        setObjects (l ++ [val])
    end.

Definition Pop : M Interface :=
  l <- gets objects;;
  let length := Z.of_nat (length l) in
  r <- objectAt (length - 1);;
  l <- gets objects;;
  setObjects (take (Z.to_nat (length - 1)) l);;
  ret (Some r).

(* --------------------------------------------------------------------- *)
(*  5. container/heap, run on the heap's own methods                     *)
(* --------------------------------------------------------------------- *)

(** The body of [up]'s [for] loop; Go's [/] truncates towards zero. *)
Fixpoint up_loop (fuel : nat) (j : Z) : M unit :=
  match fuel with
  | O => λ _, OutOfFuel
  | S fuel' =>
      let i := (j - 1) `quot` 2 in
      if decide (i = j) then ret tt
      else
        b <- Less j i;;
        if negb b then ret tt
        else Swap i j;; up_loop fuel' i
  end.

Definition up (j : Z) : M unit := up_loop (S (Z.to_nat j)) j.

(** The body of [down]'s [for] loop; it ends with [return i > i0]. *)
Fixpoint down_loop (fuel : nat) (i0 n i : Z) : M bool :=
  match fuel with
  | O => λ _, OutOfFuel
  | S fuel' =>
      let j1 := 2 * i + 1 in
      if decide (j1 >= n ∨ j1 < 0) then ret (bool_decide (i > i0))
      else
        let j2 := j1 + 1 in
        right <- (if decide (j2 < n) then Less j2 j1 else ret false);;
        let j := if right then j2 else j1 in
        b <- Less j i;;
        if negb b then ret (bool_decide (i > i0))
        else Swap i j;; down_loop fuel' i0 n j
  end.

Definition down (i0 n : Z) : M bool := down_loop (S (Z.to_nat (n - i0))) i0 n i0.

(** [for i := n/2 - 1; i >= 0; i-- { down(h, i, n) }], with [k] the number
    of rounds still to run, so that [i = k - 1]. *)
Fixpoint init_loop (k : nat) (n : Z) : M unit :=
  match k with
  | O => ret tt
  | S k' => down (Z.of_nat k') n;; init_loop k' n
  end.

Definition coheap_Init : M unit :=
  n <- Len;;
  init_loop (Z.to_nat (n `quot` 2)) n.

Definition coheap_Push (x : Interface) : M unit :=
  Push x;;
  n <- Len;;
  up (n - 1).

Definition coheap_Pop : M Interface :=
  len <- Len;;
  let n := len - 1 in
  Swap 0 n;;
  down 0 n;;
  Pop.

Definition coheap_Remove (i : Z) : M Interface :=
  len <- Len;;
  let n := len - 1 in
  (if decide (n ≠ i) then
     Swap i n;;
     moved <- down i n;;
     if negb moved then up i else ret tt
   else ret tt);;
  Pop.

(* --------------------------------------------------------------------- *)
(*  6. heap.go: the operations offered to callers                        *)
(* --------------------------------------------------------------------- *)

Definition Put (i : Interface) : M unit := coheap_Push i.

(** [dst.Elem().Set(src.Elem())] for two [reflect.Value]s: [Elem] panics
    unless the kind is a pointer and yields the zero Value for a nil
    pointer, on which [Set] panics in turn; otherwise the value [src]
    points to is copied over the one [dst] points to. *)
Definition Elem_Set (dst src : Value) : M unit :=
  if decide (kind (typ dst) ≠ Ptr) then throw ReflectPanic
  else if decide (kind (typ src) ≠ Ptr) then throw ReflectPanic
  else
    m <- getMem;;
    match m !! ptr dst, m !! ptr src with
    | Some _, Some o =>
        if decide (typ dst = typ src) then setMem (<[ptr dst := o]> m)
        else throw ReflectPanic
    | _, _ => throw ReflectPanic
    end.

(** [reflect.ValueOf(i)] for an [interface{}] known to be non-nil. *)
Definition ValueOf (i : Interface) : M Value :=
  match i with
  | Some v => ret v
  | None => throw ReflectPanic
  end.

Definition Get (i : Interface) : M unit :=
  dt <- gets dataType;;
  if decide (TypeOf i ≠ Some dt) then throw (PanicString "bad target type")
  else
    r <- coheap_Pop;;
    dst <- ValueOf i;;
    src <- ValueOf r;;
    Elem_Set dst src.

(** The type [reflect.Value] itself, a struct. *)
Definition reflect_Value : GoType := TNamed "reflect.Value" (TStruct "Value").

(** [reflect.ValueOf(v)] for [v] of static type [reflect.Value]: the
    argument is boxed as an [interface{}] whose dynamic type is
    [reflect.Value], so the result describes that struct and not what [v]
    describes.  The box is not part of the modelled memory. *)
Definition ValueOf_boxed (v : Value) : Value := mkValue reflect_Value nil.

Definition Peek (i : Interface) : M unit :=
  dt <- gets dataType;;
  if decide (TypeOf i ≠ Some dt) then throw (PanicString "bad target type")
  else
    r <- objectAt 0;;
    dst <- ValueOf i;;
    Elem_Set dst (ValueOf_boxed r).

(** [index, ok := h.lookup[v]] with [v := reflect.ValueOf(i)]; the zero
    Value of a nil [i] is never a key. *)
Definition DeleteElem (i : Interface) : M bool :=
  lk <- gets lookup;;
  match i ≫= (λ v, lk !! v) with
  | None => ret false
  | Some index =>
      coheap_Remove index;;
      ret false
  end.

(* --------------------------------------------------------------------- *)
(*  7. heap.go: construction                                             *)
(* --------------------------------------------------------------------- *)

(** [checkAndSetFn] either panics, or returns an error, or sets [cmpFn],
    [dataType] and [indexer]; the three fields are returned here.  (On
    the last error path the first two are already set, in a heap that
    [NewHeap] then drops.) *)
Definition checkAndSetFn (compareFn : Interface)
    : result (error + Value * GoType * bool) :=
  match compareFn with
  | None => Raise NilDereference      (* [to] is the nil Type: [to.Kind()] *)
  | Some fn =>
      let to := typ fn in
      if decide (kind to ≠ Func) then Ok (inl (errorString "not a function"))
      else
        match signature to with
        | None => Raise ReflectPanic  (* [NumOut] of a type that is no func *)
        | Some (ins, outs) =>
            if decide (length outs ≠ 1%nat) then
              Ok (inl (errorString "invalid amount of return params"))
            else if decide (kind <$> outs !! 0%nat ≠ Some Bool) then
              Ok (inl (errorString "return value must be bool"))
            else if decide (length ins ≠ 2%nat) then
              Ok (inl (errorString "expected exactly two parameters, only one gotten"))
            else if decide (ins !! 0%nat ≠ ins !! 1%nat) then
              Ok (inl (errorString
                    "both input parameters of the function must be of the same type"))
            else
              match ins !! 0%nat with
              | None => Raise ReflectPanic
              | Some dt =>
                  if decide (kind dt ≠ Ptr) then
                    Ok (inl (errorString "elems must have a pointer receiver"))
                  else Ok (inr (fn, dt, Implements_Indexer dt))
              end
        end
  end.

(** [NewHeap] returns the pair [( *Heap, error)]. *)
Definition NewHeap (compareFn : Interface) : result (option Heap * option error) :=
  match checkAndSetFn compareFn with
  | Raise p => Raise p
  | Ok (inl err) => Ok (None, Some err)
  | Ok (inr (fn, dt, ix)) => Ok (Some (mkHeap [] fn dt ix ∅), None)
  end.

Definition MustHeap (compareFn : Interface) : Mem → outcome Mem Heap :=
  λ m, match NewHeap compareFn with
       | Raise p => Panics p m
       | Ok (_, Some err) => Panics (PanicError (Error err)) m
       | Ok (None, None) => Panics NilDereference m
       | Ok (Some h, None) =>
           match coheap_Init (mkState h m) with
           | Returns _ s => Returns (heap s) (mem s)
           | Panics p s => Panics p (mem s)
           | OutOfFuel => OutOfFuel
           end
       end.

End HeapCode.

Arguments Returns {S A} a s.
Arguments Panics {S A} p s.
Arguments OutOfFuel {S A}.

(* --------------------------------------------------------------------- *)
(*  8. heap.go: IntElem, IndexMixin and the two ready-made heaps         *)
(* --------------------------------------------------------------------- *)

(** Memory cells of the program: an [IntElem] struct (its [data] and the
    embedded [*IndexMixin]) or an [IndexMixin] struct. *)
Inductive IntObj : Type :=
  | OIntElem (data : Z) (mixin : addr)
  | OIndexMixin (index : Z).

#[global] Instance IntObj_eq_dec : EqDecision IntObj.
Proof. solve_decision. Defined.

Definition IntElem_type : GoType := TNamed "IntElem" (TStruct "IntElem").
Definition IndexMixin_type : GoType := TNamed "IndexMixin" (TStruct "IndexMixin").
Definition PtrIntElem : GoType := TPtr IntElem_type.
Definition PtrIndexMixin : GoType := TPtr IndexMixin_type.

(** [func (i IndexMixin) GetIndex() int], called through a [*IndexMixin]. *)
Definition IndexMixin_GetIndex (a : addr) (m : gmap addr IntObj) : result Z :=
  match m !! a with
  | Some (OIndexMixin i) => Ok i
  | _ => Raise NilDereference
  end.

(** [func (i *IndexMixin) SetIndex(index int)]. *)
Definition IndexMixin_SetIndex (a : addr) (index : Z) (m : gmap addr IntObj)
    : result (gmap addr IntObj) :=
  match m !! a with
  | Some (OIndexMixin _) => Ok (<[a := OIndexMixin index]> m)
  | _ => Raise NilDereference
  end.

(** [e.IndexMixin] for [e : *IntElem], then the [IndexMixin] it points to. *)
Definition mixinOf (e : addr) (m : gmap addr IntObj) : result (addr * Z) :=
  match m !! e with
  | Some (OIntElem _ mx) =>
      match m !! mx with
      | Some (OIndexMixin i) => Ok (mx, i)
      | _ => Raise NilDereference
      end
  | _ => Raise NilDereference
  end.

(** [func (i IndexMixin) GetIndex() int], promoted to [*IntElem]. *)
Definition IntElem_GetIndex (e : addr) (m : gmap addr IntObj) : result Z :=
  match mixinOf e m with
  | Ok (_, i) => Ok i
  | Raise p => Raise p
  end.

(** [func (i *IndexMixin) SetIndex(index int)], promoted to [*IntElem]. *)
Definition IntElem_SetIndex (e : addr) (index : Z) (m : gmap addr IntObj)
    : result (gmap addr IntObj) :=
  match mixinOf e m with
  | Ok (mx, _) => Ok (<[mx := OIndexMixin index]> m)
  | Raise p => Raise p
  end.

(** [i.data] for [i : *IntElem]. *)
Definition dataOf (v : Value) (m : gmap addr IntObj) : result Z :=
  match m !! ptr v with
  | Some (OIntElem d _) => Ok d
  | _ => Raise NilDereference
  end.

(** Closure addresses of the two function literals of heap.go. *)
Definition maxFn : addr := 1%nat.
Definition minFn : addr := 2%nat.

Definition IntElem_fnBody (f : addr) (m : gmap addr IntObj) (i j : Value) : result bool :=
  if decide (f = maxFn) then
    match dataOf i m, dataOf j m with
    | Ok a, Ok b => Ok (bool_decide (a > b))
    | Raise p, _ | _, Raise p => Raise p
    end
  else if decide (f = minFn) then
    match dataOf i m, dataOf j m with
    | Ok a, Ok b => Ok (bool_decide (a < b))
    | Raise p, _ | _, Raise p => Raise p
    end
  else Raise NilDereference.      (* heap.go has no other function literal *)

(** The program of heap.go.  Of its pointer types, the only types a heap
    takes as element type, two have [GetIndex] and [SetIndex] in their
    method set: [*IndexMixin], and [*IntElem] by promotion through the
    embedded [*IndexMixin]. *)
#[global] Instance IntRuntime : Runtime := {|
  Obj := IntObj;
  fnBody := IntElem_fnBody;
  methodsOf := λ t,
    if decide (t = PtrIntElem) then Some (mkIndexer IntElem_GetIndex IntElem_SetIndex)
    else if decide (t = PtrIndexMixin) then
      Some (mkIndexer IndexMixin_GetIndex IndexMixin_SetIndex)
    else None
|}.

(** A fresh address of the allocator, never [nil]. *)
Definition alloc (m : gmap addr IntObj) : addr := fresh ({[nil]} ∪ dom m).

(** [NewElem]: [&IntElem{data: data, IndexMixin: &IndexMixin{}}] *)
Definition NewElem (data : Z) (m : gmap addr IntObj) : Value * gmap addr IntObj :=
  let mx := alloc m in
  let m1 := <[mx := OIndexMixin 0]> m in
  let e := alloc m1 in
  (mkValue PtrIntElem e, <[e := OIntElem data mx]> m1).

Definition cmpType : GoType := TFunc [PtrIntElem; PtrIntElem] [TBool].

Definition NewMaxHeap : gmap addr IntObj → outcome (gmap addr IntObj) Heap :=
  MustHeap (Some (mkValue cmpType maxFn)).

Definition NewMinHeap : gmap addr IntObj → outcome (gmap addr IntObj) Heap :=
  MustHeap (Some (mkValue cmpType minFn)).

(* --------------------------------------------------------------------- *)
(*  9. Test fixtures and the readings used in the statements             *)
(* --------------------------------------------------------------------- *)

(** [NewElem] for each datum in turn. *)
Fixpoint NewElems (ds : list Z) (m : gmap addr IntObj) : list Value * gmap addr IntObj :=
  match ds with
  | [] => ([], m)
  | d :: ds' =>
      let '(e, m1) := NewElem d m in
      let '(es, m2) := NewElems ds' m1 in
      (e :: es, m2)
  end.

(** [Put] for each element in turn. *)
Fixpoint PutAll `{Runtime} (es : list Value) : M unit :=
  match es with
  | [] => ret tt
  | e :: es' => bind (Put (Some e)) (λ _, PutAll es')
  end.

(** [Get(out)] followed by reading [out.data]. *)
Definition GetData (out : Value) : M (RT := IntRuntime) Z :=
  bind (Get (Some out)) (λ _, bind getMem (λ m, lift (dataOf out m))).

(** [n] successive [GetData]. *)
Fixpoint GetMany (out : Value) (n : nat) : M (RT := IntRuntime) (list Z) :=
  match n with
  | O => ret []
  | S n' => bind (GetData out) (λ d, bind (GetMany out n') (λ ds, ret (d :: ds)))
  end.

(** A max-heap built by [NewMaxHeap] in memory [m], ready to be used. *)
Definition maxHeapIn (m : gmap addr IntObj) : option (State (RT := IntRuntime)) :=
  match NewMaxHeap m with
  | Returns h m' => Some (mkState h m')
  | _ => None
  end.

(** The state after [NewMaxHeap()] and [Put(NewElem(d))] for each [d] of
    [ds], together with the elements and one more element [out] to
    receive results. *)
Definition loaded (ds : list Z)
    : option (list Value * Value * State (RT := IntRuntime)) :=
  let '(es, m1) := NewElems ds ∅ in
  let '(out, m2) := NewElem 0 m1 in
  match maxHeapIn m2 with
  | Some s0 =>
      match PutAll es s0 with
      | Returns _ s => Some (es, out, s)
      | _ => None
      end
  | None => None
  end.

(** A runtime panic, as opposed to a [panic(...)] the program raises to
    report misuse. *)
Definition runtime_error (p : panic) : bool :=
  match p with
  | PanicString _ | PanicError _ => false
  | _ => true
  end.

Definition crashes `{Runtime} {A} (o : outcome State A) : bool :=
  match o with
  | Panics p _ => runtime_error p
  | _ => false
  end.

(* --------------------------------------------------------------------- *)
(*  10. The properties of the specification                              *)
(* --------------------------------------------------------------------- *)

Section Properties.
Context `{RT : Runtime}.

(** Position of the parent, as [up] computes it. *)
Definition parent (p : Z) : Z := (p - 1) `quot` 2.

(** The Position Index maps every resident element to the array index
    that holds it. *)
Definition index_consistent (h : Heap) : Prop :=
  ∀ i v, at_index (objects h) i = Some v → lookup h !! v = Some i.

(** No two entries of the Position Index point to the same position. *)
Definition entries_distinct (h : Heap) : Prop :=
  ∀ v w i, lookup h !! v = Some i → lookup h !! w = Some i → v = w.

(** The same, for the entries of resident elements only. *)
Definition resident_entries_distinct (h : Heap) : Prop :=
  ∀ v w i, v ∈ objects h → w ∈ objects h →
           lookup h !! v = Some i → lookup h !! w = Some i → v = w.

(** The Position Index has a key for exactly the resident elements. *)
Definition keys_are_residents (h : Heap) : Prop :=
  ∀ v, is_Some (lookup h !! v) ↔ v ∈ objects h.

(** Every resident element has a key in the Position Index. *)
Definition residents_have_keys (h : Heap) : Prop :=
  ∀ v, v ∈ objects h → is_Some (lookup h !! v).

(** Every resident element of a type with the [Indexer] methods reports,
    through [GetIndex], the array index that holds it. *)
Definition self_reported (s : State) : Prop :=
  ∀ i v ms, at_index (objects (heap s)) i = Some v →
            methodsOf (typ v) = Some ms →
            GetIndex ms (ptr v) (mem s) = Ok i.

(** Heap order: [Less(p, parent p)] is false at every position [p] other
    than the root. *)
Definition heap_ordered (s : State) : Prop :=
  ∀ p, 0 < p < Z.of_nat (length (objects (heap s))) →
       Less p (parent p) s = Returns false s.

(** What the ordering policy at closure address [f] has to satisfy for
    heap order to make sense: it is a strict weak order, it does not look
    at what [SetIndex] writes, and it reads nothing but the two elements
    it is given. *)
Record policy_laws (f : addr) : Prop := {
  policy_asym : ∀ m x y, fnBody f m x y = Ok true → fnBody f m y x = Ok false;
  policy_negtrans : ∀ m x y z,
    fnBody f m x y = Ok false → fnBody f m y z = Ok false → fnBody f m x z = Ok false;
  policy_SetIndex : ∀ t ms a j m m',
    methodsOf t = Some ms → SetIndex ms a j m = Ok m' →
    ∀ x y, fnBody f m' x y = fnBody f m x y;
  policy_local : ∀ m a o x y,
    ptr x ≠ a → ptr y ≠ a → fnBody f (<[a := o]> m) x y = fnBody f m x y
}.

(** The operations a caller can run on a heap. *)
Inductive op : Type :=
  | OpPut (i : Interface)
  | OpGet (i : Interface)
  | OpPeek (i : Interface)
  | OpDeleteElem (i : Interface).

Definition exec (o : op) : M unit :=
  match o with
  | OpPut i => Put i
  | OpGet i => Get i
  | OpPeek i => Peek i
  | OpDeleteElem i => bind (DeleteElem i) (λ _, ret tt)
  end.

(** [reaches allowed s s']: some run of operations leads from [s] to [s'];
    each operation returns, and is admitted by [allowed] in the state it
    is called in. *)
Inductive reaches (allowed : State → op → Prop) (s : State) : State → Prop :=
  | reaches_refl : reaches allowed s s
  | reaches_step s1 s2 o :
      reaches allowed s s1 → allowed s1 o → exec o s1 = Returns tt s2 →
      reaches allowed s s2.

(** Any operation at any time. *)
Definition any_op : State → op → Prop := λ _ _, True.

(** No element is inserted while it is resident. *)
Definition no_double_insert : State → op → Prop :=
  λ s o, match o with
         | OpPut (Some v) => v ∉ objects (heap s)
         | _ => True
         end.

(** The slot handed to [Get] is not the memory of a resident element. *)
Definition no_resident_target : State → op → Prop :=
  λ s o, match o with
         | OpGet (Some out) => ∀ x, x ∈ objects (heap s) → ptr x ≠ ptr out
         | _ => True
         end.

(** The state around a heap fresh from [NewHeap]. *)
Definition fresh_state (s : State) : Prop :=
  ∃ compareFn h, NewHeap compareFn = Ok (Some h, None) ∧ heap s = h.

End Properties.

(* ===================================================================== *)
(*  Theorems                                                             *)
(* ===================================================================== *)

(* --------------------------------------------------------------------- *)
(*  Slices indexed by integers                                           *)
(* --------------------------------------------------------------------- *)

Section Slices.
Context {A : Type}.
Implicit Types (l : list A) (i j k : Z) (x y : A).

Lemma at_index_Some l i x :
  at_index l i = Some x → 0 ≤ i < Z.of_nat (length l).
Proof.
  unfold at_index. case_decide; [|done].
  intros Hx%lookup_lt_Some. lia.
Qed.

Lemma at_index_in_range l i :
  0 ≤ i < Z.of_nat (length l) → ∃ x, at_index l i = Some x.
Proof.
  intros [H0 Hlt]. unfold at_index. rewrite decide_True by done.
  apply lookup_lt_is_Some. lia.
Qed.

Lemma at_index_None l i :
  at_index l i = None ↔ i < 0 ∨ Z.of_nat (length l) ≤ i.
Proof.
  unfold at_index. case_decide.
  - rewrite lookup_ge_None. lia.
  - split; [lia | done].
Qed.

Lemma at_index_elem_of l i x : at_index l i = Some x → x ∈ l.
Proof.
  unfold at_index. case_decide; [|done]. intros. by eapply list_elem_of_lookup_2.
Qed.

Lemma elem_of_at_index l x : x ∈ l → ∃ i, at_index l i = Some x.
Proof.
  intros [n Hn]%list_elem_of_lookup_1. exists (Z.of_nat n).
  unfold at_index. rewrite decide_True by lia. by rewrite Nat2Z.id.
Qed.

Lemma length_set_index l i x : length (set_index l i x) = length l.
Proof. unfold set_index. apply length_insert. Qed.

Lemma at_index_set_index_eq l i x :
  0 ≤ i < Z.of_nat (length l) → at_index (set_index l i x) i = Some x.
Proof.
  intros [H0 Hlt]. unfold at_index, set_index. rewrite decide_True by done.
  apply list_lookup_insert_eq. lia.
Qed.

Lemma at_index_set_index_ne l i j x :
  0 ≤ i → i ≠ j → at_index (set_index l i x) j = at_index l j.
Proof.
  intros H0 Hne. unfold at_index, set_index. case_decide; [|done].
  apply list_lookup_insert_ne. lia.
Qed.

(** The slice after [l[i], l[j] = l[j], l[i]]. *)
Lemma at_index_swapped l i j x y k :
  at_index l i = Some x → at_index l j = Some y →
  at_index (set_index (set_index l i y) j x) k =
    if decide (k = j) then Some x
    else if decide (k = i) then Some y
    else at_index l k.
Proof.
  intros Hi%at_index_Some Hj%at_index_Some.
  case_decide as Hkj.
  - subst k. apply at_index_set_index_eq. rewrite length_set_index. lia.
  - rewrite at_index_set_index_ne by lia.
    case_decide as Hki.
    + subst k. by apply at_index_set_index_eq.
    + apply at_index_set_index_ne; lia.
Qed.

Lemma at_index_app_l l x i :
  i < Z.of_nat (length l) → at_index (l ++ [x]) i = at_index l i.
Proof.
  intros Hlt. unfold at_index. case_decide; [|done].
  apply lookup_app_l. lia.
Qed.

Lemma at_index_app_last l x : at_index (l ++ [x]) (Z.of_nat (length l)) = Some x.
Proof.
  unfold at_index. rewrite decide_True by lia. rewrite Nat2Z.id.
  by rewrite lookup_app_r, Nat.sub_diag.
Qed.

Lemma at_index_take l n i :
  0 ≤ n → at_index (take (Z.to_nat n) l) i = if decide (i < n) then at_index l i else None.
Proof.
  intros Hn. unfold at_index. case_decide; case_decide; try done.
  - apply lookup_take_lt. lia.
  - apply lookup_take_ge. lia.
Qed.

End Slices.

(* --------------------------------------------------------------------- *)
(*  What each method does when it returns                                *)
(* --------------------------------------------------------------------- *)

Section Behaviour.
Context `{RT : Runtime}.
Implicit Types (s : State) (i j : Z) (x y v : Value).

Lemma bind_Returns {A B} (c : M A) (k : A → M B) s b s' :
  bind c k s = Returns b s' ↔ ∃ a s1, c s = Returns a s1 ∧ k a s1 = Returns b s'.
Proof.
  unfold bind. split.
  - destruct (c s) as [a s1| |]; [eauto | done | done].
  - intros (a & s1 & -> & Hk). done.
Qed.

Lemma bind_Panics_l {A B} (c : M A) (k : A → M B) s p s' :
  c s = Panics p s' → bind c k s = Panics p s'.
Proof. unfold bind. by intros ->. Qed.

Lemma bind_Returns_l {A B} (c : M A) (k : A → M B) s a s1 :
  c s = Returns a s1 → bind c k s = k a s1.
Proof. unfold bind. by intros ->. Qed.

Lemma lift_Returns {A} (r : result A) s a s' :
  lift r s = Returns a s' ↔ r = Ok a ∧ s' = s.
Proof. destruct r; unfold lift, ret, throw; naive_solver. Qed.

Lemma objectAt_Returns i s v s' :
  objectAt i s = Returns v s' ↔ at_index (objects (heap s)) i = Some v ∧ s' = s.
Proof.
  unfold objectAt, bind, gets, ret, throw.
  destruct (at_index _ _); naive_solver.
Qed.

Lemma objectAt_out_of_range i s :
  at_index (objects (heap s)) i = None → objectAt i s = Panics IndexOutOfRange s.
Proof. unfold objectAt, bind, gets, throw. by intros ->. Qed.

(** The policy, as [Less] consults it in state [s]: what the call of
    [h.cmpFn] on [x] and [y] with its assertion to [bool] gives. *)
Definition policy s x y : result bool :=
  match callCmp x y s with
  | Returns b _ => Ok b
  | Panics p _ => Raise p
  | OutOfFuel => Raise ReflectPanic       (* never: the call has no loop *)
  end.

(** The same, written out. *)
Lemma policy_eq s x y :
  policy s x y =
    let f := cmpFn (heap s) in
    match signature (typ f) with
    | None => Raise ReflectPanic
    | Some (_, outs) =>
        if decide (ptr f = nil) then Raise ReflectPanic
        else
          match fnBody (ptr f) (mem s) x y with
          | Raise p => Raise p
          | Ok b =>
              match outs with
              | [] => Raise IndexOutOfRange
              | TBool :: _ => Ok b
              | _ :: _ => Raise InterfaceConversion
              end
          end
    end.
Proof.
  unfold policy, callCmp, bind, gets, getMem, lift, ret, throw. simpl.
  destruct (signature _) as [[ins outs]|]; [|done].
  case_decide; [done|].
  destruct (fnBody _ _ _ _); [|done]. by destruct outs as [|[] ?].
Qed.

(** The call of the policy leaves the state as it is. *)
Lemma callCmp_state x y s :
  match callCmp x y s with
  | Returns _ s' | Panics _ s' => s' = s
  | OutOfFuel => False
  end.
Proof.
  unfold callCmp, bind, gets, getMem, lift, ret, throw.
  destruct (signature _) as [[ins outs]|]; [|done].
  case_decide; [done|].
  destruct (fnBody _ _ _ _); [|done]. by destruct outs as [|[] ?].
Qed.

Lemma callCmp_Returns x y s b s' :
  callCmp x y s = Returns b s' ↔ policy s x y = Ok b ∧ s' = s.
Proof.
  unfold policy. pose proof (callCmp_state x y s) as Hs.
  destruct (callCmp x y s) as [b' s1|p s1|]; [subst s1| |done].
  - split; [by intros [= -> ->] | by intros [[= ->] ->]].
  - split; [done | by intros [[=] _]].
Qed.

(** Where the policy answers at all, its type has a signature whose first
    result is [bool], the function is not nil, and the answer is that of
    its body. *)
Lemma policy_Ok_inv s x y b :
  policy s x y = Ok b →
  (∃ ins outs, signature (typ (cmpFn (heap s))) = Some (ins, TBool :: outs)) ∧
  ptr (cmpFn (heap s)) ≠ nil ∧
  ∀ x' y', policy s x' y' = fnBody (ptr (cmpFn (heap s))) (mem s) x' y'.
Proof.
  unfold policy, callCmp, bind, gets, getMem, lift, ret, throw.
  destruct (signature _) as [[ins outs]|]; [|done].
  case_decide as Hnil; [done|].
  destruct outs as [|o outs].
  { by destruct (fnBody _ _ x y). }
  destruct o; try by destruct (fnBody _ _ x y).
  intros _. split_and!; [by eauto | done |].
  intros x' y'. by destruct (fnBody _ _ x' y').
Qed.

(** The policy of a function that is not nil and whose signature has
    [bool] as first result is its body. *)
Lemma policy_body s ins outs x y :
  signature (typ (cmpFn (heap s))) = Some (ins, TBool :: outs) →
  ptr (cmpFn (heap s)) ≠ nil →
  policy s x y = fnBody (ptr (cmpFn (heap s))) (mem s) x y.
Proof.
  intros Hsig Hnil.
  unfold policy, callCmp, bind, gets, getMem, lift, ret, throw.
  rewrite Hsig, decide_False by done. by destruct (fnBody _ _ x y).
Qed.

Lemma Less_Returns i j s b s' :
  Less i j s = Returns b s' ↔
  s' = s ∧ ∃ x y, at_index (objects (heap s)) i = Some x ∧
                  at_index (objects (heap s)) j = Some y ∧
                  policy s x y = Ok b.
Proof.
  unfold Less. rewrite bind_Returns. split.
  - intros (x & s1 & [Hx ->]%objectAt_Returns & H).
    apply bind_Returns in H as (y & s2 & [Hy ->]%objectAt_Returns & H).
    apply callCmp_Returns in H as [H ->]. eauto 6.
  - intros (-> & x & y & Hx & Hy & H).
    exists x, s. split; [by apply objectAt_Returns|].
    apply bind_Returns. exists y, s. split; [by apply objectAt_Returns|].
    by apply callCmp_Returns.
Qed.

Lemma Len_Returns s : Len s = Returns (Z.of_nat (length (objects (heap s)))) s.
Proof. done. Qed.

(** Memory after some calls of [SetIndex]. *)
Inductive SetIndex_steps (m : gmap addr Obj) : gmap addr Obj → Prop :=
  | SetIndex_none : SetIndex_steps m m
  | SetIndex_more m1 m2 t ms a k :
      SetIndex_steps m m1 → methodsOf t = Some ms → SetIndex ms a k m1 = Ok m2 →
      SetIndex_steps m m2.

Lemma SetIndex_steps_trans m1 m2 m3 :
  SetIndex_steps m1 m2 → SetIndex_steps m2 m3 → SetIndex_steps m1 m3.
Proof. intros H12 H23. induction H23; [done | eapply SetIndex_more; eauto]. Qed.

Lemma callSetIndex_Returns v k s s' :
  callSetIndex v k s = Returns tt s' ↔
  ∃ ms m', methodsOf (typ v) = Some ms ∧ SetIndex ms (ptr v) k (mem s) = Ok m' ∧
           s' = mkState (heap s) m'.
Proof.
  unfold callSetIndex. destruct (methodsOf (typ v)) as [ms|].
  - unfold bind, getMem, lift, setMem, ret, throw.
    destruct (SetIndex ms (ptr v) k (mem s)) as [m'|p] eqn:E; simpl; split.
    + intros [= <-]. by exists ms, m'.
    + intros (? & ? & [= <-] & E' & ->). rewrite E in E'. by injection E' as <-.
    + done.
    + intros (? & ? & [= <-] & E' & _). by rewrite E in E'.
  - unfold throw. split; [done|]. intros (? & ? & [=] & _).
Qed.

(** [Swap] exchanges two array slots and rewrites the two entries of the
    Position Index; memory changes by [SetIndex] calls only. *)
Lemma Swap_Returns i j s s' :
  Swap i j s = Returns tt s' →
  ∃ x y, at_index (objects (heap s)) i = Some x ∧
         at_index (objects (heap s)) j = Some y ∧
         objects (heap s') = set_index (set_index (objects (heap s)) i y) j x ∧
         lookup (heap s') = <[y := i]> (<[x := j]> (lookup (heap s))) ∧
         cmpFn (heap s') = cmpFn (heap s) ∧
         dataType (heap s') = dataType (heap s) ∧
         indexer (heap s') = indexer (heap s) ∧
         SetIndex_steps (mem s) (mem s').
Proof.
  unfold Swap. intros H.
  apply bind_Returns in H as (ix & s1 & Hix & H).
  unfold gets in Hix. injection Hix as <- <-.
  apply bind_Returns in H as ([] & s2 & Hset & H).
  assert (heap s2 = heap s ∧ SetIndex_steps (mem s) (mem s2)) as [Hh Hm].
  { destruct (indexer (heap s)).
    - apply bind_Returns in Hset as (x & sa & [Hx ->]%objectAt_Returns & Hset).
      apply bind_Returns in Hset as ([] & sb & Hsx & Hset).
      apply callSetIndex_Returns in Hsx as (msx & m1 & Hmx & Hsx & ->).
      apply bind_Returns in Hset as (y & sc & [Hy ->]%objectAt_Returns & Hset).
      apply callSetIndex_Returns in Hset as (msy & m2 & Hmy & Hsy & ->).
      simpl in *. split; [done|].
      eapply SetIndex_more; [|exact Hmy|exact Hsy].
      eapply SetIndex_more; [constructor|exact Hmx|exact Hsx].
    - unfold ret in Hset. injection Hset as <-. split; [done | constructor]. }
  apply bind_Returns in H as (x & s3 & [Hx ->]%objectAt_Returns & H).
  apply bind_Returns in H as ([] & s4 & Hl1 & H).
  unfold setLookup in Hl1. injection Hl1 as <-.
  apply bind_Returns in H as (y & s5 & [Hy ->]%objectAt_Returns & H).
  apply bind_Returns in H as ([] & s6 & Hl2 & H).
  unfold setLookup in Hl2. injection Hl2 as <-.
  apply bind_Returns in H as (oj & s7 & [Hoj ->]%objectAt_Returns & H).
  apply bind_Returns in H as (oi & s8 & [Hoi ->]%objectAt_Returns & H).
  apply bind_Returns in H as (l & s9 & Hl & H).
  unfold gets in Hl. injection Hl as <- <-.
  unfold setObjects in H. injection H as <-.
  simpl in *. rewrite Hh in *. simplify_eq.
  exists x, y. done.
Qed.

End Behaviour.

Section Structure.
Context `{RT : Runtime}.
Implicit Types (s : State) (i j : Z) (x y v : Value).

Lemma Push_Returns (arg : Interface) s s' :
  Push arg s = Returns tt s' ↔
  ∃ val, arg = Some val ∧ typ val = dataType (heap s) ∧
         s' = mkState (mkHeap (objects (heap s) ++ [val]) (cmpFn (heap s))
                              (dataType (heap s)) (indexer (heap s))
                              (<[val := Z.of_nat (length (objects (heap s)))]>
                                 (lookup (heap s))))
                      (mem s).
Proof.
  unfold Push, bind, gets, setLookup, setObjects, throw, TypeOf. simpl.
  case_decide as Ht.
  - split; [done|]. intros (val & -> & Hty & _). simpl in Ht. by rewrite Hty in Ht.
  - destruct arg as [val|]; simpl in *.
    + split.
      * intros [= <-]. exists val. split_and!; [done| |done].
        by injection Ht.
      * intros (? & [= <-] & _ & ->). done.
    + split; [done|]. by intros (? & [=] & _).
Qed.

Lemma Push_mismatch (arg : Interface) s :
  TypeOf arg ≠ Some (dataType (heap s)) →
  Push arg s = Panics (PanicString "tried to put invalid type") s.
Proof.
  intros Ht. unfold Push, bind, gets, throw. simpl. by rewrite decide_True.
Qed.

Lemma Pop_Returns s r s' :
  Pop s = Returns r s' ↔
  ∃ v, r = Some v ∧
       at_index (objects (heap s)) (Z.of_nat (length (objects (heap s))) - 1) = Some v ∧
       s' = mkState (mkHeap (take (Z.to_nat (Z.of_nat (length (objects (heap s))) - 1))
                                  (objects (heap s)))
                            (cmpFn (heap s)) (dataType (heap s)) (indexer (heap s))
                            (lookup (heap s)))
                    (mem s).
Proof.
  unfold Pop, objectAt, bind, gets, setObjects, ret, throw. simpl.
  destruct (at_index _ _) as [v|]; simpl.
  - split.
    + intros [= <- <-]. by exists v.
    + intros (? & -> & [= <-] & ->). done.
  - split; [done|]. by intros (? & _ & [=] & _).
Qed.

(** Loops that only compare and swap keep whatever [Swap] keeps. *)
Section Loops.
Variable Inv : State → Prop.
Hypothesis Inv_Swap : ∀ i j s s', Inv s → Swap i j s = Returns tt s' → Inv s'.

Lemma up_loop_keeps fuel j s s' :
  Inv s → up_loop fuel j s = Returns tt s' → Inv s'.
Proof.
  revert j s. induction fuel as [|fuel IH]; intros j s HI H; [done|].
  simpl in H. case_decide as Hij.
  - by injection H as <-.
  - apply bind_Returns in H as (b & s1 & HL & H).
    apply Less_Returns in HL as [-> _].
    destruct b; simpl in H.
    + apply bind_Returns in H as ([] & s2 & HS & H). eauto.
    + by injection H as <-.
Qed.

Lemma down_loop_keeps fuel i0 n i s b s' :
  Inv s → down_loop fuel i0 n i s = Returns b s' → Inv s'.
Proof.
  revert i s. induction fuel as [|fuel IH]; intros i s HI H; [done|].
  simpl in H. case_decide as Hbreak.
  - by injection H as <- <-.
  - apply bind_Returns in H as (r & s1 & Hr & H).
    assert (s1 = s) as ->.
    { case_decide; [by apply Less_Returns in Hr as [-> _] | by injection Hr]. }
    apply bind_Returns in H as (c & s2 & HL & H).
    apply Less_Returns in HL as [-> _].
    destruct c; simpl in H.
    + apply bind_Returns in H as ([] & s3 & HS & H). eauto.
    + by injection H as <- <-.
Qed.

Lemma up_keeps j s s' : Inv s → up j s = Returns tt s' → Inv s'.
Proof. apply up_loop_keeps. Qed.

Lemma down_keeps i0 n s b s' : Inv s → down i0 n s = Returns b s' → Inv s'.
Proof. apply down_loop_keeps. Qed.

End Loops.

(** The three container/heap entry points, cut into their steps. *)
Lemma coheap_Push_Returns (arg : Interface) s s' :
  coheap_Push arg s = Returns tt s' ↔
  ∃ s1, Push arg s = Returns tt s1 ∧
        up (Z.of_nat (length (objects (heap s1))) - 1) s1 = Returns tt s'.
Proof.
  unfold coheap_Push. rewrite bind_Returns. split.
  - intros ([] & s1 & HP & H). exists s1. split; [done|].
    by rewrite (bind_Returns_l _ _ _ _ _ (Len_Returns s1)) in H.
  - intros (s1 & HP & H). exists tt, s1. split; [done|].
    by rewrite (bind_Returns_l _ _ _ _ _ (Len_Returns s1)).
Qed.

Lemma coheap_Pop_Returns s r s' :
  coheap_Pop s = Returns r s' ↔
  ∃ s1 b s2, Swap 0 (Z.of_nat (length (objects (heap s))) - 1) s = Returns tt s1 ∧
             down 0 (Z.of_nat (length (objects (heap s))) - 1) s1 = Returns b s2 ∧
             Pop s2 = Returns r s'.
Proof.
  unfold coheap_Pop. rewrite (bind_Returns_l _ _ _ _ _ (Len_Returns s)).
  rewrite bind_Returns. split.
  - intros ([] & s1 & HS & H). apply bind_Returns in H as (b & s2 & HD & H). eauto 6.
  - intros (s1 & b & s2 & HS & HD & H). exists tt, s1. split; [done|].
    apply bind_Returns. eauto.
Qed.

Lemma coheap_Remove_Returns i s r s' :
  coheap_Remove i s = Returns r s' ↔
  let n := Z.of_nat (length (objects (heap s))) - 1 in
  ∃ s3, Pop s3 = Returns r s' ∧
        (n = i ∧ s3 = s ∨
         n ≠ i ∧ ∃ s1 moved s2,
           Swap i n s = Returns tt s1 ∧ down i n s1 = Returns moved s2 ∧
           (moved = true ∧ s3 = s2 ∨ moved = false ∧ up i s2 = Returns tt s3)).
Proof.
  unfold coheap_Remove. rewrite (bind_Returns_l _ _ _ _ _ (Len_Returns s)).
  simpl. rewrite bind_Returns. split.
  - intros ([] & s3 & H & HP). exists s3. split; [done|].
    case_decide as Hn.
    + right. split; [done|].
      apply bind_Returns in H as ([] & s1 & HS & H).
      apply bind_Returns in H as (moved & s2 & HD & H).
      exists s1, moved, s2. split_and!; [done..|].
      destruct moved; simpl in H; [left | right; done].
      by injection H as <-.
    + left. by injection H as <-.
  - intros (s3 & HP & H). exists tt, s3. split; [|done].
    destruct H as [[Hn ->] | (Hn & s1 & moved & s2 & HS & HD & H)].
    + by rewrite decide_False by (intros ?; done).
    + rewrite decide_True by done.
      apply bind_Returns. exists tt, s1. split; [done|].
      apply bind_Returns. exists moved, s2. split; [done|].
      destruct H as [[-> ->] | [-> H]]; done.
Qed.

End Structure.

(* --------------------------------------------------------------------- *)
(*  Misuse: wrong types and the empty heap                               *)
(* --------------------------------------------------------------------- *)

Section Misuse.
Context `{RT : Runtime}.
Implicit Types (s : State) (arg : Interface).

Lemma Get_mismatch arg s :
  TypeOf arg ≠ Some (dataType (heap s)) →
  Get arg s = Panics (PanicString "bad target type") s.
Proof. intros Ht. unfold Get, bind, gets, throw. simpl. by rewrite decide_True. Qed.

Lemma Peek_mismatch arg s :
  TypeOf arg ≠ Some (dataType (heap s)) →
  Peek arg s = Panics (PanicString "bad target type") s.
Proof. intros Ht. unfold Peek, bind, gets, throw. simpl. by rewrite decide_True. Qed.

(** C8: an argument whose type is not the heap's element type makes [Put],
    [Peek] and [Get] fail with the panic that reports the mismatch, and
    the state they leave is the state they found: array, Position Index
    and memory are untouched. *)
Theorem type_mismatch_rejected arg s :
  TypeOf arg ≠ Some (dataType (heap s)) →
  Put arg s = Panics (PanicString "tried to put invalid type") s ∧
  Peek arg s = Panics (PanicString "bad target type") s ∧
  Get arg s = Panics (PanicString "bad target type") s.
Proof.
  intros Ht. split_and!.
  - unfold Put, coheap_Push. apply bind_Panics_l. by apply Push_mismatch.
  - by apply Peek_mismatch.
  - by apply Get_mismatch.
Qed.

Lemma Swap_empty i j s :
  objects (heap s) = [] → Swap i j s = Panics IndexOutOfRange s.
Proof.
  intros He.
  assert (objectAt i s = Panics IndexOutOfRange s) as Hi.
  { apply objectAt_out_of_range. rewrite He. apply at_index_None. simpl. lia. }
  unfold Swap. rewrite (bind_Returns_l (gets indexer) _ s (indexer (heap s)) s) by done.
  destruct (indexer (heap s)).
  - by do 2 apply bind_Panics_l.
  - rewrite (bind_Returns_l (ret tt) _ s tt s) by done. by apply bind_Panics_l.
Qed.

(** C7, as the code has it: on a heap that holds no element, [Peek] and
    [Get] with a slot of the right type stop in the runtime's
    index-out-of-range panic, before anything is changed. *)
Theorem empty_heap_panics arg s :
  objects (heap s) = [] →
  TypeOf arg = Some (dataType (heap s)) →
  Peek arg s = Panics IndexOutOfRange s ∧
  Get arg s = Panics IndexOutOfRange s.
Proof.
  intros He Ht. split.
  - unfold Peek. rewrite (bind_Returns_l (gets dataType) _ s (dataType (heap s)) s) by done.
    rewrite decide_False by (by intros ?).
    apply bind_Panics_l, objectAt_out_of_range. by rewrite He.
  - unfold Get. rewrite (bind_Returns_l (gets dataType) _ s (dataType (heap s)) s) by done.
    rewrite decide_False by (by intros ?).
    apply bind_Panics_l. unfold coheap_Pop.
    rewrite (bind_Returns_l _ _ _ _ _ (Len_Returns s)).
    by apply bind_Panics_l, Swap_empty.
Qed.

(** [Peek] hands [Elem] a Value that describes a struct, so it never
    returns. *)
Lemma Peek_never_returns arg s u s' : Peek arg s ≠ Returns u s'.
Proof.
  unfold Peek. intros H.
  apply bind_Returns in H as (dt & s1 & _ & H).
  case_decide; [done|].
  apply bind_Returns in H as (r & s2 & _ & H).
  apply bind_Returns in H as (dst & s3 & _ & H).
  unfold Elem_Set in H. case_decide; [done|].
  by rewrite decide_True in H by done.
Qed.

(** On a heap that holds an element, [Peek] with a slot of the right type
    panics inside package reflect and changes nothing. *)
Lemma Peek_nonempty_panics out s :
  objects (heap s) ≠ [] →
  typ out = dataType (heap s) →
  kind (dataType (heap s)) = Ptr →
  Peek (Some out) s = Panics ReflectPanic s.
Proof.
  intros Hne Ht Hk.
  unfold Peek. rewrite (bind_Returns_l (gets dataType) _ s (dataType (heap s)) s) by done.
  rewrite decide_False by (simpl; rewrite Ht; by intros ?).
  destruct (objects (heap s)) as [|v l] eqn:Hl; [done|].
  rewrite (bind_Returns_l (objectAt 0) _ s v s) by (apply objectAt_Returns; by rewrite Hl).
  rewrite (bind_Returns_l (ValueOf (Some out)) _ s out s) by done.
  unfold Elem_Set. rewrite decide_False by (rewrite Ht, Hk; by intros ?).
  by rewrite decide_True by done.
Qed.

(** [DeleteElem] has one result whenever it returns. *)
Lemma DeleteElem_never_true arg s b s' :
  DeleteElem arg s = Returns b s' → b = false.
Proof.
  unfold DeleteElem. intros H.
  apply bind_Returns in H as (lk & s1 & _ & H).
  destruct (arg ≫= _).
  - apply bind_Returns in H as (r & s2 & _ & H). by injection H as <-.
  - by injection H as <-.
Qed.

(** [DeleteElem] of something the Position Index has no key for returns
    false and changes nothing. *)
Lemma DeleteElem_absent v s :
  lookup (heap s) !! v = None → DeleteElem (Some v) s = Returns false s.
Proof. intros Hv. unfold DeleteElem, bind, gets. simpl. by rewrite Hv. Qed.

(** [NewHeap] on a policy that is not nil never panics, and refuses with
    an error exactly the policies whose type is not
    [func(P, P) B] with [P] of kind pointer and [B] of kind bool. *)
Definition well_shaped (t : GoType) : Prop :=
  ∃ p b, signature t = Some ([p; p], [b]) ∧ kind p = Ptr ∧ kind b = Bool.

Lemma signature_kind t : kind t = Func ↔ is_Some (signature t).
Proof.
  induction t; simpl; try done; try (split; [done | by intros [? [=]]]).
Qed.

Lemma NewHeap_not_nil fn :
  (well_shaped (typ fn) ∧
   NewHeap (Some fn) = Ok (Some (mkHeap [] fn
                                   (default TBool (signature (typ fn) ≫= λ sg, sg.1 !! 0%nat))
                                   (Implements_Indexer
                                      (default TBool (signature (typ fn) ≫= λ sg, sg.1 !! 0%nat)))
                                   ∅), None)) ∨
  (¬ well_shaped (typ fn) ∧ ∃ err, NewHeap (Some fn) = Ok (None, Some err)).
Proof.
  unfold NewHeap, checkAndSetFn, well_shaped.
  case_decide as Hk.
  { right. split; [|by eauto]. intros (p & b & Hs & _).
    apply Hk, signature_kind. by rewrite Hs. }
  apply signature_kind in Hk as [[ins outs] Hs]. rewrite Hs. simpl.
  case_decide as Ho.
  { right. split; [|by eauto]. intros (p & b & [= -> ->] & _). done. }
  case_decide as Hb.
  { right. split; [|by eauto]. intros (p & b & [= -> ->] & _ & Hkb).
    apply Hb. simpl. by rewrite Hkb. }
  case_decide as Hi.
  { right. split; [|by eauto]. intros (p & b & [= -> ->] & _). done. }
  case_decide as He.
  { right. split; [|by eauto]. intros (p & b & [= -> ->] & _). done. }
  destruct ins as [|p [|p' [|]]]; simpl in *; try done.
  destruct outs as [|b [|]]; simpl in *; try done.
  injection He as <-.
  case_decide as Hp.
  { right. split; [|by eauto]. intros (p' & b' & Hs' & Hkp & _). by simplify_eq. }
  left. split; [|done]. exists p, b. split_and!; [done| |].
  - done.
  - by injection Hb.
Qed.

End Misuse.

(* --------------------------------------------------------------------- *)
(*  The heap of IntElem, run on concrete inputs                          *)
(* --------------------------------------------------------------------- *)

(** The state [NewMaxHeap()] starts from, in a memory holding one element
    [out0 = NewElem(0)]. *)
Definition out0 : Value := (NewElem 0 ∅).1.
Definition fresh_max : State (RT := IntRuntime) :=
  mkState (mkHeap [] (mkValue cmpType maxFn) PtrIntElem true ∅) (NewElem 0 ∅).2.

Lemma NewMaxHeap_fresh : maxHeapIn (NewElem 0 ∅).2 = Some fresh_max.
Proof. vm_compute. reflexivity. Qed.

Lemma fresh_max_fresh : fresh_state fresh_max.
Proof. exists (Some (mkValue cmpType maxFn)), (heap fresh_max). split; [|done]. vm_compute. reflexivity. Qed.

(** C1, on the code: with [NewElem(5)] as the only resident element,
    [DeleteElem] of that element removes it and returns false. *)
Theorem DeleteElem_reports_false_on_success :
  match loaded [5] with
  | Some ([e], _, s) =>
      objects (heap s) = [e] ∧
      ∃ s', DeleteElem (Some e) s = Returns false s' ∧ objects (heap s') = []
  | _ => False
  end.
Proof.
  assert (match loaded [5] with
          | Some ([e], _, s) =>
              bool_decide (objects (heap s) = [e]) &&
              match DeleteElem (Some e) s with
              | Returns false s' => bool_decide (objects (heap s') = [])
              | _ => false
              end
          | _ => false
          end = true) as Hb by (vm_compute; reflexivity).
  destruct (loaded [5]) as [[[[|e [|]] out] s]|]; try done.
  apply andb_prop in Hb as [H1 H2]. split; [by apply bool_decide_eq_true in H1|].
  destruct (DeleteElem (Some e) s) as [[] s'| |] eqn:HD; try done.
  exists s'. split; [done | by apply bool_decide_eq_true in H2].
Qed.

(** C4, on the code: after [Put(NewElem(9))] and [Put(NewElem(5))] on a
    max-heap the second element sits at index 1, where the Position Index
    has it, and reports index 0: [Push] records no position in the
    element. *)
Theorem Push_leaves_GetIndex_stale :
  match loaded [9; 5] with
  | Some ([e9; e5], _, s) =>
      at_index (objects (heap s)) 1 = Some e5 ∧
      lookup (heap s) !! e5 = Some 1 ∧
      IntElem_GetIndex (ptr e5) (mem s) = Ok 0 ∧
      ¬ self_reported s
  | _ => False
  end.
Proof.
  assert (match loaded [9; 5] with
          | Some ([e9; e5], _, s) =>
              bool_decide (at_index (objects (heap s)) 1 = Some e5) &&
              bool_decide (lookup (heap s) !! e5 = Some 1) &&
              match IntElem_GetIndex (ptr e5) (mem s) with
              | Ok z => bool_decide (z = 0)
              | _ => false
              end &&
              bool_decide (typ e5 = PtrIntElem)
          | _ => false
          end = true) as Hb by (vm_compute; reflexivity).
  destruct (loaded [9; 5]) as [[[[|e9 [|e5 [|]]] out] s]|]; try done.
  apply andb_prop in Hb as [Hb Ht]. apply andb_prop in Hb as [Hb Hg].
  apply andb_prop in Hb as [Ha Hl].
  apply bool_decide_eq_true in Ha, Hl, Ht.
  destruct (IntElem_GetIndex (ptr e5) (mem s)) as [z|] eqn:HG; [|done].
  apply bool_decide_eq_true in Hg as ->.
  split_and!; [done..|].
  intros Hself.
  specialize (Hself 1 e5 (mkIndexer IntElem_GetIndex IntElem_SetIndex) Ha).
  simpl in Hself. rewrite Ht, decide_True in Hself by done.
  specialize (Hself eq_refl). simpl in Hself. congruence.
Qed.

(** What C6 asks of one insertion order. *)
Definition extraction_order_ok (ds : list Z) : bool :=
  match loaded ds with
  | Some (_, out, s) =>
      match GetMany out 5 s with
      | Returns l s' => bool_decide (l = [9; 7; 5; 3; 1] ∧ objects (heap s') = [])
      | _ => false
      end
  | None => false
  end.

(** C6: a max-heap into which 5, 1, 9, 3 and 7 have been inserted, in any
    order, yields 9, 7, 5, 3, 1 under five successive [Get]s and is empty
    afterwards. *)
Theorem max_heap_extraction_order (ds : list Z) :
  ds ≡ₚ [5; 1; 9; 3; 7] →
  ∃ es out s s',
    loaded ds = Some (es, out, s) ∧
    GetMany out 5 s = Returns [9; 7; 5; 3; 1] s' ∧
    objects (heap s') = [].
Proof.
  intros Hp.
  assert (extraction_order_ok ds = true) as Hok.
  { assert (forallb extraction_order_ok (permutations [5; 1; 9; 3; 7]) = true) as Hall
      by (vm_compute; reflexivity).
    rewrite forallb_forall in Hall. apply Hall.
    apply list_elem_of_In. apply permutations_Permutation. by symmetry. }
  unfold extraction_order_ok in Hok.
  destruct (loaded ds) as [[[es out] s]|]; [|done].
  destruct (GetMany out 5 s) as [l s'| |] eqn:HG; [|done..].
  apply bool_decide_eq_true in Hok as [-> Hobj]. by exists es, out, s, s'.
Qed.

Lemma max_heap_extraction_order_witness :
  [5; 1; 9; 3; 7] ≡ₚ [5; 1; 9; 3; 7] ∧
  ∃ es out s s',
    loaded [5; 1; 9; 3; 7] = Some (es, out, s) ∧
    GetMany out 5 s = Returns [9; 7; 5; 3; 1] s' ∧
    objects (heap s') = [].
Proof. split; [reflexivity | apply (max_heap_extraction_order [5; 1; 9; 3; 7]); reflexivity]. Defined.

(** C7 as stated fails: on the heap fresh from [NewMaxHeap], [Peek] and
    [Get] end in a runtime panic, not in an error handed to the caller. *)
Lemma empty_heap_crashes :
  crashes (Peek (Some out0) fresh_max) = true ∧
  crashes (Get (Some out0) fresh_max) = true.
Proof. split; vm_compute; reflexivity. Qed.

Lemma empty_heap_panics_witness :
  objects (heap fresh_max) = [] ∧
  TypeOf (Some out0) = Some (dataType (heap fresh_max)) ∧
  Peek (Some out0) fresh_max = Panics IndexOutOfRange fresh_max ∧
  Get (Some out0) fresh_max = Panics IndexOutOfRange fresh_max.
Proof.
  split; [reflexivity|]. split; [reflexivity|].
  apply (empty_heap_panics (Some out0) fresh_max); reflexivity.
Defined.

(** A pointer to an int, which is not an element of the heap of IntElem. *)
Definition intPtr : Value := mkValue (TPtr TInt) 7%nat.

Lemma type_mismatch_rejected_witness :
  TypeOf (Some intPtr) ≠ Some (dataType (heap fresh_max)) ∧
  Put (Some intPtr) fresh_max = Panics (PanicString "tried to put invalid type") fresh_max ∧
  Peek (Some intPtr) fresh_max = Panics (PanicString "bad target type") fresh_max ∧
  Get (Some intPtr) fresh_max = Panics (PanicString "bad target type") fresh_max.
Proof.
  split; [by intros [=]|].
  apply (type_mismatch_rejected (Some intPtr) fresh_max). by intros [=].
Defined.

(** C9, on the code: [NewHeap(nil)] does not return an error, it panics
    on the nil [reflect.Type]. *)
Theorem NewHeap_nil_panics : NewHeap (RT := IntRuntime) None = Raise NilDereference.
Proof. reflexivity. Qed.

(** C10, on the code: with [NewElem(5)] resident in a max-heap, [Peek]
    into a slot of the element type copies nothing and panics inside
    package reflect, leaving heap and memory as they were. *)
Theorem Peek_panics_on_loaded_heap :
  match loaded [5] with
  | Some (_, out, s) =>
      TypeOf (Some out) = Some (dataType (heap s)) ∧
      objects (heap s) ≠ [] ∧
      Peek (Some out) s = Panics ReflectPanic s
  | None => False
  end.
Proof.
  assert (match loaded [5] with
          | Some (_, out, s) =>
              bool_decide (typ out = dataType (heap s)) &&
              bool_decide (objects (heap s) ≠ []) &&
              bool_decide (kind (dataType (heap s)) = Ptr)
          | None => false
          end = true) as Hb by (vm_compute; reflexivity).
  destruct (loaded [5]) as [[[es out] s]|]; [|done].
  apply andb_prop in Hb as [Hb Hk]. apply andb_prop in Hb as [Ht Hne].
  apply bool_decide_eq_true in Ht, Hne, Hk.
  split_and!; [simpl; by f_equal | done | by apply Peek_nonempty_panics].
Qed.

(* --------------------------------------------------------------------- *)
(*  The Position Index                                                   *)
(* --------------------------------------------------------------------- *)

Section PositionIndex.
Context `{RT : Runtime}.
Implicit Types (s : State) (i j : Z) (x y v : Value) (arg : Interface).

Lemma Elem_Set_Returns dst src s s' :
  Elem_Set dst src s = Returns tt s' →
  ∃ o, is_Some (mem s !! ptr dst) ∧ mem s !! ptr src = Some o ∧
       s' = mkState (heap s) (<[ptr dst := o]> (mem s)).
Proof.
  unfold Elem_Set. repeat case_decide; try done;
    unfold bind, getMem, setMem, throw; cbv beta iota;
    destruct (mem s !! ptr dst) eqn:Hd; try done;
    destruct (mem s !! ptr src) as [ob|] eqn:Hs; try done.
  intros [= <-]. exists ob. eauto.
Qed.

Lemma Get_Returns arg s s' :
  Get arg s = Returns tt s' ↔
  ∃ out r s1, arg = Some out ∧ typ out = dataType (heap s) ∧
              coheap_Pop s = Returns (Some r) s1 ∧
              Elem_Set out r s1 = Returns tt s'.
Proof.
  unfold Get. rewrite (bind_Returns_l (gets dataType) _ s (dataType (heap s)) s) by done.
  case_decide as Ht.
  - split; [done|]. intros (out & r & s1 & -> & Hty & _). simpl in Ht. by rewrite Hty in Ht.
  - destruct arg as [out|]; [|done]. injection Ht as Ht.
    rewrite bind_Returns. split.
    + intros (r & s1 & HP & H).
      rewrite (bind_Returns_l (ValueOf (Some out)) _ s1 out s1) in H by done.
      destruct r as [r|]; [|done].
      rewrite (bind_Returns_l (ValueOf (Some r)) _ s1 r s1) in H by done.
      by exists out, r, s1.
    + intros (? & r & s1 & [= <-] & _ & HP & H). exists (Some r), s1. split; [done|].
      rewrite (bind_Returns_l (ValueOf (Some out)) _ s1 out s1) by done.
      by rewrite (bind_Returns_l (ValueOf (Some r)) _ s1 r s1) by done.
Qed.

Lemma DeleteElem_Returns arg s b s' :
  DeleteElem arg s = Returns b s' ↔
  b = false ∧
  (arg ≫= (λ v, lookup (heap s) !! v) = None ∧ s' = s ∨
   ∃ index r, arg ≫= (λ v, lookup (heap s) !! v) = Some index ∧
              coheap_Remove index s = Returns r s').
Proof.
  unfold DeleteElem. rewrite (bind_Returns_l (gets lookup) _ s (lookup (heap s)) s) by done.
  destruct (arg ≫= _) as [index|].
  - rewrite bind_Returns. split.
    + intros (r & s1 & HR & [= <- <-]). split; [done|]. right. eauto.
    + intros [-> [[[=] _] | (? & r & [= <-] & HR)]]. by exists r, s'.
  - split.
    + intros [= <- <-]. split; [done|]. by left.
    + by intros [-> [[_ ->] | (? & ? & [=] & _)]].
Qed.

(** What [Swap], [Push] and [Pop] do to the Position Index. *)
Lemma Swap_index_consistent i j s s' :
  index_consistent (heap s) → Swap i j s = Returns tt s' → index_consistent (heap s').
Proof.
  intros Hc (x & y & Hx & Hy & Hobj & Hlk & _)%Swap_Returns k v Hv.
  rewrite Hobj, (at_index_swapped _ _ _ _ _ _ Hx Hy) in Hv. rewrite Hlk.
  pose proof (Hc _ _ Hx) as Hlx. pose proof (Hc _ _ Hy) as Hly.
  repeat case_decide; simplify_eq.
  - destruct (decide (y = v)) as [->|Hne].
    + rewrite lookup_insert_eq. congruence.
    + by rewrite lookup_insert_ne, lookup_insert_eq.
  - by rewrite lookup_insert_eq.
  - pose proof (Hc _ _ Hv) as Hlv.
    rewrite !lookup_insert_ne by congruence. done.
Qed.

Lemma Push_index_consistent v s s' :
  index_consistent (heap s) → v ∉ objects (heap s) →
  Push (Some v) s = Returns tt s' → index_consistent (heap s').
Proof.
  intros Hc Hnew (? & [= <-] & _ & ->)%Push_Returns k w Hw. simpl in *.
  destruct (decide (k < Z.of_nat (length (objects (heap s))))) as [Hlt|Hge].
  - rewrite at_index_app_l in Hw by done.
    rewrite lookup_insert_ne; [by apply Hc|].
    intros ->. by apply Hnew, (at_index_elem_of _ k).
  - apply at_index_Some in Hw as Hr. rewrite length_app in Hr. simpl in Hr.
    assert (k = Z.of_nat (length (objects (heap s)))) as -> by lia.
    rewrite at_index_app_last in Hw. injection Hw as ->. by rewrite lookup_insert_eq.
Qed.

Lemma Pop_index_consistent s r s' :
  index_consistent (heap s) → Pop s = Returns r s' → index_consistent (heap s').
Proof.
  intros Hc (v & _ & Hv & ->)%Pop_Returns k w Hw. simpl in *.
  apply at_index_Some in Hv.
  rewrite at_index_take in Hw by lia. case_decide; [|done]. by apply Hc.
Qed.

Lemma coheap_Pop_index_consistent s r s' :
  index_consistent (heap s) → coheap_Pop s = Returns r s' → index_consistent (heap s').
Proof.
  intros Hc (s1 & b & s2 & HS & HD & HP)%coheap_Pop_Returns.
  eapply Pop_index_consistent; [|done].
  eapply (down_keeps (λ s, index_consistent (heap s))); [|by eapply Swap_index_consistent|done].
  intros ????. apply Swap_index_consistent.
Qed.

Lemma coheap_Remove_index_consistent i s r s' :
  index_consistent (heap s) → coheap_Remove i s = Returns r s' → index_consistent (heap s').
Proof.
  pose proof Swap_index_consistent as HSw.
  intros Hc (s3 & HP & H)%coheap_Remove_Returns.
  eapply Pop_index_consistent; [|done].
  destruct H as [[_ ->] | (_ & s1 & moved & s2 & HS & HD & H)]; [done|].
  assert (index_consistent (heap s2)) as Hc2.
  { eapply (down_keeps (λ s, index_consistent (heap s))); [|by eapply HSw|done].
    intros ????. apply HSw. }
  destruct H as [[_ ->] | [_ HU]]; [done|].
  eapply (up_keeps (λ s, index_consistent (heap s))); [|done..].
  intros ????. apply HSw.
Qed.

(** One operation, from a state whose Position Index is exact. *)
Lemma exec_index_consistent o s s' :
  index_consistent (heap s) → no_double_insert s o →
  exec o s = Returns tt s' → index_consistent (heap s').
Proof.
  intros Hc Hallowed H. destruct o as [arg|arg|arg|arg]; simpl in H.
  - apply coheap_Push_Returns in H as (s1 & HP & HU).
    apply Push_Returns in HP as Hv. destruct Hv as (v & -> & _).
    eapply (up_keeps (λ s, index_consistent (heap s))); [|by eapply Push_index_consistent|done].
    intros ????. apply Swap_index_consistent.
  - apply Get_Returns in H as (out & r & s1 & -> & _ & HP & HE).
    apply Elem_Set_Returns in HE as (o & _ & _ & ->). simpl.
    by eapply coheap_Pop_index_consistent.
  - by apply Peek_never_returns in H.
  - apply bind_Returns in H as (b & s1 & H & [= <-]).
    apply DeleteElem_Returns in H as [_ [[_ ->] | (index & r & _ & HR)]]; [done|].
    by eapply coheap_Remove_index_consistent.
Qed.

Lemma index_consistent_distinct h :
  index_consistent h → resident_entries_distinct h.
Proof.
  intros Hc v w i [k Hk]%elem_of_at_index [k' Hk']%elem_of_at_index Hv Hw.
  rewrite (Hc _ _ Hk) in Hv. rewrite (Hc _ _ Hk') in Hw. by simplify_eq.
Qed.

Lemma index_consistent_keys h : index_consistent h → residents_have_keys h.
Proof. intros Hc v [k Hk]%elem_of_at_index. rewrite (Hc _ _ Hk). eauto. Qed.

Lemma fresh_state_empty s :
  fresh_state s → objects (heap s) = [] ∧ lookup (heap s) = ∅.
Proof.
  intros (fn & h & HN & ->). unfold NewHeap in HN.
  destruct (checkAndSetFn fn) as [[e|[[f dt] ix]]|]; by simplify_eq.
Qed.

Lemma index_consistent_reached s0 s :
  fresh_state s0 → reaches no_double_insert s0 s → index_consistent (heap s).
Proof.
  intros [He _]%fresh_state_empty Hr.
  induction Hr as [|s1 s2 o Hr IH Hallowed Hexec].
  - intros i v Hv. rewrite He in Hv. unfold at_index in Hv. by case_decide.
  - by eapply exec_index_consistent.
Qed.

(** X24. For the resident elements the Position Index is exact: in every
    state reached from a fresh heap by operations that returned, none of
    them a [Put] of an element that was resident at the time, the
    Position Index maps each resident element to the array index holding
    it, and the entries of two different resident elements differ. *)
Theorem position_index_exact s0 s :
  fresh_state s0 → reaches no_double_insert s0 s →
  index_consistent (heap s) ∧ resident_entries_distinct (heap s).
Proof.
  intros Hf Hr. pose proof (index_consistent_reached s0 s Hf Hr) as Hc.
  split; [done | by apply index_consistent_distinct].
Qed.

End PositionIndex.

Section StaleEntries.
Context `{RT : Runtime}.
Implicit Types (s : State) (i j : Z) (x y v : Value) (arg : Interface).

(** Every key of the Position Index [lk] is a key in state [s]. *)
Definition keys_kept (lk : gmap Value Z) s : Prop :=
  ∀ v, is_Some (lk !! v) → is_Some (lookup (heap s) !! v).

Lemma Swap_keys_kept lk i j s s' :
  keys_kept lk s → Swap i j s = Returns tt s' → keys_kept lk s'.
Proof.
  intros Hk (x & y & _ & _ & _ & Hlk & _)%Swap_Returns v Hv.
  rewrite Hlk, !lookup_insert_is_Some'. auto.
Qed.

Lemma Pop_keys_kept lk s r s' :
  keys_kept lk s → Pop s = Returns r s' → keys_kept lk s'.
Proof. by intros Hk (v & _ & _ & ->)%Pop_Returns. Qed.

Lemma coheap_Pop_keys_kept lk s r s' :
  keys_kept lk s → coheap_Pop s = Returns r s' → keys_kept lk s'.
Proof.
  intros Hk (s1 & b & s2 & HS & HD & HP)%coheap_Pop_Returns.
  eapply Pop_keys_kept; [|done].
  eapply (down_keeps (keys_kept lk)); [apply Swap_keys_kept| |done].
  by eapply Swap_keys_kept.
Qed.

Lemma coheap_Remove_keys_kept lk i s r s' :
  keys_kept lk s → coheap_Remove i s = Returns r s' → keys_kept lk s'.
Proof.
  intros Hk (s3 & HP & H)%coheap_Remove_Returns.
  eapply Pop_keys_kept; [|done].
  destruct H as [[_ ->] | (_ & s1 & moved & s2 & HS & HD & H)]; [done|].
  assert (keys_kept lk s2) as Hk2.
  { eapply (down_keeps (keys_kept lk)); [apply Swap_keys_kept| |done].
    by eapply Swap_keys_kept. }
  destruct H as [[_ ->] | [_ HU]]; [done|].
  by eapply (up_keeps (keys_kept lk)); [apply Swap_keys_kept|..].
Qed.

End StaleEntries.

(* --------------------------------------------------------------------- *)
(*  Runs of operations on the heap of IntElem                            *)
(* --------------------------------------------------------------------- *)

(** Run operations in turn; [None] when one of them does not return. *)
Fixpoint run_ops `{Runtime} (os : list op) (s : State) : option State :=
  match os with
  | [] => Some s
  | o :: os' =>
      match exec o s with
      | Returns _ s1 => run_ops os' s1
      | _ => None
      end
  end.

(** Every operation of the run is admitted in the state it is called in. *)
Fixpoint admitted `{Runtime} (allowed : State → op → Prop) (os : list op) (s : State) : Prop :=
  match os with
  | [] => True
  | o :: os' =>
      allowed s o ∧
      match exec o s with
      | Returns _ s1 => admitted allowed os' s1
      | _ => True
      end
  end.

(** The state a run ends in, or [s] itself when it does not end. *)
Definition after `{Runtime} (os : list op) (s : State) : State :=
  default s (run_ops os s).

Lemma reaches_first `{Runtime} allowed o s s1 s' :
  allowed s o → exec o s = Returns tt s1 → reaches allowed s1 s' → reaches allowed s s'.
Proof.
  intros Ha He Hr. induction Hr as [|s2 s3 o' Hr IH Ha' He'].
  - eapply reaches_step; [apply reaches_refl|done..].
  - eapply reaches_step; done.
Qed.

Lemma run_ops_reaches `{Runtime} allowed os s s' :
  admitted allowed os s → run_ops os s = Some s' → reaches allowed s s'.
Proof.
  revert s. induction os as [|o os IH]; intros s Ha Hrun; simpl in *.
  - injection Hrun as <-. apply reaches_refl.
  - destruct Ha as [Ha Hrest]. destruct (exec o s) as [[] s1| |] eqn:He; [|done..].
    eapply reaches_first; eauto.
Qed.

(** Four elements [NewElem(1)], [NewElem(2)], [NewElem(0)], [NewElem(0)]
    and the memory they live in; three elements with data 9, 5 and 7. *)
Definition ea : Value := mkValue PtrIntElem 2%nat.
Definition eb : Value := mkValue PtrIntElem 4%nat.
Definition ec : Value := mkValue PtrIntElem 6%nat.
Definition ed : Value := mkValue PtrIntElem 8%nat.
Definition mem_1200 : gmap addr IntObj := (NewElems [1; 2; 0; 0] ∅).2.
Definition mem_957 : gmap addr IntObj := (NewElems [9; 5; 7] ∅).2.

Lemma NewElems_1200 : NewElems [1; 2; 0; 0] ∅ = ([ea; eb; ec; ed], mem_1200).
Proof. vm_compute. reflexivity. Qed.

Lemma NewElems_957 : NewElems [9; 5; 7] ∅ = ([ea; eb; ec], mem_957).
Proof. vm_compute. reflexivity. Qed.

(** The state right after [NewMaxHeap()], in memory [m]. *)
Definition max_heap_in (m : gmap addr IntObj) : State (RT := IntRuntime) :=
  mkState (mkHeap [] (mkValue cmpType maxFn) PtrIntElem true ∅) m.

Lemma NewMaxHeap_Returns m : NewMaxHeap m = Returns (heap (max_heap_in m)) m.
Proof. reflexivity. Qed.

Lemma max_heap_in_fresh m : fresh_state (max_heap_in m).
Proof.
  exists (Some (mkValue cmpType maxFn)), (heap (max_heap_in m)). split; [|done].
  vm_compute. reflexivity.
Qed.

(** C2, on the code: after [Put(a)], [Put(b)], [Get(d)], [Put(c)] on a
    max-heap (data 1, 2 and 0), the array holds [a] and [c], and the
    Position Index still has the entry of [b], which left with [Get], at
    position 1, where it also has [c]: two entries point to the same
    position.  [Pop] takes the element out of the array and leaves its
    entry behind. *)
Theorem stale_entries_collide :
  match run_ops [OpPut (Some ea); OpPut (Some eb); OpGet (Some ed); OpPut (Some ec)]
                (max_heap_in mem_1200) with
  | Some s =>
      objects (heap s) = [ea; ec] ∧
      lookup (heap s) !! eb = Some 1 ∧
      lookup (heap s) !! ec = Some 1 ∧
      ¬ entries_distinct (heap s)
  | None => False
  end.
Proof.
  assert (match run_ops [OpPut (Some ea); OpPut (Some eb); OpGet (Some ed); OpPut (Some ec)]
                        (max_heap_in mem_1200) with
          | Some s =>
              bool_decide (objects (heap s) = [ea; ec]) &&
              bool_decide (lookup (heap s) !! eb = Some 1) &&
              bool_decide (lookup (heap s) !! ec = Some 1)
          | None => false
          end = true) as Hb by (vm_compute; reflexivity).
  destruct (run_ops _ _) as [s|]; [|done].
  apply andb_prop in Hb as [Hb Hc]. apply andb_prop in Hb as [Ho Hl].
  apply bool_decide_eq_true in Ho, Hl, Hc.
  split_and!; [done..|].
  intros Hd. by specialize (Hd eb ec 1 Hl Hc).
Qed.

(** The proviso is needed: after [Put(a)], [Put(a)] the array holds [a]
    in both slots and the Position Index has [a] at position 1 only. *)
Lemma double_insert_breaks_index :
  match run_ops [OpPut (Some ea); OpPut (Some ea)] (max_heap_in mem_1200) with
  | Some s =>
      objects (heap s) = [ea; ea] ∧
      lookup (heap s) !! ea = Some 1 ∧
      ¬ index_consistent (heap s)
  | None => False
  end.
Proof.
  assert (match run_ops [OpPut (Some ea); OpPut (Some ea)] (max_heap_in mem_1200) with
          | Some s =>
              bool_decide (objects (heap s) = [ea; ea]) &&
              bool_decide (lookup (heap s) !! ea = Some 1)
          | None => false
          end = true) as Hb by (vm_compute; reflexivity).
  destruct (run_ops _ _) as [s|]; [|done].
  apply andb_prop in Hb as [Ho Hl]. apply bool_decide_eq_true in Ho, Hl.
  split_and!; [done..|].
  intros Hc. specialize (Hc 0 ea). rewrite Ho, Hl in Hc. by specialize (Hc eq_refl).
Qed.

Lemma position_index_exact_witness :
  let s := after [OpPut (Some ea); OpPut (Some eb); OpGet (Some ed); OpPut (Some ec)]
                 (max_heap_in mem_1200) in
  fresh_state (max_heap_in mem_1200) ∧
  reaches no_double_insert (max_heap_in mem_1200) s ∧
  index_consistent (heap s) ∧ resident_entries_distinct (heap s).
Proof.
  intros s.
  assert (reaches no_double_insert (max_heap_in mem_1200) s) as Hr.
  { apply (run_ops_reaches no_double_insert
             [OpPut (Some ea); OpPut (Some eb); OpGet (Some ed); OpPut (Some ec)]).
    - vm_compute. repeat split; by intros ?%list_elem_of_In; simpl in *; intuition discriminate.
    - vm_compute. reflexivity. }
  split; [apply max_heap_in_fresh|]. split; [exact Hr|].
  exact (position_index_exact (max_heap_in mem_1200) s (max_heap_in_fresh mem_1200) Hr).
Defined.

(** C3, on the code: after [Put(a)] and [Get(d)], and likewise after
    [Put(a)] and [DeleteElem(a)], the array is empty and the Position
    Index still has the key [a], at position 0: neither way of leaving
    the heap removes the entry. *)
Theorem entry_survives_extraction :
  match run_ops [OpPut (Some ea); OpGet (Some ed)] (max_heap_in mem_1200),
        run_ops [OpPut (Some ea); OpDeleteElem (Some ea)] (max_heap_in mem_1200) with
  | Some s, Some s' =>
      objects (heap s) = [] ∧ lookup (heap s) !! ea = Some 0 ∧
      ¬ keys_are_residents (heap s) ∧
      objects (heap s') = [] ∧ lookup (heap s') !! ea = Some 0 ∧
      ¬ keys_are_residents (heap s')
  | _, _ => False
  end.
Proof.
  assert (match run_ops [OpPut (Some ea); OpGet (Some ed)] (max_heap_in mem_1200),
                run_ops [OpPut (Some ea); OpDeleteElem (Some ea)] (max_heap_in mem_1200) with
          | Some s, Some s' =>
              bool_decide (objects (heap s) = []) &&
              bool_decide (lookup (heap s) !! ea = Some 0) &&
              bool_decide (objects (heap s') = []) &&
              bool_decide (lookup (heap s') !! ea = Some 0)
          | _, _ => false
          end = true) as Hb by (vm_compute; reflexivity).
  destruct (run_ops _ _) as [s|]; [|done].
  destruct (run_ops _ _) as [s'|]; [|done].
  apply andb_prop in Hb as [Hb Hl']. apply andb_prop in Hb as [Hb Ho'].
  apply andb_prop in Hb as [Ho Hl]. apply bool_decide_eq_true in Ho, Hl, Ho', Hl'.
  assert (∀ h, objects h = [] → lookup h !! ea = Some 0 → ¬ keys_are_residents h) as Hno.
  { intros h Hobj Hlk Hk. destruct (Hk ea) as [Hin _].
    rewrite Hlk, Hobj in Hin. by apply elem_of_nil in Hin. }
  split_and!; [done | done | by apply Hno | done | done | by apply Hno].
Qed.

(* ===================================================================== *)
(*  Further properties of the code                                       *)
(* ===================================================================== *)


(* --------------------------------------------------------------------- *)
(*  The loops of up and down end                                         *)
(* --------------------------------------------------------------------- *)

Section Termination.
Context `{RT : Runtime}.
Implicit Types (s : State) (i j n : Z).

(** The call came to an end: it returned or panicked. *)
Definition finished {A} (o : outcome State A) : Prop := o ≠ OutOfFuel.

Lemma bind_finished {A B} (c : M A) (k : A → M B) s :
  finished (c s) → (∀ a s1, c s = Returns a s1 → finished (k a s1)) →
  finished (bind c k s).
Proof.
  unfold finished, bind. intros Hc Hk. destruct (c s) as [a s1|p s1|]; [by apply Hk|done..].
Qed.

Lemma lift_finished {A} (r : result A) s : finished (lift r s).
Proof. by destruct r. Qed.

Lemma objectAt_finished i s : finished (objectAt i s).
Proof.
  unfold objectAt. apply bind_finished; [done|]. intros l s1 _. by destruct (at_index l i).
Qed.

Lemma Less_finished i j s : finished (Less i j s).
Proof.
  unfold Less. apply bind_finished; [apply objectAt_finished|]. intros x s1 _.
  apply bind_finished; [apply objectAt_finished|]. intros y s2 _.
  unfold finished. pose proof (callCmp_state x y s2) as Hs.
  by destruct (callCmp x y s2).
Qed.

Lemma callSetIndex_finished v k s : finished (callSetIndex v k s).
Proof.
  unfold callSetIndex. destruct (methodsOf (typ v)); [|done].
  apply bind_finished; [done|]. intros m s1 _.
  apply bind_finished; [apply lift_finished|]. by intros m' s2 _.
Qed.

Lemma Swap_finished i j s : finished (Swap i j s).
Proof.
  unfold Swap. apply bind_finished; [done|]. intros ix s1 _.
  apply bind_finished.
  { destruct ix; [|done].
    apply bind_finished; [apply objectAt_finished|]. intros x s2 _.
    apply bind_finished; [apply callSetIndex_finished|]. intros [] s3 _.
    apply bind_finished; [apply objectAt_finished|]. intros y s4 _.
    apply callSetIndex_finished. }
  intros [] s2 _.
  apply bind_finished; [apply objectAt_finished|]. intros x s3 _.
  apply bind_finished; [done|]. intros [] s4 _.
  apply bind_finished; [apply objectAt_finished|]. intros y s5 _.
  apply bind_finished; [done|]. intros [] s6 _.
  apply bind_finished; [apply objectAt_finished|]. intros oj s7 _.
  apply bind_finished; [apply objectAt_finished|]. intros oi s8 _.
  apply bind_finished; [done|]. by intros l s9 _.
Qed.

Lemma Pop_finished s : finished (Pop s).
Proof.
  unfold Pop. apply bind_finished; [done|]. intros l s1 _.
  apply bind_finished; [apply objectAt_finished|]. intros r s2 _.
  apply bind_finished; [done|]. intros l' s3 _.
  apply bind_finished; [done|]. by intros [] s4 _.
Qed.

Lemma Push_finished (arg : Interface) s : finished (Push arg s).
Proof.
  unfold Push. apply bind_finished; [done|]. intros dt s1 _.
  case_decide; [done|]. destruct arg as [val|]; [|done].
  apply bind_finished; [done|]. intros l s2 _.
  apply bind_finished; [done|]. intros [] s3 _.
  apply bind_finished; [done|]. by intros l' s4 _.
Qed.

(** [up] moves to the parent, which lies strictly below a positive index. *)
Lemma up_loop_finished fuel j s :
  (Z.to_nat j < fuel)%nat → finished (up_loop fuel j s).
Proof.
  revert j s. induction fuel as [|fuel IH]; intros j s Hf; [lia|].
  simpl. case_decide as Hij; [done|].
  apply bind_finished; [apply Less_finished|]. intros b s1 HL.
  destruct b; simpl; [|done].
  apply bind_finished; [apply Swap_finished|]. intros [] s2 _.
  apply IH.
  apply Less_Returns in HL as (_ & x & y & Hx%at_index_Some & _).
  assert (0 < j) by (Z.to_euclidean_division_equations; lia).
  Z.to_euclidean_division_equations; lia.
Qed.

(** [down] moves to a child, which lies strictly above and below [n]. *)
Lemma down_loop_finished fuel i0 n i s :
  (Z.to_nat (n - i) < fuel)%nat → finished (down_loop fuel i0 n i s).
Proof.
  revert i s. induction fuel as [|fuel IH]; intros i s Hf; [lia|].
  simpl. case_decide as Hbreak; [done|].
  apply bind_finished.
  { destruct (decide _); [apply Less_finished | done]. }
  intros r s1 _.
  apply bind_finished; [apply Less_finished|]. intros b s2 _.
  destruct b; simpl; [|done].
  apply bind_finished; [apply Swap_finished|]. intros [] s3 _.
  apply IH. destruct r; lia.
Qed.

Lemma up_finished j s : finished (up j s).
Proof. apply up_loop_finished. lia. Qed.

Lemma down_finished i0 n s : finished (down i0 n s).
Proof. apply down_loop_finished. lia. Qed.

Lemma init_loop_finished k n s : finished (init_loop k n s).
Proof.
  revert s. induction k as [|k IH]; intros s; [done|]. simpl.
  apply bind_finished; [apply down_finished|]. intros b s1 _. apply IH.
Qed.

Lemma coheap_Pop_finished s : finished (coheap_Pop s).
Proof.
  unfold coheap_Pop. apply bind_finished; [done|]. intros n s1 _.
  apply bind_finished; [apply Swap_finished|]. intros [] s2 _.
  apply bind_finished; [apply down_finished|]. intros b s3 _. apply Pop_finished.
Qed.

Lemma coheap_Remove_finished i s : finished (coheap_Remove i s).
Proof.
  unfold coheap_Remove. apply bind_finished; [done|]. intros n s1 _.
  apply bind_finished; [|intros [] s2 _; apply Pop_finished].
  case_decide; [|done].
  apply bind_finished; [apply Swap_finished|]. intros [] s2 _.
  apply bind_finished; [apply down_finished|]. intros moved s3 _.
  destruct moved; [done | apply up_finished].
Qed.

Lemma Elem_Set_finished dst src s : finished (Elem_Set dst src s).
Proof.
  unfold Elem_Set, finished, bind, getMem, setMem, throw.
  repeat case_decide; try done; repeat case_match; done.
Qed.

(** X1. Every call of [up], [down], [Init], [Put], [Get], [Peek] and
    [DeleteElem] comes to an end, whatever the heap, the memory, the
    policy and the arguments: the loops of [up] and [down] make at most
    as many rounds as the index can be halved, respectively doubled below
    [n]. *)
Theorem operations_terminate (arg : Interface) i0 j n s :
  finished (up j s) ∧ finished (down i0 n s) ∧ finished (coheap_Init s) ∧
  finished (Put arg s) ∧ finished (Get arg s) ∧ finished (Peek arg s) ∧
  finished (DeleteElem arg s).
Proof.
  split_and!.
  - apply up_finished.
  - apply down_finished.
  - unfold coheap_Init. apply bind_finished; [done|]. intros l s1 _.
    apply init_loop_finished.
  - unfold Put, coheap_Push. apply bind_finished; [apply Push_finished|]. intros [] s1 _.
    apply bind_finished; [done|]. intros l s2 _. apply up_finished.
  - unfold Get. apply bind_finished; [done|]. intros dt s1 _.
    case_decide; [done|].
    apply bind_finished; [apply coheap_Pop_finished|]. intros r s2 _.
    apply bind_finished; [by destruct arg|]. intros dst s3 _.
    apply bind_finished; [by destruct r|]. intros src s4 _.
    apply Elem_Set_finished.
  - unfold Peek. apply bind_finished; [done|]. intros dt s1 _.
    case_decide; [done|].
    apply bind_finished; [apply objectAt_finished|]. intros r s2 _.
    apply bind_finished; [by destruct arg|]. intros dst s3 _.
    apply Elem_Set_finished.
  - unfold DeleteElem. apply bind_finished; [done|]. intros lk s1 _.
    destruct (arg ≫= _); [|done].
    apply bind_finished; [apply coheap_Remove_finished|]. by intros r s2 _.
Qed.

End Termination.

(* --------------------------------------------------------------------- *)
(*  What enters and what leaves the array                                *)
(* --------------------------------------------------------------------- *)

Section SwappedSlices.
Context {A : Type}.
Implicit Types (l : list A) (x y : A).

Lemma insert_swap_Permutation l (i j : nat) x y :
  l !! i = Some x → l !! j = Some y → <[j:=x]> (<[i:=y]> l) ≡ₚ l.
Proof.
  intros Hi Hj. destruct (decide (i = j)) as [->|Hne].
  { rewrite list_insert_insert_eq. simplify_eq. by rewrite list_insert_id. }
  apply Permutation_inj. split; [by rewrite !length_insert|].
  exists (λ k, if decide (k = i) then j else if decide (k = j) then i else k). split.
  - intros a b Hab. repeat case_decide; congruence.
  - intros k. apply lookup_lt_Some in Hi as Hil. apply lookup_lt_Some in Hj as Hjl.
    repeat case_decide; subst.
    + by rewrite list_lookup_insert_ne, list_lookup_insert_eq by done.
    + by rewrite list_lookup_insert_eq by (by rewrite length_insert).
    + by rewrite !list_lookup_insert_ne by done.
Qed.

Lemma set_index_swap_Permutation l (i j : Z) x y :
  at_index l i = Some x → at_index l j = Some y →
  set_index (set_index l i y) j x ≡ₚ l.
Proof.
  unfold at_index, set_index. repeat case_decide; try done.
  apply insert_swap_Permutation.
Qed.

Lemma take_last_Permutation l (n : Z) x :
  Z.of_nat (length l) = n + 1 → at_index l n = Some x →
  l ≡ₚ x :: take (Z.to_nat n) l.
Proof.
  intros Hlen Hx. unfold at_index in Hx. case_decide; [|done].
  rewrite <- (take_drop_middle l (Z.to_nat n) x) at 1 by done.
  rewrite drop_ge by lia. by rewrite Permutation_app_comm.
Qed.

End SwappedSlices.

Section Contents.
Context `{RT : Runtime}.
Implicit Types (s : State) (i j n : Z) (x y v w : Value) (arg : Interface).

(** Loops that swap only below [bound] keep whatever such swaps keep. *)
Section LoopsBelow.
Variable Inv : State → Prop.
Variable bound : Z.
Hypothesis Inv_Swap : ∀ i j s s',
  0 ≤ i < bound → 0 ≤ j < bound → Inv s → Swap i j s = Returns tt s' → Inv s'.

Lemma up_loop_keeps_below fuel j s s' :
  j < bound → Inv s → up_loop fuel j s = Returns tt s' → Inv s'.
Proof.
  revert j s. induction fuel as [|fuel IH]; intros j s Hj HI H; [done|].
  simpl in H. case_decide as Hij.
  - by injection H as <-.
  - apply bind_Returns in H as (b & s1 & HL & H).
    apply Less_Returns in HL as (-> & x & y & Hx%at_index_Some & Hy%at_index_Some & _).
    destruct b; simpl in H.
    + apply bind_Returns in H as ([] & s2 & HS & H).
      assert (0 < j) by (Z.to_euclidean_division_equations; lia).
      assert ((j - 1) `quot` 2 < j) by (Z.to_euclidean_division_equations; lia).
      eapply (IH ((j - 1) `quot` 2) s2); [lia| |done].
      eapply Inv_Swap; [| |done|done]; lia.
    + by injection H as <-.
Qed.

Lemma down_loop_keeps_below fuel i0 n i s b s' :
  n ≤ bound → Inv s → down_loop fuel i0 n i s = Returns b s' → Inv s'.
Proof.
  intros Hn. revert i s. induction fuel as [|fuel IH]; intros i s HI H; [done|].
  simpl in H. case_decide as Hbreak.
  - by injection H as <- <-.
  - apply bind_Returns in H as (r & s1 & Hr & H).
    assert (s1 = s) as ->.
    { destruct (decide _); [by apply Less_Returns in Hr as [-> _] | by injection Hr]. }
    apply bind_Returns in H as (c & s2 & HL & H).
    apply Less_Returns in HL as [-> _].
    destruct c; simpl in H.
    + apply bind_Returns in H as ([] & s3 & HS & H).
      eapply (IH _ s3); [|exact H]. eapply Inv_Swap; [| |done|done].
      * lia.
      * destruct r; [|lia]. destruct (decide (2 * i + 1 + 1 < n)); [lia|]. by injection Hr.
    + by injection H as <- <-.
Qed.

End LoopsBelow.

Lemma Swap_mem_no_indexer i j s s' :
  indexer (heap s) = false → Swap i j s = Returns tt s' → mem s' = mem s.
Proof.
  intros Hix H. unfold Swap in H.
  rewrite (bind_Returns_l (gets indexer) _ s (indexer (heap s)) s) in H by done.
  rewrite Hix in H. rewrite (bind_Returns_l (ret tt) _ s tt s) in H by done.
  apply bind_Returns in H as (x & s3 & [Hx ->]%objectAt_Returns & H).
  apply bind_Returns in H as ([] & s4 & Hl1 & H).
  unfold setLookup in Hl1. injection Hl1 as <-.
  apply bind_Returns in H as (y & s5 & [Hy ->]%objectAt_Returns & H).
  apply bind_Returns in H as ([] & s6 & Hl2 & H).
  unfold setLookup in Hl2. injection Hl2 as <-.
  apply bind_Returns in H as (oj & s7 & [Hoj ->]%objectAt_Returns & H).
  apply bind_Returns in H as (oi & s8 & [Hoi ->]%objectAt_Returns & H).
  apply bind_Returns in H as (l & s9 & Hl & H).
  unfold gets in Hl. injection Hl as <- <-.
  unfold setObjects in H. by injection H as <-.
Qed.

(** [rearranged s0 s]: from [s0] to [s] the array was permuted, the
    settings of the heap stayed, and memory changed by [SetIndex] calls
    only -- not at all when the element type has no [Indexer] methods. *)
Definition rearranged s0 s : Prop :=
  objects (heap s) ≡ₚ objects (heap s0) ∧
  cmpFn (heap s) = cmpFn (heap s0) ∧
  dataType (heap s) = dataType (heap s0) ∧
  indexer (heap s) = indexer (heap s0) ∧
  SetIndex_steps (mem s0) (mem s) ∧
  (indexer (heap s0) = false → mem s = mem s0).

Lemma rearranged_refl s : rearranged s s.
Proof. split_and!; try done. constructor. Qed.

Lemma Swap_rearranged s0 i j s s' :
  rearranged s0 s → Swap i j s = Returns tt s' → rearranged s0 s'.
Proof.
  intros (Hp & Hc & Hd & Hi & Hm & Hn) HS.
  pose proof (Swap_mem_no_indexer i j s s') as Hno.
  apply Swap_Returns in HS as HS'.
  destruct HS' as (x & y & Hx & Hy & Hobj & _ & Hc' & Hd' & Hi' & Hm').
  split_and!; try congruence.
  - by rewrite Hobj, set_index_swap_Permutation.
  - by eapply SetIndex_steps_trans.
  - intros Hf. rewrite <- Hn by done. apply Hno; [congruence|done].
Qed.

Lemma rearranged_length s0 s :
  rearranged s0 s → length (objects (heap s)) = length (objects (heap s0)).
Proof. intros [Hp _]. by apply Permutation_length. Qed.

(** [grown v s0 s]: the array of [s] holds what the array of [s0] held
    and [v] once more; [shrunk w s0 s]: it holds what the array of [s0]
    held but [w] once less.  Settings and memory as for [rearranged]. *)
Definition grown v s0 s : Prop :=
  objects (heap s) ≡ₚ v :: objects (heap s0) ∧
  cmpFn (heap s) = cmpFn (heap s0) ∧
  dataType (heap s) = dataType (heap s0) ∧
  indexer (heap s) = indexer (heap s0) ∧
  SetIndex_steps (mem s0) (mem s) ∧
  (indexer (heap s0) = false → mem s = mem s0).

Definition shrunk w s0 s : Prop :=
  objects (heap s0) ≡ₚ w :: objects (heap s) ∧
  cmpFn (heap s) = cmpFn (heap s0) ∧
  dataType (heap s) = dataType (heap s0) ∧
  indexer (heap s) = indexer (heap s0) ∧
  SetIndex_steps (mem s0) (mem s) ∧
  (indexer (heap s0) = false → mem s = mem s0).

(** [Put] appends its argument and sifts it up. *)
Lemma Put_Returns_grown arg s s' :
  Put arg s = Returns tt s' →
  ∃ v, arg = Some v ∧ typ v = dataType (heap s) ∧ grown v s s'.
Proof.
  intros (s1 & HP & HU)%coheap_Push_Returns.
  apply Push_Returns in HP as (v & -> & Ht & ->).
  exists v. split_and!; [done..|].
  eapply (up_keeps (rearranged _)) in HU; [|apply Swap_rearranged|apply rearranged_refl].
  destruct HU as (Hp & Hc & Hd & Hi & Hm & Hn). simpl in *.
  split_and!; try done. by rewrite Hp, Permutation_app_comm.
Qed.

(** The last step of [Pop] and [Remove]: with [w] in the last slot, the
    last slot is cut off. *)
Lemma Pop_last s w r s' :
  at_index (objects (heap s)) (Z.of_nat (length (objects (heap s))) - 1) = Some w →
  Pop s = Returns r s' →
  r = Some w ∧ shrunk w s s'.
Proof.
  intros Hw (v & -> & Hv & ->)%Pop_Returns. simplify_eq. split; [done|].
  split_and!; simpl; try done; [|constructor].
  apply take_last_Permutation; [lia | done].
Qed.

Lemma shrunk_after_rearranged w s0 s1 s' :
  rearranged s0 s1 → shrunk w s1 s' → shrunk w s0 s'.
Proof.
  intros (Hp & Hc & Hd & Hi & Hm & Hn) (Hp' & Hc' & Hd' & Hi' & Hm' & Hn').
  split_and!; try congruence.
  - by rewrite <- Hp.
  - by eapply SetIndex_steps_trans.
  - intros Hf. rewrite Hn', Hn by congruence. done.
Qed.

(** An element parked in slot [n] stays there under swaps below [n]. *)
Definition parked s0 n w s : Prop :=
  rearranged s0 s ∧ at_index (objects (heap s)) n = Some w.

Lemma Swap_parked s0 n w i j s s' :
  0 ≤ i < n → 0 ≤ j < n → parked s0 n w s → Swap i j s = Returns tt s' →
  parked s0 n w s'.
Proof.
  intros Hi Hj [Hr Hw] HS. split; [by eapply Swap_rearranged|].
  apply Swap_Returns in HS as (x & y & Hx & Hy & Hobj & _).
  rewrite Hobj, (at_index_swapped _ _ _ _ _ _ Hx Hy).
  rewrite !decide_False by lia. done.
Qed.

Lemma parked_last s0 n w s r s' :
  Z.of_nat (length (objects (heap s0))) = n + 1 →
  parked s0 n w s → Pop s = Returns r s' →
  r = Some w ∧ shrunk w s0 s'.
Proof.
  intros Hlen [Hr Hw] HP.
  apply rearranged_length in Hr as Hl.
  apply (Pop_last s w) in HP as [-> Hs]; [|by replace (Z.of_nat _ - 1) with n by lia].
  split; [done|]. by eapply shrunk_after_rearranged.
Qed.

(** [heap.Pop] takes out the element of slot 0. *)
Lemma coheap_Pop_Returns_shrunk s r s' :
  coheap_Pop s = Returns r s' →
  ∃ root, r = Some root ∧ at_index (objects (heap s)) 0 = Some root ∧ shrunk root s s'.
Proof.
  intros (s1 & b & s2 & HS & HD & HP)%coheap_Pop_Returns.
  set (n := Z.of_nat (length (objects (heap s))) - 1) in *.
  assert (∃ root, at_index (objects (heap s)) 0 = Some root ∧ parked s n root s1)
    as (root & Hroot & Hpark).
  { apply Swap_Returns in HS as HS'. destruct HS' as (x & y & Hx & Hy & Hobj & _).
    exists x. split; [done|]. split; [eapply Swap_rearranged; [apply rearranged_refl | exact HS]|].
    rewrite Hobj, (at_index_swapped _ _ _ _ _ _ Hx Hy). by rewrite decide_True. }
  exists root.
  eapply (down_loop_keeps_below (parked s n root) n) in HD;
    [|intros ??????; by apply Swap_parked|lia|done].
  apply (parked_last s n root) in HP as [-> Hs]; [done| lia |done].
Qed.

(** [heap.Remove(h, i)] takes out the element of slot [i]. *)
Lemma coheap_Remove_Returns_shrunk i s r s' :
  coheap_Remove i s = Returns r s' →
  ∃ w, r = Some w ∧ at_index (objects (heap s)) i = Some w ∧ shrunk w s s'.
Proof.
  intros (s3 & HP & H)%coheap_Remove_Returns.
  set (n := Z.of_nat (length (objects (heap s))) - 1) in *.
  destruct H as [[Hn ->] | (Hn & s1 & moved & s2 & HS & HD & H)].
  - apply Pop_Returns in HP as HP'. destruct HP' as (w & -> & Hw & _).
    exists w. fold n in Hw. rewrite Hn in Hw.
    apply (Pop_last s w) in HP as [_ Hs]; [done|]. fold n. by rewrite Hn.
  - assert (∃ w, at_index (objects (heap s)) i = Some w ∧ parked s n w s1 ∧ 0 ≤ i < n)
      as (w & Hw & Hpark & Hi).
    { apply Swap_Returns in HS as HS'. destruct HS' as (x & y & Hx & Hy & Hobj & _).
      exists x. split; [done|]. split.
      - split; [eapply Swap_rearranged; [apply rearranged_refl | exact HS]|].
        rewrite Hobj, (at_index_swapped _ _ _ _ _ _ Hx Hy). by rewrite decide_True.
      - apply at_index_Some in Hx. lia. }
    exists w.
    eapply (down_loop_keeps_below (parked s n w) n) in HD;
      [|intros ??????; by apply Swap_parked|lia|done].
    assert (parked s n w s3) as Hpark3.
    { destruct H as [[_ ->] | [_ HU]]; [done|].
      eapply (up_loop_keeps_below (parked s n w) n) in HU;
        [done|intros ??????; by apply Swap_parked|lia|done]. }
    apply (parked_last s n w) in HP as [-> Hs]; [done| lia |done].
Qed.

End Contents.

Section Effects.
Context `{RT : Runtime}.
Implicit Types (s : State) (i j n : Z) (x y v w : Value) (arg : Interface).


(** X3. [Get] returns only for a slot [out] of the element type and a heap
    that is not empty; it takes the element [root] of slot 0 out of the
    array, which is otherwise rearranged, and then copies the cell [root]
    points to over the cell [out] points to. *)
Theorem Get_extracts_the_root arg s s' :
  Get arg s = Returns tt s' →
  ∃ out root s1 o,
    arg = Some out ∧ typ out = dataType (heap s) ∧
    at_index (objects (heap s)) 0 = Some root ∧
    shrunk root s s1 ∧
    mem s1 !! ptr root = Some o ∧
    s' = mkState (heap s1) (<[ptr out := o]> (mem s1)).
Proof.
  intros (out & r & s1 & -> & Ht & HP & HE)%Get_Returns.
  apply coheap_Pop_Returns_shrunk in HP as (root & [= ->] & Hroot & Hs).
  apply Elem_Set_Returns in HE as (o & _ & Ho & ->).
  by exists out, root, s1, o.
Qed.

Lemma DeleteElem_Returns_shrunk v i s b s' :
  lookup (heap s) !! v = Some i →
  DeleteElem (Some v) s = Returns b s' →
  b = false ∧ ∃ w, at_index (objects (heap s)) i = Some w ∧ shrunk w s s'.
Proof.
  intros Hl [-> [[Hn _] | (i' & r & Hi & HR)]]%DeleteElem_Returns; simpl in *;
    [congruence|].
  split; [done|]. rewrite Hl in Hi. injection Hi as <-.
  apply coheap_Remove_Returns_shrunk in HR as (w & _ & Hw & Hs). eauto.
Qed.

(** X4. [DeleteElem] takes out whatever the array holds at the index the
    Position Index gives for its argument, and reports [false]. *)
Theorem DeleteElem_removes_the_indexed_slot v i s b s' :
  lookup (heap s) !! v = Some i →
  DeleteElem (Some v) s = Returns b s' →
  b = false ∧ ∃ w, at_index (objects (heap s)) i = Some w ∧ shrunk w s s'.
Proof. apply DeleteElem_Returns_shrunk. Qed.

Lemma index_consistent_NoDup h : index_consistent h → NoDup (objects h).
Proof.
  intros Hc.
  assert (∀ (k : nat) x, objects h !! k = Some x → lookup h !! x = Some (Z.of_nat k)) as Hk.
  { intros k x Hx. apply Hc. unfold at_index. rewrite decide_True by lia.
    by rewrite Nat2Z.id. }
  apply NoDup_alt. intros a b x Ha%Hk Hb%Hk. rewrite Ha in Hb. injection Hb. lia.
Qed.

(** X5. With an exact Position Index, [DeleteElem] of a resident element
    takes that element out, and it is resident no more. *)
Theorem DeleteElem_removes_a_resident v s b s' :
  index_consistent (heap s) → v ∈ objects (heap s) →
  DeleteElem (Some v) s = Returns b s' →
  shrunk v s s' ∧ v ∉ objects (heap s').
Proof.
  intros Hc [k Hk]%elem_of_at_index HD.
  pose proof (Hc _ _ Hk) as Hl.
  destruct (DeleteElem_Returns_shrunk v k s b s' Hl HD) as (_ & w & Hw & Hs).
  assert (w = v) as -> by congruence. split; [done|].
  apply index_consistent_NoDup in Hc. destruct Hs as [Hp _].
  rewrite Hp in Hc. by apply NoDup_cons_1_1 in Hc.
Qed.

(** X6. An entry that points outside the array, as the entry of an extracted
    element can, makes [DeleteElem] stop in the runtime's
    index-out-of-range panic with nothing changed. *)
Theorem DeleteElem_stale_out_of_range v i s :
  lookup (heap s) !! v = Some i →
  at_index (objects (heap s)) i = None →
  DeleteElem (Some v) s = Panics IndexOutOfRange s.
Proof.
  intros Hl Hi. unfold DeleteElem.
  rewrite (bind_Returns_l (gets lookup) _ s (lookup (heap s)) s) by done.
  simpl. rewrite Hl. apply bind_Panics_l. unfold coheap_Remove.
  rewrite (bind_Returns_l _ _ _ _ _ (Len_Returns s)).
  assert (objectAt i s = Panics IndexOutOfRange s) as Hoi
    by by apply objectAt_out_of_range.
  case_decide as Hn.
  - do 2 apply bind_Panics_l. unfold Swap.
    rewrite (bind_Returns_l (gets indexer) _ s (indexer (heap s)) s) by done.
    destruct (indexer (heap s)).
    + by do 2 apply bind_Panics_l.
    + rewrite (bind_Returns_l (ret tt) _ s tt s) by done. by apply bind_Panics_l.
  - rewrite (bind_Returns_l (ret tt) _ s tt s) by done. unfold Pop.
    rewrite (bind_Returns_l (gets objects) _ s (objects (heap s)) s) by done.
    apply bind_Panics_l. by rewrite Hn.
Qed.

(** The Position Index has an entry for [v] that points to a slot
    holding [v]. *)
Definition entry_points_to v s : Prop :=
  ∃ k, lookup (heap s) !! v = Some k ∧ at_index (objects (heap s)) k = Some v.

Lemma Swap_entry_points_to v i j s s' :
  entry_points_to v s → Swap i j s = Returns tt s' → entry_points_to v s'.
Proof.
  intros (k & Hl & Hk) (x & y & Hx & Hy & Hobj & Hlk & _)%Swap_Returns.
  unfold entry_points_to. rewrite Hobj, Hlk.
  destruct (decide (v = y)) as [->|Hy'].
  { exists i. rewrite lookup_insert_eq, (at_index_swapped _ _ _ _ _ _ Hx Hy).
    split; [done|]. repeat case_decide; congruence. }
  destruct (decide (v = x)) as [->|Hx'].
  { exists j. rewrite lookup_insert_ne, lookup_insert_eq by done.
    rewrite (at_index_swapped _ _ _ _ _ _ Hx Hy). by rewrite decide_True. }
  exists k. rewrite !lookup_insert_ne by done. split; [done|].
  rewrite (at_index_swapped _ _ _ _ _ _ Hx Hy). repeat case_decide; congruence.
Qed.

Lemma Put_entry_points_to v s s' :
  Put (Some v) s = Returns tt s' → entry_points_to v s'.
Proof.
  intros (s1 & HP & HU)%coheap_Push_Returns.
  apply Push_Returns in HP as (? & [= <-] & _ & ->).
  eapply (up_keeps (entry_points_to v)); [apply Swap_entry_points_to| |done].
  exists (Z.of_nat (length (objects (heap s)))). simpl.
  by rewrite lookup_insert_eq, at_index_app_last.
Qed.

(** X7. [Put] and then [DeleteElem] of the same element: the element is
    found, whatever else the Position Index holds, and the array ends as
    a rearrangement of what it was before the two calls. *)
Theorem Put_then_DeleteElem v s s1 b s2 :
  Put (Some v) s = Returns tt s1 →
  DeleteElem (Some v) s1 = Returns b s2 →
  b = false ∧
  objects (heap s2) ≡ₚ objects (heap s) ∧
  lookup (heap s2) !! v ≠ None.
Proof.
  intros HP HD.
  apply Put_entry_points_to in HP as Hv. destruct Hv as (k & Hl & Hk).
  apply Put_Returns_grown in HP as (? & [= <-] & _ & Hg & _).
  destruct (DeleteElem_Returns_shrunk v k s1 b s2 Hl HD) as (-> & w & Hw & Hs & _).
  assert (w = v) as -> by congruence.
  split; [done|]. split.
  - rewrite Hg in Hs. by apply Permutation_cons_inv in Hs.
  - apply DeleteElem_Returns in HD as [_ [[Hn _] | (i & r & Hi & HR)]]; simpl in *;
      [congruence|].
    eapply (coheap_Remove_keys_kept (lookup (heap s1)) _ s1) in HR; [|by intros ?].
    destruct (HR v) as [z Hz]; [by eauto|]. by rewrite Hz.
Qed.

(** [absent v s]: [v] is neither in the array nor a key of the Position
    Index. *)
Definition absent v s : Prop :=
  lookup (heap s) !! v = None ∧ v ∉ objects (heap s).

Lemma Swap_absent v i j s s' :
  absent v s → Swap i j s = Returns tt s' → absent v s'.
Proof.
  intros [Hl Hn] (x & y & Hx & Hy & Hobj & Hlk & _)%Swap_Returns.
  apply at_index_elem_of in Hx as Hx'. apply at_index_elem_of in Hy as Hy'.
  split.
  - rewrite Hlk, !lookup_insert_ne; [done|by intros ->..].
  - by rewrite Hobj, set_index_swap_Permutation.
Qed.

Lemma Pop_absent v s r s' : absent v s → Pop s = Returns r s' → absent v s'.
Proof.
  intros [Hl Hn] (w & _ & _ & ->)%Pop_Returns. split; [done|]. simpl.
  intros Hin. by apply Hn, (subseteq_take _ _ _ Hin).
Qed.

(** Operations other than [Put(v)]. *)
Definition never_put v : State → op → Prop := λ _ o, o ≠ OpPut (Some v).

Lemma exec_absent v o s s' :
  o ≠ OpPut (Some v) → absent v s → exec o s = Returns tt s' → absent v s'.
Proof.
  intros Ho Ha H. destruct o as [arg|arg|arg|arg]; simpl in H.
  - apply coheap_Push_Returns in H as (s1 & HP & HU).
    apply Push_Returns in HP as (w & -> & _ & ->).
    eapply (up_keeps (absent v)); [apply Swap_absent| |done].
    destruct Ha as [Hl Hn]. split; simpl.
    + rewrite lookup_insert_ne; [done|]. by intros ->.
    + rewrite elem_of_app, list_elem_of_singleton. intros [?| ->]; [done|]. by apply Ho.
  - apply Get_Returns in H as (out & r & s1 & -> & _ & HP & HE).
    apply Elem_Set_Returns in HE as (o & _ & _ & ->).
    apply coheap_Pop_Returns in HP as (sa & b & sb & HS & HD & HP).
    eapply Pop_absent in HP; [done|].
    eapply (down_keeps (absent v)); [apply Swap_absent| |done].
    by eapply Swap_absent.
  - by apply Peek_never_returns in H.
  - apply bind_Returns in H as (b & s1 & H & [= <-]).
    apply DeleteElem_Returns in H as [_ [[_ ->] | (index & r & _ & HR)]]; [done|].
    apply coheap_Remove_Returns in HR as (s3 & HP & H).
    eapply Pop_absent in HP; [done|].
    destruct H as [[_ ->] | (_ & sa & moved & sb & HS & HD & H)]; [done|].
    assert (absent v sb) as Hb.
    { eapply (down_keeps (absent v)); [apply Swap_absent| |done]. by eapply Swap_absent. }
    destruct H as [[_ ->] | [_ HU]]; [done|].
    by eapply (up_keeps (absent v)); [apply Swap_absent|..].
Qed.

(** X8. An element that was never handed to [Put] is unknown to the heap:
    in every state reached from a fresh heap by other operations it is
    not in the array, has no entry in the Position Index, and
    [DeleteElem] of it returns [false] and changes nothing. *)
Theorem never_inserted_not_found v s0 s :
  fresh_state s0 → reaches (never_put v) s0 s →
  (v ∉ objects (heap s)) ∧ lookup (heap s) !! v = None ∧
  DeleteElem (Some v) s = Returns false s.
Proof.
  intros [He Hl]%fresh_state_empty Hr.
  assert (absent v s) as [Hlv Hnv].
  { induction Hr as [|s1 s2 o Hr IH Ho Hexec].
    - split; [by rewrite Hl | rewrite He; apply not_elem_of_nil].
    - by eapply exec_absent. }
  split_and!; [done..|]. by apply DeleteElem_absent.
Qed.

End Effects.

(* --------------------------------------------------------------------- *)
(*  Entries of the Position Index are for ever                           *)
(* --------------------------------------------------------------------- *)

Section Entries.
Context `{RT : Runtime}.
Implicit Types (s : State) (i j n : Z) (x y v w : Value) (arg : Interface).
Implicit Types (lk : gmap Value Z).

(** Every key of [lk] is a key in state [s], and so is every resident
    element of [s]. *)
Definition entered lk s : Prop :=
  keys_kept lk s ∧ residents_have_keys (heap s).

Lemma Swap_entered lk i j s s' :
  entered lk s → Swap i j s = Returns tt s' → entered lk s'.
Proof.
  intros [Hk Hr] HS. split; [by eapply Swap_keys_kept|].
  apply Swap_Returns in HS as (x & y & Hx & Hy & Hobj & Hlk & _).
  intros v. rewrite Hobj, set_index_swap_Permutation, Hlk by done.
  intros Hv%Hr. rewrite !lookup_insert_is_Some'. auto.
Qed.

Lemma Pop_entered lk s r s' : entered lk s → Pop s = Returns r s' → entered lk s'.
Proof.
  intros [Hk Hr] HP. split; [by eapply Pop_keys_kept|].
  apply Pop_Returns in HP as (w & _ & _ & ->). simpl.
  intros v Hv. by apply Hr, (subseteq_take _ _ _ Hv).
Qed.

Lemma Push_entered lk v s s' :
  entered lk s → Push (Some v) s = Returns tt s' → entered lk s'.
Proof.
  intros [Hk Hr] (? & [= <-] & _ & ->)%Push_Returns. split.
  - intros w Hw%Hk. simpl. rewrite lookup_insert_is_Some'. auto.
  - intros w. simpl. rewrite elem_of_app, list_elem_of_singleton, lookup_insert_is_Some'.
    intros [Hw%Hr | ->]; auto.
Qed.

Lemma exec_entered lk o s s' :
  entered lk s → exec o s = Returns tt s' → entered lk s'.
Proof.
  intros He H. destruct o as [arg|arg|arg|arg]; simpl in H.
  - apply coheap_Push_Returns in H as (s1 & HP & HU).
    apply Push_Returns in HP as Hv. destruct Hv as (v & -> & _).
    eapply (up_keeps (entered lk)); [apply Swap_entered| |done].
    by eapply Push_entered.
  - apply Get_Returns in H as (out & r & s1 & -> & _ & HP & HE).
    apply Elem_Set_Returns in HE as (o & _ & _ & ->).
    apply coheap_Pop_Returns in HP as (sa & b & sb & HS & HD & HP).
    eapply Pop_entered in HP; [done|].
    eapply (down_keeps (entered lk)); [apply Swap_entered| |done].
    by eapply Swap_entered.
  - by apply Peek_never_returns in H.
  - apply bind_Returns in H as (b & s1 & H & [= <-]).
    apply DeleteElem_Returns in H as [_ [[_ ->] | (index & r & _ & HR)]]; [done|].
    apply coheap_Remove_Returns in HR as (s3 & HP & H).
    eapply Pop_entered in HP; [done|].
    destruct H as [[_ ->] | (_ & sa & moved & sb & HS & HD & H)]; [done|].
    assert (entered lk sb) as Hb.
    { eapply (down_keeps (entered lk)); [apply Swap_entered| |done]. by eapply Swap_entered. }
    destruct H as [[_ ->] | [_ HU]]; [done|].
    by eapply (up_keeps (entered lk)); [apply Swap_entered|..].
Qed.

Lemma reaches_entered lk allowed s s' :
  entered lk s → reaches allowed s s' → entered lk s'.
Proof. intros He Hr. induction Hr; [done | by eapply exec_entered]. Qed.

(** X25. No entry of the Position Index is ever removed.  Take a state
    [s] reached from a fresh heap and a state [s'] reached from [s], by
    any operations that returned: every resident element of [s'] has a
    key, every key of [s] is still a key in [s'], and so every element
    that was resident in [s] has a key in [s'], whether it is still in
    the heap or has left through [Get] or [DeleteElem]. *)
Theorem lookup_entries_never_removed s0 s s' :
  fresh_state s0 → reaches any_op s0 s → reaches any_op s s' →
  residents_have_keys (heap s') ∧
  (∀ v, is_Some (lookup (heap s) !! v) → is_Some (lookup (heap s') !! v)) ∧
  (∀ v, v ∈ objects (heap s) → is_Some (lookup (heap s') !! v)).
Proof.
  intros [He _]%fresh_state_empty Hr Hr'.
  assert (entered (lookup (heap s0)) s0) as H0.
  { split; [by intros v|]. intros v. rewrite He. by intros ?%elem_of_nil. }
  pose proof (reaches_entered _ _ _ _ H0 Hr) as [_ Hres].
  assert (entered (lookup (heap s)) s) as H1 by (split; [by intros v | done]).
  pose proof (reaches_entered _ _ _ _ H1 Hr') as [Hk Hres'].
  split_and!; [done | done |]. intros v Hv. by apply Hk, Hres.
Qed.

End Entries.

(* --------------------------------------------------------------------- *)
(*  Heap order                                                           *)
(* --------------------------------------------------------------------- *)

Lemma parent_cases p : 0 < p → p = 2 * parent p + 1 ∨ p = 2 * parent p + 2.
Proof. unfold parent. intros. Z.to_euclidean_division_equations. lia. Qed.

Lemma parent_below p : 0 < p → 0 ≤ parent p < p.
Proof. unfold parent. intros. Z.to_euclidean_division_equations. lia. Qed.

Lemma parent_of_child i c : 0 ≤ i → c = 2 * i + 1 ∨ c = 2 * i + 2 → parent c = i.
Proof. unfold parent. intros. Z.to_euclidean_division_equations. lia. Qed.

Section HeapOrder.
Context `{RT : Runtime}.
Implicit Types (s : State) (i j n p c k : Z) (x y z v w : Value) (l : list Value).

(** The section works relative to one state [s0], whose policy obeys the
    laws. *)
Variable s0 : State.
Hypothesis laws : policy_laws (ptr (cmpFn (heap s0))).

(** [x] does not precede [y]; [x] precedes [y]. *)
Definition not_before x y : Prop := policy s0 x y = Ok false.
Definition before x y : Prop := policy s0 x y = Ok true.

Lemma policy_Ok s x y b :
  policy s x y = Ok b →
  ∀ x' y', policy s x' y' = fnBody (ptr (cmpFn (heap s))) (mem s) x' y'.
Proof. by intros (_ & _ & H)%policy_Ok_inv. Qed.

Lemma before_not_before x y : before x y → not_before y x.
Proof.
  unfold before, not_before. intros H.
  pose proof (policy_Ok _ _ _ _ H) as E. rewrite E in H |- *.
  by apply (policy_asym _ laws).
Qed.

Lemma not_before_trans x y z : not_before x y → not_before y z → not_before x z.
Proof.
  unfold not_before. intros H1 H2.
  pose proof (policy_Ok _ _ _ _ H1) as E. rewrite E in H1, H2 |- *.
  by eapply (policy_negtrans _ laws).
Qed.

(** In [s] the policy answers as in [s0]. *)
Definition same_policy s : Prop := ∀ x y, policy s x y = policy s0 x y.

Lemma SetIndex_steps_fnBody m m' :
  SetIndex_steps m m' →
  ∀ x y, fnBody (ptr (cmpFn (heap s0))) m' x y = fnBody (ptr (cmpFn (heap s0))) m x y.
Proof.
  induction 1 as [|m1 m2 t ms a k _ IH Hms Hset]; intros x y; [done|].
  rewrite <- IH. by eapply (policy_SetIndex _ laws).
Qed.

Lemma same_policy_intro s :
  cmpFn (heap s) = cmpFn (heap s0) → SetIndex_steps (mem s0) (mem s) → same_policy s.
Proof.
  intros Hc Hm x y. rewrite !policy_eq. simpl. rewrite Hc.
  by rewrite !(SetIndex_steps_fnBody _ _ Hm).
Qed.

Lemma Swap_same_policy i j s s' :
  cmpFn (heap s) = cmpFn (heap s0) ∧ SetIndex_steps (mem s0) (mem s) →
  Swap i j s = Returns tt s' →
  cmpFn (heap s') = cmpFn (heap s0) ∧ SetIndex_steps (mem s0) (mem s').
Proof.
  intros [Hc Hm] (x & y & _ & _ & _ & _ & Hc' & _ & _ & Hm')%Swap_Returns.
  split; [congruence | by eapply SetIndex_steps_trans].
Qed.

(** Slot [c] holds an element that does not precede the one of slot [p]. *)
Definition fits l c p : Prop :=
  ∃ x y, at_index l c = Some x ∧ at_index l p = Some y ∧ not_before x y.

(** Heap order on the first [n] slots. *)
Definition ordered_below l n : Prop := ∀ p, 0 < p < n → fits l p (parent p).

(** Heap order on the first [n] slots, but for slot [j] and its parent;
    the children of [j] fit under the parent of [j]. *)
Definition up_ready l n j : Prop :=
  (∀ p, 0 < p < n → p ≠ j → fits l p (parent p)) ∧
  (∀ c, 0 < j → 0 < c < n → parent c = j → fits l c (parent j)).

(** Heap order on the first [n] slots, but for slot [i], its parent and
    its children; the children of [i] fit under the parent of [i]. *)
Definition down_ready l n i : Prop :=
  (∀ p, 0 < p < n → p ≠ i → parent p ≠ i → fits l p (parent p)) ∧
  (∀ c, 0 < i → 0 < c < n → parent c = i → fits l c (parent i)).

Definition children_fit l n i : Prop :=
  ∀ c, 0 < c < n → parent c = i → fits l c i.

Lemma fits_trans l a b c : fits l a b → fits l b c → fits l a c.
Proof.
  intros (x & y & Hx & Hy & Hxy) (y' & z & Hy' & Hz & Hyz).
  simplify_eq. exists x, z. eauto using not_before_trans.
Qed.

(** One round of [up] that swaps. *)
Lemma up_ready_swap l l' n j x y :
  0 < j →
  at_index l j = Some x → at_index l (parent j) = Some y → before x y →
  (∀ k, at_index l' k =
        if decide (k = j) then Some y
        else if decide (k = parent j) then Some x else at_index l k) →
  up_ready l n j → up_ready l' n (parent j).
Proof.
  intros Hj Hx Hy Hxy Hl' [Hup Hgrand].
  pose proof (parent_below j Hj) as Hpj.
  pose proof (before_not_before _ _ Hxy) as Hyx.
  assert (∀ k, k ≠ j → k ≠ parent j → at_index l' k = at_index l k) as Hother.
  { intros k ??. rewrite Hl'. by rewrite !decide_False. }
  assert (at_index l' j = Some y) as Hj' by (by rewrite Hl', decide_True).
  assert (at_index l' (parent j) = Some x) as Hi'
    by (rewrite Hl', decide_False, decide_True by lia; done).
  split.
  - intros p Hp Hpi. pose proof (parent_below p (proj1 Hp)) as Hpp.
    destruct (decide (p = j)) as [->|Hpj'].
    { by exists y, x. }
    destruct (decide (parent p = j)) as [Hc|Hc].
    { destruct (Hgrand p Hj Hp Hc) as (a & b & Ha & Hb & Hab).
      exists a, y. rewrite (Hother p), Hc, Hj' by lia. split_and!; [done..|]. congruence. }
    destruct (decide (parent p = parent j)) as [Hs|Hs].
    { destruct (Hup p Hp Hpj') as (a & b & Ha & Hb & Hab).
      exists a, x. rewrite (Hother p), Hs, Hi' by lia. split_and!; [done..|].
      apply (not_before_trans _ y); [|done]. rewrite Hs in Hb. congruence. }
    destruct (Hup p Hp Hpj') as (a & b & Ha & Hb & Hab).
    exists a, b. by rewrite (Hother p), (Hother (parent p)) by lia.
  - intros c Hi Hc Hpc. pose proof (parent_below _ Hi) as Hppj.
    pose proof (parent_below c (proj1 Hc)) as Hpc'.
    assert (fits l (parent j) (parent (parent j))) as (y' & g & Hy' & Hg & Hyg)
      by (apply Hup; lia).
    assert (y' = y) as -> by congruence.
    destruct (decide (c = j)) as [->|Hcj].
    { exists y, g. by rewrite Hj', (Hother (parent (parent j))) by lia. }
    destruct (Hup c Hc Hcj) as (a & b & Ha & Hb & Hab).
    rewrite Hpc in Hb. assert (b = y) as -> by congruence.
    exists a, g. rewrite (Hother c), (Hother (parent (parent j))) by lia.
    split_and!; [done..|]. by apply (not_before_trans _ y).
Qed.

(** One round of [down] that swaps slot [i] with its child [j]. *)
Lemma down_ready_swap l l' n i j x z :
  0 ≤ i → 0 < j < n → parent j = i →
  at_index l j = Some x → at_index l i = Some z → before x z →
  (∀ k, 0 < k < n → k ≠ j → parent k = i → fits l k j) →
  (∀ k, at_index l' k =
        if decide (k = j) then Some z
        else if decide (k = i) then Some x else at_index l k) →
  down_ready l n i →
  down_ready l' n j ∧ fits l' j (parent j).
Proof.
  intros Hi Hj Hpj Hx Hz Hxz Hsib Hl' [Hdown Hgrand].
  pose proof (parent_below j (proj1 Hj)) as Hpj'.
  pose proof (before_not_before _ _ Hxz) as Hzx.
  assert (∀ k, k ≠ j → k ≠ i → at_index l' k = at_index l k) as Hother.
  { intros k ??. rewrite Hl'. by rewrite !decide_False. }
  assert (at_index l' j = Some z) as Hj' by (by rewrite Hl', decide_True).
  assert (at_index l' i = Some x) as Hi'
    by (rewrite Hl', decide_False, decide_True by lia; done).
  split; [split|].
  - intros p Hp Hpj'' Hppj. pose proof (parent_below p (proj1 Hp)) as Hpp.
    destruct (decide (p = i)) as [->|Hpi].
    { destruct (Hgrand j ltac:(lia) Hj Hpj) as (a & g & Ha & Hg & Hag).
      exists x, g. rewrite Hi', (Hother (parent i)) by lia.
      split_and!; [done..|]. congruence. }
    destruct (decide (parent p = i)) as [Hc|Hc].
    { destruct (Hsib p Hp Hpj'' Hc) as (a & b & Ha & Hb & Hab).
      exists a, x. rewrite (Hother p), Hc, Hi' by lia. split_and!; [done..|]. congruence. }
    destruct (Hdown p Hp Hpi Hc) as (a & b & Ha & Hb & Hab).
    exists a, b. by rewrite (Hother p), (Hother (parent p)) by lia.
  - intros c _ Hc Hpc. pose proof (parent_below c (proj1 Hc)) as Hpc'.
    destruct (Hdown c Hc ltac:(lia) ltac:(lia)) as (a & b & Ha & Hb & Hab).
    rewrite Hpc in Hb. assert (b = x) as -> by congruence.
    exists a, x. by rewrite (Hother c), Hpj, Hi' by lia.
  - exists z, x. by rewrite Hpj.
Qed.

(** The settings and the memory of [s] are those of [s0] up to [SetIndex]
    calls, so that the policy answers as in [s0]. *)
Definition tracks s : Prop :=
  cmpFn (heap s) = cmpFn (heap s0) ∧ SetIndex_steps (mem s0) (mem s).

Lemma tracks_refl : tracks s0.
Proof. split; [done | constructor]. Qed.

Lemma Less_tracks i j s b s' :
  tracks s → Less i j s = Returns b s' →
  s' = s ∧ ∃ x y, at_index (objects (heap s)) i = Some x ∧
                  at_index (objects (heap s)) j = Some y ∧
                  policy s0 x y = Ok b.
Proof.
  intros [Hc Hm] (-> & x & y & Hx & Hy & Hp)%Less_Returns. split; [done|].
  exists x, y. by rewrite <- (same_policy_intro s Hc Hm).
Qed.

Lemma Swap_at_index i j s s' :
  Swap i j s = Returns tt s' →
  ∃ x y, at_index (objects (heap s)) i = Some x ∧
         at_index (objects (heap s)) j = Some y ∧
         ∀ k, at_index (objects (heap s')) k =
              if decide (k = j) then Some x
              else if decide (k = i) then Some y
              else at_index (objects (heap s)) k.
Proof.
  intros (x & y & Hx & Hy & Hobj & _)%Swap_Returns. exists x, y.
  split_and!; [done..|]. intros k. rewrite Hobj. by apply at_index_swapped.
Qed.

Lemma up_loop_ordered fuel j s s' n :
  tracks s → up_ready (objects (heap s)) n j →
  up_loop fuel j s = Returns tt s' →
  tracks s' ∧ ordered_below (objects (heap s')) n.
Proof.
  revert j s. induction fuel as [|fuel IH]; intros j s Ht Hup H; [done|].
  simpl in H. fold (parent j) in H. case_decide as Hij.
  - injection H as <-. split; [done|]. intros p Hp. apply Hup; [done|].
    unfold parent in Hij. Z.to_euclidean_division_equations. lia.
  - apply bind_Returns in H as (b & s1 & HL & H).
    apply (Less_tracks _ _ _ _ _ Ht) in HL as (-> & x & y & Hx & Hy & Hxy).
    destruct b; simpl in H.
    + apply bind_Returns in H as ([] & s2 & HS & H).
      pose proof (Swap_same_policy _ _ _ _ Ht HS) as Ht2.
      apply Swap_at_index in HS as (y' & x' & Hy' & Hx' & Hl').
      simplify_eq.
      eapply (IH _ s2); [done| |done].
      eapply (up_ready_swap (objects (heap s))); [|exact Hx|exact Hy|exact Hxy|exact Hl'|done].
      apply at_index_Some in Hx. unfold parent in Hij.
      Z.to_euclidean_division_equations. lia.
    + injection H as <-. split; [done|]. intros p Hp.
      destruct (decide (p = j)) as [->|Hpj]; [by exists x, y | by apply Hup].
Qed.

Lemma down_loop_ordered fuel i0 n i s b s' :
  0 ≤ i0 ≤ i →
  tracks s → down_ready (objects (heap s)) n i →
  (i0 < i → fits (objects (heap s)) i (parent i)) →
  down_loop fuel i0 n i s = Returns b s' →
  tracks s' ∧
  (b = true ∧ ordered_below (objects (heap s')) n ∨
   b = false ∧ i = i0 ∧ s' = s ∧ children_fit (objects (heap s)) n i0).
Proof.
  revert i s. induction fuel as [|fuel IH]; intros i s Hi Ht Hdown Hfit H; [done|].
  assert (children_fit (objects (heap s)) n i →
          tracks s ∧
          (bool_decide (i > i0) = true ∧ ordered_below (objects (heap s)) n ∨
           bool_decide (i > i0) = false ∧ i = i0 ∧ s = s ∧
           children_fit (objects (heap s)) n i0)) as Hstop.
  { intros Hch. split; [done|]. destruct (decide (i > i0)) as [Hgt|Hle].
    - left. rewrite bool_decide_eq_true_2 by done. split; [done|]. intros p Hp.
      destruct (decide (p = i)) as [->|Hpi]; [apply Hfit; lia|].
      destruct (decide (parent p = i)) as [Hc|Hc]; [|by apply Hdown].
      rewrite Hc. by apply Hch.
    - right. rewrite bool_decide_eq_false_2 by done.
      assert (i = i0) as -> by lia. done. }
  simpl in H. case_decide as Hbreak.
  { injection H as <- <-. apply Hstop. intros c Hc Hpc.
    destruct (parent_cases c (proj1 Hc)); lia. }
  apply bind_Returns in H as (r & s1 & Hr & H).
  apply bind_Returns in H as (b' & s2 & HL & H).
  set (j1 := 2 * i + 1) in *. set (j2 := j1 + 1) in *.
  (* the smaller child: every other child within [n] fits under it *)
  assert (s1 = s ∧
          let j := if r then j2 else j1 in
          0 < j < n ∧ parent j = i ∧
          ∀ k, 0 < k < n → k ≠ j → parent k = i →
               fits (objects (heap s)) k j) as (-> & Hj & Hpj & Hsib).
  { destruct (decide (j2 < n)) as [Hj2|Hj2].
    - apply (Less_tracks _ _ _ _ _ Ht) in Hr as (-> & a2 & a1 & Ha2 & Ha1 & Hr).
      split; [done|]. destruct r; simpl.
      + split; [lia|]. split; [apply parent_of_child; lia|]. intros k Hk Hkj Hpk.
        assert (k = j1) as -> by (destruct (parent_cases k (proj1 Hk)); lia).
        exists a1, a2. split_and!; [done..|]. by apply before_not_before.
      + split; [lia|]. split; [apply parent_of_child; lia|]. intros k Hk Hkj Hpk.
        assert (k = j2) as -> by (destruct (parent_cases k (proj1 Hk)); lia).
        by exists a2, a1.
    - injection Hr as <- <-. split; [done|]. simpl.
      split; [lia|]. split; [apply parent_of_child; lia|]. intros k Hk Hkj Hpk.
      destruct (parent_cases k (proj1 Hk)); lia. }
  set (j := if r then j2 else j1) in *.
  pose proof (parent_below j (proj1 Hj)) as Hij.
  apply (Less_tracks _ _ _ _ _ Ht) in HL as (-> & x & z & Hx & Hz & Hxz).
  destruct b'; simpl in H.
  - apply bind_Returns in H as ([] & s3 & HS & H).
    pose proof (Swap_same_policy _ _ _ _ Ht HS) as Ht3.
    apply Swap_at_index in HS as (z' & x' & Hz' & Hx' & Hl'). simplify_eq.
    destruct (down_ready_swap (objects (heap s)) (objects (heap s3)) n i j x z)
      as [Hdown' Hfit']; [lia|done..|].
    apply (IH j s3) in H as [Ht' H]; [|lia|done|done|done].
    split; [done|]. destruct H as [H | (_ & ? & _)]; [by left | lia].
  - injection H as <- <-. apply Hstop. intros c Hc Hpc.
    destruct (decide (c = j)) as [->|Hcj]; [by exists x, z|].
    eapply fits_trans; [by apply Hsib|]. by exists x, z.
Qed.

Lemma tracks_same_policy s : tracks s → same_policy s.
Proof. intros [Hc Hm]. by apply same_policy_intro. Qed.

Lemma heap_ordered_ordered_below s :
  same_policy s →
  heap_ordered s ↔
  ordered_below (objects (heap s)) (Z.of_nat (length (objects (heap s)))).
Proof.
  intros Hsame. unfold heap_ordered, ordered_below, fits, not_before.
  split; intros H p Hp; specialize (H p Hp).
  - apply Less_Returns in H as (_ & x & y & Hx & Hy & Hxy).
    exists x, y. by rewrite <- Hsame.
  - destruct H as (x & y & Hx & Hy & Hxy). apply Less_Returns. split; [done|].
    exists x, y. by rewrite Hsame.
Qed.

Lemma rearranged_tracks s : rearranged s0 s → tracks s.
Proof. by intros (_ & Hc & _ & _ & Hm & _). Qed.

(** Cutting off the last slot keeps the order of the slots before it. *)
Lemma Pop_ordered s r s' n :
  tracks s → Z.of_nat (length (objects (heap s))) = n + 1 →
  ordered_below (objects (heap s)) n →
  Pop s = Returns r s' →
  tracks s' ∧ ordered_below (objects (heap s')) (Z.of_nat (length (objects (heap s')))).
Proof.
  intros Ht Hlen Hord (v & _ & _ & ->)%Pop_Returns. simpl. split; [done|].
  rewrite Hlen. replace (n + 1 - 1) with n by lia.
  rewrite length_take, Nat.min_l by lia.
  intros p Hp. pose proof (parent_below p (proj1 Hp)).
  destruct (Hord p ltac:(lia)) as (x & y & Hx & Hy & Hxy).
  exists x, y. rewrite !at_index_take, !decide_True by lia. done.
Qed.

Lemma coheap_Push_ordered arg s' :
  ordered_below (objects (heap s0)) (Z.of_nat (length (objects (heap s0)))) →
  coheap_Push arg s0 = Returns tt s' →
  tracks s' ∧ ordered_below (objects (heap s')) (Z.of_nat (length (objects (heap s')))).
Proof.
  intros Hord (s1 & HP & HU)%coheap_Push_Returns.
  assert (length (objects (heap s')) = length (objects (heap s1))) as ->.
  { eapply (up_keeps (λ s, length (objects (heap s)) = length (objects (heap s1)))); [|done..].
    intros i j s s2 Hl (x & y & _ & _ & Hobj & _)%Swap_Returns.
    by rewrite Hobj, !length_set_index. }
  apply Push_Returns in HP as (v & -> & _ & ->). simpl in *.
  eapply up_loop_ordered; [| |exact HU].
  { split; [done | constructor]. }
  simpl. rewrite length_app. simpl.
  replace (Z.of_nat (length (objects (heap s0)) + 1) - 1)
    with (Z.of_nat (length (objects (heap s0)))) by lia.
  split.
  - intros p Hp Hne. pose proof (parent_below p (proj1 Hp)).
    destruct (Hord p ltac:(lia)) as (x & y & Hx & Hy & Hxy).
    exists x, y. rewrite !at_index_app_l by lia. done.
  - intros c Hj Hc Hpc. pose proof (parent_below c (proj1 Hc)). lia.
Qed.

Lemma down_ordered i n s b s' :
  0 ≤ i → tracks s → down_ready (objects (heap s)) n i →
  down i n s = Returns b s' →
  tracks s' ∧
  (b = true ∧ ordered_below (objects (heap s')) n ∨
   b = false ∧ s' = s ∧ children_fit (objects (heap s)) n i).
Proof.
  intros Hi Ht Hdown HD. unfold down in HD.
  apply down_loop_ordered in HD as [Ht' HD]; [|lia|done|done|lia].
  split; [done|]. destruct HD as [HD | (? & _ & ? & ?)]; [by left | by right].
Qed.

Lemma coheap_Pop_ordered r s' :
  ordered_below (objects (heap s0)) (Z.of_nat (length (objects (heap s0)))) →
  coheap_Pop s0 = Returns r s' →
  tracks s' ∧ ordered_below (objects (heap s')) (Z.of_nat (length (objects (heap s')))).
Proof.
  intros Hord (s1 & b & s2 & HS & HD & HP)%coheap_Pop_Returns.
  set (n := Z.of_nat (length (objects (heap s0))) - 1) in *.
  pose proof (Swap_rearranged s0 _ _ _ _ (rearranged_refl s0) HS) as Hr1.
  pose proof (down_keeps (rearranged s0) (Swap_rearranged s0) _ _ _ _ _ Hr1 HD) as Hr2.
  apply rearranged_length in Hr2 as Hlen2.
  apply Swap_at_index in HS as (x & y & Hx & Hy & Hl1).
  assert (down_ready (objects (heap s1)) n 0) as Hdown.
  { split; [|lia]. intros p Hp _ Hpp. pose proof (parent_below p (proj1 Hp)).
    destruct (Hord p ltac:(lia)) as (a & c & Ha & Hc & Hac).
    exists a, c. rewrite !Hl1, !decide_False by lia. done. }
  apply down_ordered in HD as [Ht2 HD]; [|lia|by apply rearranged_tracks|done].
  eapply (Pop_ordered s2 r s' n); [done|lia| |done].
  destruct HD as [[_ HD] | (_ & -> & Hch)]; [done|].
  intros p Hp. destruct (decide (parent p = 0)) as [Hc|Hc].
  - rewrite Hc. by apply Hch.
  - apply Hdown; [done|lia|done].
Qed.

Lemma coheap_Remove_ordered i r s' :
  ordered_below (objects (heap s0)) (Z.of_nat (length (objects (heap s0)))) →
  coheap_Remove i s0 = Returns r s' →
  tracks s' ∧ ordered_below (objects (heap s')) (Z.of_nat (length (objects (heap s')))).
Proof.
  intros Hord (s3 & HP & H)%coheap_Remove_Returns.
  set (n := Z.of_nat (length (objects (heap s0))) - 1) in *.
  destruct H as [[Hn ->] | (Hn & s1 & moved & s2 & HS & HD & H)].
  { apply Pop_Returns in HP as HP'. destruct HP' as (w & _ & Hw%at_index_Some & _).
    eapply (Pop_ordered s0 r s' n); [apply tracks_refl|lia| |done].
    intros p Hp. apply Hord. lia. }
  pose proof (Swap_rearranged s0 _ _ _ _ (rearranged_refl s0) HS) as Hr1.
  pose proof (down_keeps (rearranged s0) (Swap_rearranged s0) _ _ _ _ _ Hr1 HD) as Hr2.
  apply Swap_at_index in HS as (x & y & Hx & Hy & Hl1).
  apply at_index_Some in Hx as Hi.
  assert (down_ready (objects (heap s1)) n i) as Hdown.
  { split.
    - intros p Hp Hpi Hppi. pose proof (parent_below p (proj1 Hp)).
      destruct (Hord p ltac:(lia)) as (a & c & Ha & Hc & Hac).
      exists a, c. rewrite !Hl1, !decide_False by lia. done.
    - intros c Hi' Hc Hpc. pose proof (parent_below c (proj1 Hc)).
      pose proof (parent_below i Hi').
      assert (fits (objects (heap s0)) c (parent i)) as (a & g & Ha & Hg & Hag).
      { apply (fits_trans _ _ i); [rewrite <- Hpc|]; apply Hord; lia. }
      exists a, g. rewrite !Hl1, !decide_False by lia. done. }
  apply down_ordered in HD as [Ht2 HD]; [|lia|by apply rearranged_tracks|done].
  assert (tracks s3 ∧ ordered_below (objects (heap s3)) n ∧
          length (objects (heap s3)) = length (objects (heap s0))) as (Ht3 & Hord3 & Hlen3).
  { destruct H as [[-> ->] | [-> HU]].
    - destruct HD as [[_ HD] | [[=] _]]. split_and!; [done..|].
      by apply rearranged_length.
    - destruct HD as [[[=] _] | (_ & -> & Hch)].
      pose proof (up_keeps (rearranged s0) (Swap_rearranged s0) _ _ _ Hr1 HU) as Hr3.
      eapply up_loop_ordered in HU as [Ht3 Hord3]; [|done|].
      + split_and!; [done..|]. by apply rearranged_length.
      + destruct Hdown as [Hd1 Hd2]. split; [|done].
        intros p Hp Hpi. destruct (decide (parent p = i)) as [Hc|Hc].
        * rewrite Hc. by apply Hch.
        * by apply Hd1. }
  eapply (Pop_ordered s3 r s' n); [done|lia|done|done].
Qed.

Lemma policy_insert s a o x y :
  cmpFn (heap s) = cmpFn (heap s0) → ptr x ≠ a → ptr y ≠ a →
  policy (mkState (heap s) (<[a := o]> (mem s))) x y = policy s x y.
Proof.
  intros Hc Hx Hy. rewrite !policy_eq. simpl. rewrite Hc.
  by rewrite !(policy_local _ laws) by done.
Qed.

(** One operation, from the heap-ordered state [s0]. *)
Lemma exec_heap_ordered o s' :
  heap_ordered s0 → no_resident_target s0 o → exec o s0 = Returns tt s' →
  heap_ordered s' ∧ cmpFn (heap s') = cmpFn (heap s0).
Proof.
  intros Hord Hallowed H.
  apply (heap_ordered_ordered_below s0) in Hord; [|by intros ??].
  assert (∀ s, tracks s →
               ordered_below (objects (heap s)) (Z.of_nat (length (objects (heap s)))) →
               heap_ordered s ∧ cmpFn (heap s) = cmpFn (heap s0)) as Hdone.
  { intros s Ht Ho. split; [|by destruct Ht].
    by apply heap_ordered_ordered_below; [apply tracks_same_policy|]. }
  destruct o as [arg|arg|arg|arg]; simpl in H.
  - apply Hdone; by eapply coheap_Push_ordered.
  - apply Get_Returns in H as (out & r & s1 & -> & _ & HP & HE).
    apply Elem_Set_Returns in HE as (o & _ & _ & ->).
    apply coheap_Pop_Returns_shrunk in HP as HP'.
    destruct HP' as (root & _ & _ & Hperm & _).
    apply coheap_Pop_ordered in HP as [Ht1 Hord1]; [|done].
    destruct (Hdone s1 Ht1 Hord1) as [Hho Hc]. split; [|done].
    intros p Hp. simpl in Hp. specialize (Hho p Hp).
    apply Less_Returns in Hho as (_ & x & y & Hx & Hy & Hxy).
    apply Less_Returns. split; [done|]. exists x, y. simpl. split_and!; [done..|].
    rewrite policy_insert; [done|done|..].
    + apply Hallowed. rewrite Hperm. apply elem_of_cons. right.
      by eapply at_index_elem_of.
    + apply Hallowed. rewrite Hperm. apply elem_of_cons. right.
      by eapply at_index_elem_of.
  - by apply Peek_never_returns in H.
  - apply bind_Returns in H as (b & s1 & H & [= <-]).
    apply DeleteElem_Returns in H as [_ [[_ ->] | (index & r & _ & HR)]].
    + apply Hdone; [apply tracks_refl | done].
    + apply Hdone; by eapply coheap_Remove_ordered.
Qed.

End HeapOrder.

Section HeapOrderReached.
Context `{RT : Runtime}.

Lemma heap_ordered_reached s0 s :
  fresh_state s0 → policy_laws (ptr (cmpFn (heap s0))) →
  reaches no_resident_target s0 s →
  heap_ordered s ∧ cmpFn (heap s) = cmpFn (heap s0).
Proof.
  intros [He _]%fresh_state_empty Hlaws Hr.
  induction Hr as [|s1 s2 o Hr [IH Hc] Hallowed Hexec].
  - split; [|done]. intros p Hp. rewrite He in Hp. simpl in Hp. lia.
  - rewrite <- Hc in Hlaws.
    destruct (exec_heap_ordered s1 Hlaws o s2 IH Hallowed Hexec) as [Ho Hc'].
    split; [done | congruence].
Qed.

(** X9. Heap order is kept: if the policy is a strict weak order that reads
    only its two arguments and not what [SetIndex] writes, every state
    reached from a fresh heap by operations that returned, none of them a
    [Get] into the memory of a resident element, has [Less(p, parent p)]
    false at every slot [p] but the root. *)
Theorem heap_order_kept s0 s :
  fresh_state s0 → policy_laws (ptr (cmpFn (heap s0))) →
  reaches no_resident_target s0 s →
  heap_ordered s.
Proof. intros Hf Hlaws Hr. by apply (heap_ordered_reached s0 s Hf Hlaws Hr). Qed.

End HeapOrderReached.

Section Top.
Context `{RT : Runtime}.
Implicit Types (s : State) (k p : Z) (v root : Value).

Lemma no_slot_precedes_root s k v root :
  policy_laws (ptr (cmpFn (heap s))) → heap_ordered s →
  0 < k → at_index (objects (heap s)) k = Some v →
  at_index (objects (heap s)) 0 = Some root →
  policy s v root = Ok false.
Proof.
  intros Hlaws Hord Hk Hv Hroot.
  assert (∀ (m : nat) k v, (Z.to_nat k ≤ m)%nat → 0 < k →
            at_index (objects (heap s)) k = Some v → policy s v root = Ok false) as Hind.
  { clear k v Hk Hv. induction m as [|m IH]; intros k v Hm Hk Hv; [lia|].
    apply at_index_Some in Hv as Hr.
    pose proof (Hord k ltac:(lia)) as HL.
    apply Less_Returns in HL as (_ & x & y & Hx & Hy & Hxy). simplify_eq.
    pose proof (parent_below k Hk) as Hp.
    destruct (decide (parent k = 0)) as [H0|H0]; [congruence|].
    assert (policy s y root = Ok false) as Hy' by (apply (IH (parent k)); [lia..|done]).
    by apply (not_before_trans s Hlaws v y root). }
  by apply (Hind (Z.to_nat k) k v).
Qed.

(** X10. In a heap-ordered state whose policy is a strict weak order, no
    element of the array precedes the one in slot 0: the policy answers
    [false] when asked whether the element of a slot [k > 0] comes
    before the root. *)
Theorem root_is_not_preceded s k v root :
  policy_laws (ptr (cmpFn (heap s))) → heap_ordered s →
  0 < k → at_index (objects (heap s)) k = Some v →
  at_index (objects (heap s)) 0 = Some root →
  policy s v root = Ok false.
Proof. apply no_slot_precedes_root. Qed.

(** The settings [NewHeap] made are never changed, and the array only
    ever holds elements of the element type, which is of kind pointer. *)
Definition settings_hold (h0 : Heap) s : Prop :=
  cmpFn (heap s) = cmpFn h0 ∧ dataType (heap s) = dataType h0 ∧
  indexer (heap s) = indexer h0 ∧
  Forall (λ v, typ v = dataType h0) (objects (heap s)).

Lemma exec_settings_hold h0 o s s' :
  settings_hold h0 s → exec o s = Returns tt s' → settings_hold h0 s'.
Proof.
  intros (Hc & Hd & Hi & Hall) H.
  assert (∀ w s1, shrunk w s s1 → settings_hold h0 s1) as Hshrunk.
  { intros w s1 (Hp & Hc' & Hd' & Hi' & _). split_and!; try congruence.
    rewrite Hp in Hall. by apply Forall_cons_1 in Hall as [_ ?]. }
  destruct o as [arg|arg|arg|arg]; simpl in H.
  - apply Put_Returns_grown in H as (v & -> & Ht & Hp & Hc' & Hd' & Hi' & _).
    split_and!; try congruence. rewrite Hp. constructor; [congruence | done].
  - apply Get_Returns in H as (out & r & s1 & -> & _ & HP & HE).
    apply Elem_Set_Returns in HE as (o & _ & _ & ->).
    apply coheap_Pop_Returns_shrunk in HP as (root & _ & _ & Hs).
    by apply (Hshrunk root s1).
  - by apply Peek_never_returns in H.
  - apply bind_Returns in H as (b & s1 & H & [= <-]).
    apply DeleteElem_Returns in H as [_ [[_ ->] | (index & r & _ & HR)]]; [done|].
    apply coheap_Remove_Returns_shrunk in HR as (w & _ & _ & Hs).
    by apply (Hshrunk w s1).
Qed.

(** X11. What [NewHeap] set up is never changed: in every state reached
    from the heap [NewHeap(compareFn)] returned, by any operations that
    returned, the policy is still [compareFn], the element type is the
    same and of kind pointer, the [Indexer] flag says whether that type
    has the [Indexer] methods, and every element of the array is of the
    element type. *)
Theorem settings_are_fixed compareFn s0 s :
  NewHeap compareFn = Ok (Some (heap s0), None) →
  reaches any_op s0 s →
  cmpFn (heap s) = cmpFn (heap s0) ∧ Some (cmpFn (heap s0)) = compareFn ∧
  dataType (heap s) = dataType (heap s0) ∧ kind (dataType (heap s0)) = Ptr ∧
  indexer (heap s) = Implements_Indexer (dataType (heap s0)) ∧
  Forall (λ v, typ v = dataType (heap s0)) (objects (heap s)).
Proof.
  intros HN Hr.
  assert (settings_hold (heap s0) s) as (Hc & Hd & Hi & Hall).
  { induction Hr as [|s1 s2 o Hr IH _ Hexec].
    - split_and!; try done. simpl. unfold NewHeap in HN.
      destruct (checkAndSetFn compareFn) as [[e|[[f dt] ix]]|]; simplify_eq.
      rewrite <- HN. constructor.
    - by eapply exec_settings_hold. }
  destruct compareFn as [fn|]; [|done].
  destruct (NewHeap_not_nil fn) as [[Hshape HN'] | [_ [err HN']]];
    rewrite HN in HN'; [|done].
  injection HN' as Hh. rewrite Hh in *. simpl in *.
  destruct Hshape as (p & b & Hsig & Hkp & Hkb). rewrite Hsig in *. simpl in *.
  by split_and!.
Qed.

End Top.

(* --------------------------------------------------------------------- *)
(*  IntElem, IndexMixin and the ready-made heaps                         *)
(* --------------------------------------------------------------------- *)

Section IntElems.
Implicit Types (m : gmap addr IntObj) (e mx : addr) (v x y out root : Value).
Implicit Types (s : State (RT := IntRuntime)).

Lemma dataOf_insert_mixin m mx i k v :
  m !! mx = Some (OIndexMixin i) →
  dataOf v (<[mx := OIndexMixin k]> m) = dataOf v m.
Proof.
  intros Hmx. unfold dataOf. destruct (decide (ptr v = mx)) as [->|Hne].
  - by rewrite lookup_insert_eq, Hmx.
  - by rewrite lookup_insert_ne.
Qed.

Lemma IntElem_SetIndex_Ok e k m m' :
  IntElem_SetIndex e k m = Ok m' →
  ∃ d mx i, m !! e = Some (OIntElem d mx) ∧ m !! mx = Some (OIndexMixin i) ∧
            m' = <[mx := OIndexMixin k]> m.
Proof.
  unfold IntElem_SetIndex, mixinOf. intros H.
  destruct (m !! e) as [[d mx|]|] eqn:He; try done.
  destruct (m !! mx) as [[|i]|] eqn:Hmx; try done.
  injection H as <-. by exists d, mx, i.
Qed.

(** X12. [SetIndex] and then [GetIndex] on the same element gives the index
    that was set, and [SetIndex] leaves the [data] of every element as it
    was. *)
Theorem SetIndex_then_GetIndex e k m m' :
  IntElem_SetIndex e k m = Ok m' →
  IntElem_GetIndex e m' = Ok k ∧ ∀ v, dataOf v m' = dataOf v m.
Proof.
  intros (d & mx & i & He & Hmx & ->)%IntElem_SetIndex_Ok. split.
  - unfold IntElem_GetIndex, mixinOf.
    assert (e ≠ mx) as Hne by (intros ->; congruence).
    by rewrite lookup_insert_ne, He, lookup_insert_eq by done.
  - intros v. by eapply dataOf_insert_mixin.
Qed.

(** Whichever type it is called on, [SetIndex] rewrites one [IndexMixin]. *)
Lemma SetIndex_Ok t ms a k m m' :
  methodsOf (Runtime := IntRuntime) t = Some ms →
  SetIndex ms a k m = Ok m' →
  ∃ mx i, m !! mx = Some (OIndexMixin i) ∧ m' = <[mx := OIndexMixin k]> m.
Proof.
  simpl. repeat case_decide; intros [= <-]; simpl.
  - intros (d & mx & i & _ & Hmx & ->)%IntElem_SetIndex_Ok. eauto.
  - unfold IndexMixin_SetIndex. destruct (m !! a) as [[|i]|] eqn:Ha; try done.
    intros [= <-]. eauto.
Qed.

Lemma SetIndex_steps_dataOf m m' v :
  SetIndex_steps (RT := IntRuntime) m m' → dataOf v m' = dataOf v m.
Proof.
  induction 1 as [|m1 m2 t ms a k _ IH Hms Hset]; [done|].
  destruct (SetIndex_Ok _ _ _ _ _ _ Hms Hset) as (mx & i & Hmx & ->).
  rewrite <- IH. by eapply dataOf_insert_mixin.
Qed.

(** The comparators of [NewMaxHeap] and [NewMinHeap] obey the laws heap
    order rests on. *)
Lemma IntElem_policy_laws f :
  f = maxFn ∨ f = minFn → policy_laws (RT := IntRuntime) f.
Proof.
  intros Hf.
  assert (∀ m x y b, fnBody f m x y = Ok b →
            ∃ a c, dataOf x m = Ok a ∧ dataOf y m = Ok c ∧
                   b = if decide (f = maxFn) then bool_decide (a > c)
                       else bool_decide (a < c)) as Hinv.
  { intros m x y b. simpl. unfold IntElem_fnBody.
    destruct Hf as [-> | ->]; simpl;
      destruct (dataOf x m) as [a|], (dataOf y m) as [c|]; try done;
      intros [= <-]; by exists a, c. }
  assert (∀ m x y a c, dataOf x m = Ok a → dataOf y m = Ok c →
            fnBody f m x y = Ok (if decide (f = maxFn) then bool_decide (a > c)
                                 else bool_decide (a < c))) as Hval.
  { intros m x y a c Hx Hy. simpl. unfold IntElem_fnBody.
    destruct Hf as [-> | ->]; simpl; by rewrite Hx, Hy. }
  assert (∀ m m', (∀ v, dataOf v m' = dataOf v m) →
            ∀ x y, fnBody f m' x y = fnBody f m x y) as Hdata.
  { intros m m' Hd x y. simpl. unfold IntElem_fnBody. by rewrite !Hd. }
  split.
  - intros m x y (a & c & Hx & Hy & Hb)%Hinv.
    rewrite (Hval m y x c a Hy Hx). f_equal.
    destruct (decide (f = maxFn)); symmetry in Hb;
      apply bool_decide_eq_true in Hb; apply bool_decide_eq_false; lia.
  - intros m x y z (a & c & Hx & Hy & Hb)%Hinv (c' & d & Hy' & Hz & Hb')%Hinv.
    rewrite Hy in Hy'. injection Hy' as <-.
    rewrite (Hval m x z a d Hx Hz). f_equal.
    destruct (decide (f = maxFn)); symmetry in Hb, Hb';
      apply bool_decide_eq_false in Hb, Hb'; apply bool_decide_eq_false; lia.
  - intros t ms a k m m' Hms Hset. apply Hdata. intros v.
    destruct (SetIndex_Ok _ _ _ _ _ _ Hms Hset) as (mx & i & Hmx & ->).
    by eapply dataOf_insert_mixin.
  - intros m a o x y Hx Hy. simpl. unfold IntElem_fnBody, dataOf.
    by rewrite !lookup_insert_ne by done.
Qed.

(** What the policy of a max-heap says about the data of two elements. *)
Lemma max_policy_Ok s x y b :
  cmpFn (heap s) = mkValue cmpType maxFn →
  policy s x y = Ok b →
  ∃ a c, dataOf x (mem s) = Ok a ∧ dataOf y (mem s) = Ok c ∧ b = bool_decide (a > c).
Proof.
  intros Hc. rewrite policy_eq, Hc. simpl. unfold IntElem_fnBody. simpl.
  destruct (dataOf x (mem s)) as [a|], (dataOf y (mem s)) as [c|]; try done.
  intros [= <-]. by exists a, c.
Qed.

(** What the policy of a min-heap says about the data of two elements. *)
Lemma min_policy_Ok s x y b :
  cmpFn (heap s) = mkValue cmpType minFn →
  policy s x y = Ok b →
  ∃ a c, dataOf x (mem s) = Ok a ∧ dataOf y (mem s) = Ok c ∧ b = bool_decide (a < c).
Proof.
  intros Hc. rewrite policy_eq, Hc. simpl. unfold IntElem_fnBody. simpl.
  destruct (dataOf x (mem s)) as [a|], (dataOf y (mem s)) as [c|]; try done.
  intros [= <-]. by exists a, c.
Qed.

(** The state right after [NewMinHeap()], in memory [m]. *)
Definition min_heap_in m : State (RT := IntRuntime) :=
  mkState (mkHeap [] (mkValue cmpType minFn) PtrIntElem true ∅) m.

Lemma NewMinHeap_Returns m : NewMinHeap m = Returns (heap (min_heap_in m)) m.
Proof. reflexivity. Qed.

Lemma min_heap_in_fresh m : fresh_state (min_heap_in m).
Proof.
  exists (Some (mkValue cmpType minFn)), (heap (min_heap_in m)). split; [|done].
  vm_compute. reflexivity.
Qed.

(** X13. Every heap reached from [NewMaxHeap()] by operations that
    returned, none of them a [Get] into a resident element, is a max-heap
    on the [data] fields: the datum in a slot is at most the datum in the
    parent slot. *)
Theorem max_heap_data_ordered m h m' s p :
  NewMaxHeap m = Returns h m' →
  reaches no_resident_target (mkState h m') s →
  0 < p < Z.of_nat (length (objects (heap s))) →
  ∃ x y a c, at_index (objects (heap s)) p = Some x ∧
             at_index (objects (heap s)) (parent p) = Some y ∧
             dataOf x (mem s) = Ok a ∧ dataOf y (mem s) = Ok c ∧ a ≤ c.
Proof.
  rewrite NewMaxHeap_Returns. intros [= <- <-] Hr Hp.
  destruct (heap_ordered_reached (max_heap_in m) s) as [Hord Hc];
    [apply max_heap_in_fresh | apply IntElem_policy_laws; by left | exact Hr |].
  pose proof (Hord p Hp) as HL.
  apply Less_Returns in HL as (_ & x & y & Hx & Hy & Hxy).
  apply (max_policy_Ok s x y false Hc) in Hxy as (a & c & Ha & Hc' & Hb).
  symmetry in Hb. apply bool_decide_eq_false in Hb.
  exists x, y, a, c. split_and!; [done..|lia].
Qed.

(** X14. Every heap reached from [NewMinHeap()] by operations that
    returned, none of them a [Get] into a resident element, is a min-heap
    on the [data] fields: the datum in a slot is at least the datum in
    the parent slot. *)
Theorem min_heap_data_ordered m h m' s p :
  NewMinHeap m = Returns h m' →
  reaches no_resident_target (mkState h m') s →
  0 < p < Z.of_nat (length (objects (heap s))) →
  ∃ x y a c, at_index (objects (heap s)) p = Some x ∧
             at_index (objects (heap s)) (parent p) = Some y ∧
             dataOf x (mem s) = Ok a ∧ dataOf y (mem s) = Ok c ∧ c ≤ a.
Proof.
  rewrite NewMinHeap_Returns. intros [= <- <-] Hr Hp.
  destruct (heap_ordered_reached (min_heap_in m) s) as [Hord Hc];
    [apply min_heap_in_fresh | apply IntElem_policy_laws; by right | exact Hr |].
  pose proof (Hord p Hp) as HL.
  apply Less_Returns in HL as (_ & x & y & Hx & Hy & Hxy).
  apply (min_policy_Ok s x y false Hc) in Hxy as (a & c & Ha & Hc' & Hb).
  symmetry in Hb. apply bool_decide_eq_false in Hb.
  exists x, y, a, c. split_and!; [done..|lia].
Qed.

(** X15. On a heap-ordered max-heap, [Get] copies into [out] the [data] of the
    element of slot 0, which is at least the [data] of every other
    element of the array. *)
Theorem max_heap_Get_delivers_maximum s out s' :
  cmpFn (heap s) = mkValue cmpType maxFn → heap_ordered s →
  Get (Some out) s = Returns tt s' →
  ∃ root, at_index (objects (heap s)) 0 = Some root ∧
          dataOf out (mem s') = dataOf root (mem s) ∧
          ∀ k v, 0 < k → at_index (objects (heap s)) k = Some v →
                 ∃ a c, dataOf v (mem s) = Ok a ∧ dataOf root (mem s) = Ok c ∧ a ≤ c.
Proof.
  intros Hc Hord HG.
  apply Get_Returns in HG as (? & r & s1 & [= <-] & _ & HP & HE).
  apply coheap_Pop_Returns_shrunk in HP as (root & [= ->] & Hroot & _ & _ & _ & _ & Hm & _).
  apply Elem_Set_Returns in HE as (o & _ & Ho & ->).
  exists root. split_and!; [done| |].
  - rewrite <- (SetIndex_steps_dataOf _ _ root Hm). unfold dataOf. simpl in *.
    rewrite lookup_insert_eq. by rewrite Ho.
  - intros k v Hk Hv.
    assert (policy s v root = Ok false) as Hp.
    { eapply no_slot_precedes_root; [|done..]. rewrite Hc. apply IntElem_policy_laws. by left. }
    apply (max_policy_Ok s v root false Hc) in Hp as (a & c & Ha & Hc' & Hb).
    symmetry in Hb. apply bool_decide_eq_false in Hb. exists a, c. split_and!; [done..|lia].
Qed.

(** X16. [Get] copies the struct, the [*IndexMixin] inside it included: after
    [Get(out)] the slot and the extracted element share one [IndexMixin],
    so an index set through either is the index both report. *)
Theorem Get_shares_the_IndexMixin s out root s' e k m2 :
  Get (Some out) s = Returns tt s' →
  at_index (objects (heap s)) 0 = Some root →
  e = ptr out ∨ e = ptr root →
  IntElem_SetIndex e k (mem s') = Ok m2 →
  IntElem_GetIndex (ptr out) m2 = Ok k ∧ IntElem_GetIndex (ptr root) m2 = Ok k.
Proof.
  intros HG Hroot He Hset.
  apply Get_Returns in HG as (? & r & s1 & [= <-] & Ht & HP & HE).
  apply coheap_Pop_Returns_shrunk in HP as (root' & [= ->] & Hroot' & _).
  assert (root' = root) as -> by congruence.
  apply Elem_Set_Returns in HE as (o & _ & Ho & ->). simpl in *.
  assert (<[ptr out := o]> (mem s1) !! ptr out = Some o) as Hout
    by apply lookup_insert_eq.
  assert (<[ptr out := o]> (mem s1) !! ptr root = Some o) as Hrt.
  { destruct (decide (ptr out = ptr root)) as [->|Hne];
      [apply lookup_insert_eq | by rewrite lookup_insert_ne]. }
  assert (<[ptr out := o]> (mem s1) !! e = Some o) as Hecell
    by (by destruct He as [-> | ->]).
  apply IntElem_SetIndex_Ok in Hset as (d & mx & i & He' & Hmx & ->).
  assert (Some o = Some (OIntElem d mx)) as [= ->] by (rewrite <- Hecell; exact He').
  assert (∀ a, <[ptr out := OIntElem d mx]> (mem s1) !! a = Some (OIntElem d mx) →
               IntElem_GetIndex a (<[mx := OIndexMixin k]> (<[ptr out := OIntElem d mx]> (mem s1)))
               = Ok k) as Hget.
  { intros a Ha. unfold IntElem_GetIndex, mixinOf.
    assert (a ≠ mx) as Hne.
    { intros ->. assert (Some (OIntElem d mx) = Some (OIndexMixin i)) as [=].
      etrans; [symmetry; exact Ha | exact Hmx]. }
    rewrite lookup_insert_ne by done. simpl in *. rewrite Ha.
    by rewrite lookup_insert_eq. }
  split; by apply Hget.
Qed.

(** X17. [NewElem(d)] returns a pointer of type [*IntElem] that is not nil and
    was not in use; the new element has [data] [d] and reports index 0,
    and the cells there were are untouched. *)
Theorem NewElem_is_fresh d m :
  let '(v, m') := NewElem d m in
  typ v = PtrIntElem ∧ ptr v ≠ nil ∧ m !! ptr v = None ∧
  dataOf v m' = Ok d ∧ IntElem_GetIndex (ptr v) m' = Ok 0 ∧
  ∀ a, is_Some (m !! a) → m' !! a = m !! a.
Proof.
  unfold NewElem. set (mx := alloc m). set (m1 := <[mx := OIndexMixin 0]> m).
  set (e := alloc m1).
  assert (mx ≠ nil ∧ m !! mx = None) as [Hmx0 Hmx].
  { pose proof (is_fresh ({[nil]} ∪ dom m)) as Hf. fold (alloc m) in Hf. fold mx in Hf.
    split; [set_solver|]. apply not_elem_of_dom. set_solver. }
  assert (e ≠ nil ∧ m1 !! e = None) as [He0 He].
  { pose proof (is_fresh ({[nil]} ∪ dom m1)) as Hf. fold (alloc m1) in Hf. fold e in Hf.
    split; [set_solver|]. apply not_elem_of_dom. set_solver. }
  assert (e ≠ mx) as Hne by (intros Heq; rewrite Heq in He; unfold m1 in He;
                             by rewrite lookup_insert_eq in He).
  assert (m !! e = None) as He'.
  { unfold m1 in He. by rewrite lookup_insert_ne in He by done. }
  simpl. split_and!; [done..| | |].
  - unfold dataOf. simpl. by rewrite lookup_insert_eq.
  - unfold IntElem_GetIndex, mixinOf. rewrite lookup_insert_eq.
    unfold m1. by rewrite lookup_insert_ne, lookup_insert_eq by done.
  - intros a [o Ha]. unfold m1. rewrite !lookup_insert_ne; [done|congruence..].
Qed.

End IntElems.

(* --------------------------------------------------------------------- *)
(*  Calls that do not panic                                              *)
(* --------------------------------------------------------------------- *)

Section Safe.
Context `{RT : Runtime}.

(** The call does not panic, and what it returns satisfies [Q]. *)
Definition safe {A} (o : outcome State A) (Q : A → State → Prop) : Prop :=
  match o with
  | Returns a s' => Q a s'
  | Panics _ _ => False
  | OutOfFuel => True
  end.

Lemma safe_bind {A B} (c : M A) (k : A → M B) s Q Q' :
  safe (c s) Q → (∀ a s1, Q a s1 → safe (k a s1) Q') → safe (bind c k s) Q'.
Proof. unfold bind. destruct (c s); simpl; [eauto | done | done]. Qed.

Lemma safe_finished {A} (o : outcome State A) Q :
  safe o Q → finished o → ∃ a s', o = Returns a s' ∧ Q a s'.
Proof. destruct o; try done. eauto. Qed.

Lemma safe_objectAt i s v :
  at_index (objects (heap s)) i = Some v →
  safe (objectAt i s) (λ w s', w = v ∧ s' = s).
Proof.
  intros Hv. by rewrite (proj2 (objectAt_Returns i s v s) (conj Hv eq_refl)).
Qed.

End Safe.

Section IntElemsReturn.
Implicit Types (m : gmap addr IntObj) (e mx : addr) (v w x y out : Value) (i j n : Z).
Implicit Types (s : State (RT := IntRuntime)).

(** [v] points to an [IntElem] whose [IndexMixin] is there. *)
Definition live m v : Prop :=
  typ v = PtrIntElem ∧
  ∃ d mx k, m !! ptr v = Some (OIntElem d mx) ∧ m !! mx = Some (OIndexMixin k).

(** A heap of [NewMaxHeap] or [NewMinHeap] whose elements are all live. *)
Definition sound s : Prop :=
  (cmpFn (heap s) = mkValue cmpType maxFn ∨ cmpFn (heap s) = mkValue cmpType minFn) ∧
  dataType (heap s) = PtrIntElem ∧
  Forall (live (mem s)) (objects (heap s)).

Lemma live_insert_mixin m mx k k' w :
  m !! mx = Some (OIndexMixin k) → live m w → live (<[mx := OIndexMixin k']> m) w.
Proof.
  intros Hmx (Ht & d & mw & kw & Hw & Hmw). split; [done|].
  assert (ptr w ≠ mx) as Hne.
  { intros Heq. rewrite Heq in Hw. by rewrite Hw in Hmx. }
  destruct (decide (mw = mx)) as [->|Hne'].
  - exists d, mx, k'. by rewrite lookup_insert_ne, lookup_insert_eq.
  - exists d, mw, kw. by rewrite !lookup_insert_ne.
Qed.

Lemma live_SetIndex m v k :
  live m v →
  ∃ m', IntElem_SetIndex (ptr v) k m = Ok m' ∧ ∀ w, live m w → live m' w.
Proof.
  intros (Ht & d & mx & kv & Hv & Hmx).
  exists (<[mx := OIndexMixin k]> m). split.
  - unfold IntElem_SetIndex, mixinOf. by rewrite Hv, Hmx.
  - intros w. by eapply live_insert_mixin.
Qed.

Lemma live_dataOf m v : live m v → ∃ d, dataOf v m = Ok d.
Proof. intros (_ & d & mx & k & Hv & _). exists d. unfold dataOf. by rewrite Hv. Qed.

Lemma sound_at_index s i v : sound s → at_index (objects (heap s)) i = Some v → live (mem s) v.
Proof.
  intros (_ & _ & Hall) Hv%at_index_elem_of. rewrite Forall_forall in Hall. apply list_elem_of_In in Hv. exact (Hall v Hv).
Qed.

Lemma safe_Less i j s :
  sound s →
  0 ≤ i < Z.of_nat (length (objects (heap s))) →
  0 ≤ j < Z.of_nat (length (objects (heap s))) →
  safe (Less i j s) (λ _ s', s' = s).
Proof.
  intros Hs Hi Hj.
  destruct (at_index_in_range _ _ Hi) as [x Hx]. destruct (at_index_in_range _ _ Hj) as [y Hy].
  destruct (live_dataOf _ _ (sound_at_index _ _ _ Hs Hx)) as [a Ha].
  destruct (live_dataOf _ _ (sound_at_index _ _ _ Hs Hy)) as [c Hc].
  assert (∃ b, policy s x y = Ok b) as [b Hb].
  { rewrite policy_eq. destruct Hs as ([Hf | Hf] & _); rewrite Hf; simpl;
      unfold IntElem_fnBody; simpl; rewrite Ha, Hc; eauto. }
  rewrite (proj2 (Less_Returns i j s b s)); [done|]. split; [done|]. by exists x, y.
Qed.

Lemma safe_callSetIndex v k s :
  sound s → live (mem s) v →
  safe (callSetIndex v k s)
       (λ _ s', heap s' = heap s ∧ sound s' ∧ ∀ w, live (mem s) w → live (mem s') w).
Proof.
  intros Hs Hv. destruct (live_SetIndex _ _ k Hv) as (m' & Hset & Hlive).
  rewrite (proj2 (callSetIndex_Returns v k s (mkState (RT := IntRuntime) (heap s) m'))).
  - simpl. split; [done|]. split; [|done].
    destruct Hs as (Hf & Hd & Hall). split_and!; [done..|].
    simpl. eapply Forall_impl; [exact Hlive | exact Hall].
  - exists (mkIndexer IntElem_GetIndex IntElem_SetIndex), m'. split_and!; [|done..].
    simpl. destruct Hv as [-> _]. by rewrite decide_True.
Qed.

Lemma safe_mono {A} (o : outcome (State (RT := IntRuntime)) A) (Q Q' : A → State → Prop) :
  safe o Q → (∀ a s', Q a s' → Q' a s') → safe o Q'.
Proof. destruct o; simpl; eauto. Qed.

Lemma sound_rearranged s s' :
  sound s → objects (heap s') ≡ₚ objects (heap s) →
  cmpFn (heap s') = cmpFn (heap s) → dataType (heap s') = dataType (heap s) →
  (∀ w, live (mem s) w → live (mem s') w) → sound s'.
Proof.
  intros (Hf & Hd & Hall) Hp Hc Hd' Hl. split_and!; [by rewrite Hc | congruence |].
  rewrite Hp. eapply Forall_impl; [exact Hl | exact Hall].
Qed.

(** What the calls below keep: the heap stays sound, the array keeps its
    length, and whatever was live stays live. *)
Definition kept s : unit → State (RT := IntRuntime) → Prop :=
  λ _ s', sound s' ∧ length (objects (heap s')) = length (objects (heap s)) ∧
          ∀ w, live (mem s) w → live (mem s') w.

Lemma kept_refl s : sound s → kept s tt s.
Proof. by intros Hs; split_and!. Qed.

Lemma kept_trans s1 s2 s3 : kept s1 tt s2 → kept s2 tt s3 → kept s1 tt s3.
Proof. intros (H1 & H2 & H3) (H1' & H2' & H3'). split_and!; [done|congruence|eauto]. Qed.

Lemma safe_Swap i j s :
  sound s →
  0 ≤ i < Z.of_nat (length (objects (heap s))) →
  0 ≤ j < Z.of_nat (length (objects (heap s))) →
  safe (Swap i j s) (kept s).
Proof.
  intros Hs Hi Hj.
  destruct (at_index_in_range _ _ Hi) as [x Hx]. destruct (at_index_in_range _ _ Hj) as [y Hy].
  pose proof (sound_at_index _ _ _ Hs Hx) as Hlx.
  pose proof (sound_at_index _ _ _ Hs Hy) as Hly.
  unfold Swap. rewrite (bind_Returns_l (gets indexer) _ s (indexer (heap s)) s) by done.
  eapply (safe_bind _ _ s (λ _ s1, heap s1 = heap s ∧ sound s1 ∧
                                   ∀ w, live (mem s) w → live (mem s1) w)).
  { destruct (indexer (heap s)); [|done].
    eapply safe_bind; [by apply safe_objectAt|]. intros ? ? [-> ->].
    eapply safe_bind; [by apply safe_callSetIndex|]. intros [] s1 (Hh & Hs1 & Hl).
    eapply safe_bind; [apply safe_objectAt; by rewrite Hh|]. intros ? ? [-> ->].
    eapply safe_mono; [apply safe_callSetIndex; [done | by apply Hl]|].
    intros [] s2 (Hh2 & Hs2 & Hl2). split_and!; [congruence | done | eauto]. }
  intros [] s1 (Hh & Hs1 & Hl).
  destruct s1 as [h1 m1]. simpl in Hh. subst h1.
  rewrite (bind_Returns_l (objectAt i) _ _ x _) by (by apply objectAt_Returns).
  rewrite (bind_Returns_l (setLookup x j) _ _ tt _ eq_refl).
  rewrite (bind_Returns_l (objectAt j) _ _ y _) by (by apply objectAt_Returns).
  rewrite (bind_Returns_l (setLookup y i) _ _ tt _ eq_refl).
  rewrite (bind_Returns_l (objectAt j) _ _ y _) by (by apply objectAt_Returns).
  rewrite (bind_Returns_l (objectAt i) _ _ x _) by (by apply objectAt_Returns).
  rewrite (bind_Returns_l (gets objects) _ _ _ _ eq_refl).
  unfold kept. simpl. split_and!; [|by rewrite !length_set_index|done].
  eapply (sound_rearranged (mkState (heap s) m1)); simpl; [done| |done..].
  by rewrite set_index_swap_Permutation.
Qed.

Lemma safe_up_loop fuel j s :
  sound s → 0 ≤ j < Z.of_nat (length (objects (heap s))) →
  safe (up_loop fuel j s) (kept s).
Proof.
  revert j s. induction fuel as [|fuel IH]; intros j s Hs Hj; [done|].
  simpl. case_decide as Hij; [by apply kept_refl|].
  assert (0 ≤ (j - 1) `quot` 2 < j) by (Z.to_euclidean_division_equations; lia).
  eapply safe_bind; [apply safe_Less; [done|lia..]|]. intros b ? ->.
  destruct b; simpl; [|by apply kept_refl].
  eapply safe_bind; [apply safe_Swap; [done|lia..]|]. intros [] s1 Hk.
  eapply safe_mono; [apply IH; [by destruct Hk | destruct Hk as (_ & -> & _); lia]|].
  intros [] s2 Hk2. by eapply kept_trans.
Qed.

Lemma safe_down_loop fuel i0 n i s :
  sound s → 0 ≤ i → n ≤ Z.of_nat (length (objects (heap s))) →
  safe (down_loop fuel i0 n i s) (λ _ s', kept s tt s').
Proof.
  revert i s. induction fuel as [|fuel IH]; intros i s Hs Hi Hn; [done|].
  simpl. case_decide as Hbreak; [by apply kept_refl|].
  eapply (safe_bind _ _ s (λ r s1, s1 = s ∧ (r = true → 2 * i + 1 + 1 < n))).
  { destruct (decide _); [|done].
    eapply safe_mono; [apply safe_Less; [done|lia..]|]. by intros ? ? ->. }
  intros r ? [-> Hr].
  assert (0 ≤ (if r then 2 * i + 1 + 1 else 2 * i + 1) < n) as Hj.
  { destruct r; [|lia]. specialize (Hr eq_refl). lia. }
  eapply safe_bind; [apply safe_Less; [done|lia..]|]. intros b ? ->.
  destruct b; simpl; [|by apply kept_refl].
  eapply safe_bind; [apply safe_Swap; [done|lia..]|]. intros [] s1 Hk.
  eapply safe_mono; [apply IH; [by destruct Hk | | destruct Hk as (_ & -> & _); lia]|].
  - destruct r; lia.
  - intros ? s2 Hk2. by eapply kept_trans.
Qed.

Lemma live_insert_elem m out d mx k w :
  live m out → m !! mx = Some (OIndexMixin k) → live m w →
  live (<[ptr out := OIntElem d mx]> m) w.
Proof.
  intros (_ & do & mo & ko & Ho & _) Hmx (Ht & dw & mw & kw & Hw & Hmw). split; [done|].
  assert (ptr out ≠ mx) as Hne by (intros Heq; rewrite Heq in Ho; by rewrite Ho in Hmx).
  assert (ptr out ≠ mw) as Hne' by (intros Heq; rewrite Heq in Ho; by rewrite Ho in Hmw).
  destruct (decide (ptr w = ptr out)) as [->|Hwo].
  - exists d, mx, k. by rewrite lookup_insert_eq, lookup_insert_ne.
  - exists dw, mw, kw. by rewrite !lookup_insert_ne.
Qed.

(** X18. On a sound heap of IntElem, [Put] of a live element returns. *)
Theorem IntElem_Put_returns v s :
  sound s → live (mem s) v →
  ∃ s', Put (Some v) s = Returns tt s' ∧ sound s' ∧
        length (objects (heap s')) = S (length (objects (heap s))).
Proof.
  intros Hs Hv.
  set (s1 := mkState (RT := IntRuntime)
               (mkHeap (objects (heap s) ++ [v]) (cmpFn (heap s)) (dataType (heap s))
                       (indexer (heap s))
                       (<[v := Z.of_nat (length (objects (heap s)))]> (lookup (heap s))))
               (mem s)).
  assert (Push (Some v) s = Returns tt s1) as HP.
  { apply Push_Returns. exists v. split_and!; [done| |done].
    destruct Hs as (_ & -> & _). by destruct Hv. }
  assert (sound s1) as Hs1.
  { destruct Hs as (Hf & Hd & Hall). split_and!; [done..|]. simpl.
    apply Forall_app. split; [done|]. by constructor. }
  assert (length (objects (heap s1)) = S (length (objects (heap s)))) as Hlen
    by (simpl; rewrite length_app; simpl; lia).
  destruct (safe_finished _ _ (safe_up_loop _ (Z.of_nat (length (objects (heap s1))) - 1)
                                 s1 Hs1 ltac:(lia))
              (up_finished _ s1)) as ([] & s' & HU & Hs' & Hl & _).
  exists s'. split_and!; [|done|congruence].
  apply coheap_Push_Returns. by exists s1.
Qed.

(** X19. On a sound heap of IntElem that is not empty, [Get] into a live slot
    returns, with one element less in the array. *)
Theorem IntElem_Get_returns out s :
  sound s → objects (heap s) ≠ [] → live (mem s) out →
  ∃ s', Get (Some out) s = Returns tt s' ∧ sound s' ∧
        S (length (objects (heap s'))) = length (objects (heap s)).
Proof.
  intros Hs Hne Hout.
  assert (0 < Z.of_nat (length (objects (heap s)))) as Hlen
    by (destruct (objects (heap s)); [done | simpl; lia]).
  set (n := Z.of_nat (length (objects (heap s))) - 1).
  destruct (safe_finished _ _ (safe_Swap 0 n s Hs ltac:(lia) ltac:(lia))
              (Swap_finished _ _ s)) as ([] & s1 & HS & Hs1 & Hl1 & Hlive1).
  destruct (safe_finished _ _ (safe_down_loop _ 0 n 0 s1 Hs1 ltac:(lia) ltac:(lia))
              (down_finished 0 n s1)) as (b & s2 & HD & Hs2 & Hl2 & Hlive2).
  destruct (at_index_in_range (objects (heap s2)) n ltac:(lia)) as [r Hr].
  set (s3 := mkState (RT := IntRuntime)
               (mkHeap (take (Z.to_nat n) (objects (heap s2))) (cmpFn (heap s2))
                       (dataType (heap s2)) (indexer (heap s2)) (lookup (heap s2)))
               (mem s2)).
  assert (Pop s2 = Returns (Some r) s3) as HP.
  { apply Pop_Returns. exists r. rewrite Hl2, Hl1. fold n. done. }
  assert (coheap_Pop s = Returns (Some r) s3) as HCP
    by (apply coheap_Pop_Returns; by exists s1, b, s2).
  pose proof (sound_at_index _ _ _ Hs2 Hr) as (Htr & d & mx & k & Hrc & Hmx).
  assert (live (mem s2) out) as (Hto & do & mo & ko & Hoc & Hmo) by eauto.
  set (s' := mkState (RT := IntRuntime) (heap s3) (<[ptr out := OIntElem d mx]> (mem s2))).
  assert (Elem_Set out r s3 = Returns tt s') as HE.
  { unfold Elem_Set. rewrite Hto, Htr. simpl.
    unfold bind, getMem, setMem. simpl.
    simpl in *. by rewrite Hoc, Hrc. }
  exists s'. split_and!.
  - apply Get_Returns. exists out, r, s3. split_and!; [done| |done..].
    destruct Hs as (_ & -> & _). done.
  - destruct Hs2 as (Hf & Hd & Hall). split_and!; [done..|]. simpl.
    eapply Forall_impl; [|eapply Forall_take, Hall].
    intros w Hw. eapply (live_insert_elem (mem s2)); [|exact Hmx|exact Hw].
    split; [done|]. by exists do, mo, ko.
  - simpl. rewrite length_take, Hl2, Hl1. lia.
Qed.

(** X20. On a sound heap of IntElem, [DeleteElem] returns whenever the
    Position Index has no entry for its argument or one that points into
    the array. *)
Theorem IntElem_DeleteElem_returns v s :
  sound s →
  (lookup (heap s) !! v = None ∨
   ∃ i, lookup (heap s) !! v = Some i ∧ 0 ≤ i < Z.of_nat (length (objects (heap s)))) →
  ∃ s', DeleteElem (Some v) s = Returns false s' ∧ sound s'.
Proof.
  intros Hs [Hnone | (i & Hl & Hi)].
  { exists s. split; [by apply DeleteElem_absent | done]. }
  set (n := Z.of_nat (length (objects (heap s))) - 1).
  assert (∃ s3, kept s tt s3 ∧
            (n = i ∧ s3 = s ∨
             n ≠ i ∧ ∃ s1 moved s2,
               Swap i n s = Returns tt s1 ∧ down i n s1 = Returns moved s2 ∧
               (moved = true ∧ s3 = s2 ∨ moved = false ∧ up i s2 = Returns tt s3)))
    as (s3 & (Hs3 & Hl3 & _) & Hsteps).
  { destruct (decide (n = i)) as [Hn|Hn].
    { exists s. split; [by apply kept_refl | by left]. }
    destruct (safe_finished _ _ (safe_Swap i n s Hs ltac:(lia) ltac:(lia))
                (Swap_finished _ _ s)) as ([] & s1 & HS & Hk1).
    pose proof Hk1 as (Hs1 & Hl1 & _).
    destruct (safe_finished _ _ (safe_down_loop _ i n i s1 Hs1 ltac:(lia) ltac:(lia))
                (down_finished i n s1)) as (moved & s2 & HD & Hk2).
    pose proof Hk2 as (Hs2 & Hl2 & _).
    destruct moved.
    - exists s2. split; [by eapply kept_trans|]. right. split; [done|].
      exists s1, true, s2. split_and!; [done..|by left].
    - destruct (safe_finished _ _ (safe_up_loop _ i s2 Hs2 ltac:(lia)) (up_finished i s2))
        as ([] & s3 & HU & Hk3).
      exists s3. split; [eapply kept_trans; [|done]; by eapply kept_trans|].
      right. split; [done|]. exists s1, false, s2. split_and!; [done..|by right]. }
  destruct (at_index_in_range (objects (heap s3)) n ltac:(lia)) as [r Hr].
  set (s' := mkState (RT := IntRuntime)
               (mkHeap (take (Z.to_nat n) (objects (heap s3))) (cmpFn (heap s3))
                       (dataType (heap s3)) (indexer (heap s3)) (lookup (heap s3)))
               (mem s3)).
  assert (Pop s3 = Returns (Some r) s') as HP.
  { apply Pop_Returns. exists r. rewrite Hl3. fold n. done. }
  exists s'. split.
  - apply DeleteElem_Returns. split; [done|]. right. exists i, (Some r). split; [done|].
    apply coheap_Remove_Returns. by exists s3.
  - destruct Hs3 as (Hf & Hd & Hall). split_and!; [done..|]. simpl.
    by apply Forall_take.
Qed.

End IntElemsReturn.

(* --------------------------------------------------------------------- *)
(*  Construction                                                         *)
(* --------------------------------------------------------------------- *)

Section Construction.
Context `{RT : Runtime}.
Implicit Types (s : State) (fn : Value) (i j : Z).

(** X21. [NewHeap] on a policy that is not nil never panics.  It returns the
    empty heap for that policy, with the parameter type as element type,
    when the policy's type is [func(P, P) B] with [P] of kind pointer and
    [B] of kind bool, and an error and no heap for every other type. *)
Theorem NewHeap_accepts_the_well_shaped fn :
  (∃ p b, signature (typ fn) = Some ([p; p], [b]) ∧ kind p = Ptr ∧ kind b = Bool ∧
          NewHeap (Some fn) = Ok (Some (mkHeap [] fn p (Implements_Indexer p) ∅), None)) ∨
  (¬ well_shaped (typ fn) ∧ ∃ err, NewHeap (Some fn) = Ok (None, Some err)).
Proof.
  destruct (NewHeap_not_nil fn) as [[(p & b & Hsig & Hp & Hb) HN] | H]; [left | by right].
  exists p, b. rewrite Hsig in HN. by split_and!.
Qed.

Lemma NewHeap_Ok_on_shape fn p b :
  typ fn = TFunc [p; p] [b] → kind p = Ptr → kind b = Bool →
  NewHeap (Some fn) = Ok (Some (mkHeap [] fn p (Implements_Indexer p) ∅), None) ∧ True.
Proof.
  intros Ht Hp Hb. split; [|done].
  destruct (NewHeap_not_nil fn) as [[_ HN] | [Hn _]].
  - rewrite HN, Ht. done.
  - destruct Hn. exists p, b. by rewrite Ht.
Qed.

Lemma coheap_Init_empty s :
  objects (heap s) = [] → coheap_Init s = Returns tt s.
Proof.
  intros He. unfold coheap_Init.
  rewrite (bind_Returns_l _ _ _ _ _ (Len_Returns s)). by rewrite He.
Qed.

(** X22. [MustHeap] returns the heap [NewHeap] builds, still empty and with
    memory untouched, and panics with the error where [NewHeap] returns
    one; on the nil policy it panics as [NewHeap] does. *)
Theorem MustHeap_builds_or_panics fn m :
  MustHeap None m = Panics NilDereference m ∧
  ((∃ h, NewHeap (Some fn) = Ok (Some h, None) ∧
         MustHeap (Some fn) m = Returns h m ∧
         objects h = [] ∧ lookup h = ∅ ∧ cmpFn h = fn) ∨
   (∃ err, NewHeap (Some fn) = Ok (None, Some err) ∧
           MustHeap (Some fn) m = Panics (PanicError (Error err)) m)).
Proof.
  split; [done|].
  destruct (NewHeap_not_nil fn) as [[_ HN] | [_ [err HN]]]; [left | right].
  - eexists. split; [exact HN|]. unfold MustHeap. rewrite HN.
    rewrite coheap_Init_empty by done. by split_and!.
  - exists err. split; [done|]. unfold MustHeap. by rewrite HN.
Qed.

(** X23. A policy whose result type is a named boolean type passes [NewHeap],
    since only the kind of the result is checked; [Less] then asserts the
    result to be [bool] itself and never returns, so that [Put] returns
    only on the empty heap. *)
Theorem named_bool_policy_is_accepted_and_fails fn p name :
  typ fn = TFunc [p; p] [TNamed name TBool] → kind p = Ptr →
  NewHeap (Some fn) = Ok (Some (mkHeap [] fn p (Implements_Indexer p) ∅), None) ∧
  (∀ s i j b s', cmpFn (heap s) = fn → Less i j s ≠ Returns b s') ∧
  (∀ s arg s', cmpFn (heap s) = fn → objects (heap s) ≠ [] →
               Put arg s ≠ Returns tt s').
Proof.
  intros Ht Hk.
  assert (∀ s i j b s', cmpFn (heap s) = fn → Less i j s ≠ Returns b s') as HLess.
  { intros s i j b s' Hc (_ & x & y & _ & _ & Hp)%Less_Returns.
    apply policy_Ok_inv in Hp as ((ins & outs & Hsig) & _).
    rewrite Hc, Ht in Hsig. simpl in Hsig. congruence. }
  split_and!; [|done|].
  - by destruct (NewHeap_Ok_on_shape fn p (TNamed name TBool)).
  - intros s arg s' Hc Hne (s1 & HP & HU)%coheap_Push_Returns.
    apply Push_Returns in HP as (v & -> & _ & ->). simpl in HU.
    unfold up in HU. simpl in HU.
    rewrite length_app in HU. simpl in HU.
    case_decide as Hij.
    { destruct (objects (heap s)); [done|]. simpl in Hij.
      Z.to_euclidean_division_equations. lia. }
    apply bind_Returns in HU as (b & s2 & HL & _). refine (HLess _ _ _ _ _ _ HL). exact Hc.
Qed.

End Construction.

(* --------------------------------------------------------------------- *)
(*  The theorems at work on the heap of IntElem                          *)
(* --------------------------------------------------------------------- *)

(** States of a max-heap in memory [mem_1200], where [ea], [eb], [ec] and
    [ed] have data 1, 2, 0 and 0: after [Put(a)]; after [Put(a)],
    [Put(b)]; and so on, [Get] always being [Get(d)]. *)
Definition st_0 : State (RT := IntRuntime) := max_heap_in mem_1200.
Definition st_a : State (RT := IntRuntime) := after [OpPut (Some ea)] st_0.
Definition st_ab : State (RT := IntRuntime) :=
  after [OpPut (Some ea); OpPut (Some eb)] st_0.
Definition st_abc : State (RT := IntRuntime) :=
  after [OpPut (Some ea); OpPut (Some eb); OpPut (Some ec)] st_0.
Definition st_a_get : State (RT := IntRuntime) :=
  after [OpPut (Some ea); OpGet (Some ed)] st_0.
Definition st_ab_get : State (RT := IntRuntime) :=
  after [OpPut (Some ea); OpPut (Some eb); OpGet (Some ed)] st_0.

(** The same max policy declared with a named function type,
    [type Policy func(i, j *IntElem) bool], and the heap [NewHeap] builds
    for it, in memory [mem_1200]; then the states after [Put(a)],
    [Put(b)], [Put(c)]. *)
Definition byPolicy : Value := mkValue (TNamed "Policy" cmpType) maxFn.
Definition pt_0 : State (RT := IntRuntime) :=
  mkState (mkHeap [] byPolicy PtrIntElem true ∅) mem_1200.
Definition pt_abc : State (RT := IntRuntime) :=
  after [OpPut (Some ea); OpPut (Some eb); OpPut (Some ec)] pt_0.

(** More states of the max-heap: after [Put(a)], [Put(c)]; and after
    [Put(a)], [Put(b)], [Get(d)], [Put(c)], [Put(d)], where the entry of
    [b], which left with [Get], says 1 and slot 1 holds [c]. *)
Definition st_ac : State (RT := IntRuntime) :=
  after [OpPut (Some ea); OpPut (Some ec)] st_0.
Definition st_stale : State (RT := IntRuntime) :=
  after [OpPut (Some ea); OpPut (Some eb); OpGet (Some ed); OpPut (Some ec);
         OpPut (Some ed)] st_0.

Lemma pt_0_fresh : fresh_state pt_0.
Proof. exists (Some byPolicy), (heap pt_0). split; [|done]. vm_compute. reflexivity. Qed.

(** With the named function type the heap works as with the unnamed one. *)
Lemma pt_abc_objects :
  objects (heap pt_abc) = [eb; ea; ec] ∧ Less 1 0 pt_abc = Returns false pt_abc.
Proof. split; vm_compute; reflexivity. Qed.

Lemma pt_abc_ordered : heap_ordered pt_abc ∧ cmpFn (heap pt_abc) = cmpFn (heap pt_0).
Proof.
  apply heap_ordered_reached.
  - apply pt_0_fresh.
  - apply IntElem_policy_laws. by left.
  - apply (run_ops_reaches no_resident_target
             [OpPut (Some ea); OpPut (Some eb); OpPut (Some ec)]).
    + vm_compute. repeat split.
    + vm_compute. reflexivity.
Qed.

(** [live] and [sound], decided. *)
Definition liveb (m : gmap addr IntObj) (v : Value) : bool :=
  bool_decide (typ v = PtrIntElem) &&
  match m !! ptr v with
  | Some (OIntElem _ mx) =>
      match m !! mx with
      | Some (OIndexMixin _) => true
      | _ => false
      end
  | _ => false
  end.

Definition soundb (s : State (RT := IntRuntime)) : bool :=
  (bool_decide (cmpFn (heap s) = mkValue cmpType maxFn) ||
   bool_decide (cmpFn (heap s) = mkValue cmpType minFn)) &&
  bool_decide (dataType (heap s) = PtrIntElem) &&
  forallb (liveb (mem s)) (objects (heap s)).

Lemma liveb_live m v : liveb m v = true → live m v.
Proof.
  unfold liveb. intros [Ht H]%andb_prop. apply bool_decide_eq_true in Ht.
  split; [done|].
  destruct (m !! ptr v) as [[d mx|]|] eqn:Hv; try done.
  destruct (m !! mx) as [[|k]|] eqn:Hmx; try done.
  by exists d, mx, k.
Qed.

Lemma soundb_sound s : soundb s = true → sound s.
Proof.
  unfold soundb. intros [[Hf Hd]%andb_prop Hall]%andb_prop.
  apply bool_decide_eq_true in Hd. split_and!; [|done|].
  - apply orb_prop in Hf as [Hf | Hf]; apply bool_decide_eq_true in Hf; auto.
  - apply Forall_forall. intros v Hv. apply liveb_live.
    rewrite forallb_forall in Hall. by apply Hall.
Qed.

Lemma reaches_any `{Runtime} allowed os s s' :
  (∀ s o, allowed s o) → run_ops os s = Some s' → reaches allowed s s'.
Proof.
  intros Hall. apply run_ops_reaches. revert s.
  induction os as [|o os IH]; intros s; simpl; [done|].
  split; [done|]. by destruct (exec o s).
Qed.

Lemma st_abc_ordered : heap_ordered st_abc ∧ cmpFn (heap st_abc) = cmpFn (heap st_0).
Proof.
  apply heap_ordered_reached.
  - apply max_heap_in_fresh.
  - apply IntElem_policy_laws. by left.
  - apply (run_ops_reaches no_resident_target
             [OpPut (Some ea); OpPut (Some eb); OpPut (Some ec)]).
    + vm_compute. repeat split.
    + vm_compute. reflexivity.
Qed.

Lemma ea_live_0 : live (mem st_0) ea.
Proof. split; [done|]. exists 1, 1%nat, 0. split; vm_compute; reflexivity. Qed.

Lemma ed_live_0 : live (mem st_0) ed.
Proof. split; [done|]. exists 0, 7%nat, 0. split; vm_compute; reflexivity. Qed.

Lemma st_a_sound : sound st_a ∧ live (mem st_a) ed ∧ objects (heap st_a) ≠ [].
Proof.
  assert (objects (heap st_a) = [ea]) as Ho by (vm_compute; reflexivity).
  assert (mem st_a = mem st_0) as Hm by (vm_compute; reflexivity).
  split_and!.
  - split_and!; [left; vm_compute; reflexivity | vm_compute; reflexivity |].
    rewrite Ho, Hm. constructor; [apply ea_live_0 | constructor].
  - rewrite Hm. apply ed_live_0.
  - by rewrite Ho.
Qed.


(** [Get(d)] on the heap that holds [b], [a], [c], under the policy of the
    named function type: [down] compares and swaps. *)
Lemma Get_extracts_the_root_witness :
  let s' := after [OpGet (Some ed)] pt_abc in
  Get (Some ed) pt_abc = Returns tt s' ∧
  objects (heap pt_abc) = [eb; ea; ec] ∧ objects (heap s') = [ea; ec] ∧
  ∃ out root s1 o,
    Some ed = Some out ∧ typ out = dataType (heap pt_abc) ∧
    at_index (objects (heap pt_abc)) 0 = Some root ∧
    shrunk root pt_abc s1 ∧
    mem s1 !! ptr root = Some o ∧
    s' = mkState (heap s1) (<[ptr out := o]> (mem s1)).
Proof.
  intros s'.
  assert (Get (Some ed) pt_abc = Returns tt s') as H by (vm_compute; reflexivity).
  split; [exact H|]. split; [vm_compute; reflexivity|]. split; [vm_compute; reflexivity|].
  exact (Get_extracts_the_root (Some ed) pt_abc s' H).
Defined.

(** The entry of [b], which left with [Get], still says 1; the array holds
    [d], [c], [a], and [DeleteElem(b)] takes out [c], by [Swap], [down],
    [up] and [Pop]. *)
Lemma DeleteElem_removes_the_indexed_slot_witness :
  let s' := after [OpDeleteElem (Some eb)] st_stale in
  lookup (heap st_stale) !! eb = Some 1 ∧
  DeleteElem (Some eb) st_stale = Returns false s' ∧
  objects (heap st_stale) = [ed; ec; ea] ∧ objects (heap s') = [ed; ea] ∧
  (false = false ∧
   ∃ w, at_index (objects (heap st_stale)) 1 = Some w ∧ shrunk w st_stale s').
Proof.
  intros s'.
  assert (lookup (heap st_stale) !! eb = Some 1) as Hl by (vm_compute; reflexivity).
  assert (DeleteElem (Some eb) st_stale = Returns false s') as HD
    by (vm_compute; reflexivity).
  split; [exact Hl|]. split; [exact HD|].
  split; [vm_compute; reflexivity|]. split; [vm_compute; reflexivity|].
  exact (DeleteElem_removes_the_indexed_slot eb 1 st_stale false s' Hl HD).
Defined.

(** [DeleteElem(b)] with [b] at the root of three, under the policy of the
    named function type. *)
Lemma DeleteElem_removes_a_resident_witness :
  let s' := after [OpDeleteElem (Some eb)] pt_abc in
  index_consistent (heap pt_abc) ∧ eb ∈ objects (heap pt_abc) ∧
  DeleteElem (Some eb) pt_abc = Returns false s' ∧
  objects (heap s') = [ea; ec] ∧
  shrunk eb pt_abc s' ∧ eb ∉ objects (heap s').
Proof.
  intros s'.
  assert (index_consistent (heap pt_abc)) as Hc.
  { apply (index_consistent_reached pt_0 pt_abc pt_0_fresh).
    apply (run_ops_reaches no_double_insert
             [OpPut (Some ea); OpPut (Some eb); OpPut (Some ec)]).
    - vm_compute. repeat split; intros Hin%list_elem_of_In; simpl in Hin;
        intuition discriminate.
    - vm_compute. reflexivity. }
  assert (eb ∈ objects (heap pt_abc)) as Hin.
  { replace (objects (heap pt_abc)) with [eb; ea; ec] by (vm_compute; reflexivity).
    apply elem_of_cons. by left. }
  assert (DeleteElem (Some eb) pt_abc = Returns false s') as HD by (vm_compute; reflexivity).
  split; [exact Hc|]. split; [exact Hin|]. split; [exact HD|].
  split; [vm_compute; reflexivity|].
  exact (DeleteElem_removes_a_resident eb pt_abc false s' Hc Hin HD).
Defined.

Lemma DeleteElem_stale_out_of_range_witness :
  lookup (heap st_a_get) !! ea = Some 0 ∧
  at_index (objects (heap st_a_get)) 0 = None ∧
  DeleteElem (Some ea) st_a_get = Panics IndexOutOfRange st_a_get.
Proof.
  assert (lookup (heap st_a_get) !! ea = Some 0) as Hl by (vm_compute; reflexivity).
  assert (at_index (objects (heap st_a_get)) 0 = None) as Hn by (vm_compute; reflexivity).
  split; [exact Hl|]. split; [exact Hn|].
  exact (DeleteElem_stale_out_of_range ea 0 st_a_get Hl Hn).
Defined.

(** [Put(b)] on the heap that holds [a] and [c] moves [b] to the root;
    [DeleteElem(b)] swaps it to the end and takes it out again. *)
Lemma Put_then_DeleteElem_witness :
  let s1 := after [OpPut (Some eb)] st_ac in
  let s2 := after [OpPut (Some eb); OpDeleteElem (Some eb)] st_ac in
  Put (Some eb) st_ac = Returns tt s1 ∧
  DeleteElem (Some eb) s1 = Returns false s2 ∧
  objects (heap st_ac) = [ea; ec] ∧ objects (heap s1) = [eb; ec; ea] ∧
  false = false ∧
  objects (heap s2) ≡ₚ objects (heap st_ac) ∧
  lookup (heap s2) !! eb ≠ None.
Proof.
  intros s1 s2.
  assert (Put (Some eb) st_ac = Returns tt s1) as HP by (vm_compute; reflexivity).
  assert (DeleteElem (Some eb) s1 = Returns false s2) as HD by (vm_compute; reflexivity).
  split; [exact HP|]. split; [exact HD|].
  split; [vm_compute; reflexivity|]. split; [vm_compute; reflexivity|].
  exact (Put_then_DeleteElem eb st_ac s1 false s2 HP HD).
Defined.

(** [c] was never inserted into the heap that saw [Put(a)], [Put(b)],
    [Get(d)] and [DeleteElem(a)], under the policy of the named function
    type. *)
Lemma never_inserted_not_found_witness :
  let s := after [OpPut (Some ea); OpPut (Some eb); OpGet (Some ed);
                  OpDeleteElem (Some ea)] pt_0 in
  fresh_state pt_0 ∧ reaches (never_put ec) pt_0 s ∧
  (ec ∉ objects (heap s)) ∧ lookup (heap s) !! ec = None ∧
  DeleteElem (Some ec) s = Returns false s.
Proof.
  intros s.
  assert (reaches (never_put ec) pt_0 s) as Hr.
  { apply (run_ops_reaches (never_put ec)
             [OpPut (Some ea); OpPut (Some eb); OpGet (Some ed); OpDeleteElem (Some ea)]).
    - vm_compute. repeat split; discriminate.
    - vm_compute. reflexivity. }
  split; [apply pt_0_fresh|]. split; [exact Hr|].
  exact (never_inserted_not_found ec pt_0 s pt_0_fresh Hr).
Defined.

(** A run of [Put], [DeleteElem] and [Get] under the policy of the named
    function type that ends with [b], [c], [a] in the array. *)
Lemma heap_order_kept_witness :
  let s := after [OpPut (Some ea); OpPut (Some eb); OpPut (Some ec);
                  OpDeleteElem (Some ea); OpGet (Some ed);
                  OpPut (Some ea); OpPut (Some eb)] pt_0 in
  fresh_state pt_0 ∧ policy_laws (ptr (cmpFn (heap pt_0))) ∧
  reaches no_resident_target pt_0 s ∧
  objects (heap s) = [eb; ec; ea] ∧ heap_ordered s.
Proof.
  intros s.
  assert (policy_laws (ptr (cmpFn (heap pt_0)))) as Hlaws
    by (apply IntElem_policy_laws; by left).
  assert (reaches no_resident_target pt_0 s) as Hr.
  { apply (run_ops_reaches no_resident_target
             [OpPut (Some ea); OpPut (Some eb); OpPut (Some ec);
              OpDeleteElem (Some ea); OpGet (Some ed);
              OpPut (Some ea); OpPut (Some eb)]).
    - vm_compute. repeat split.
      intros x Hx Heq. apply list_elem_of_In in Hx. simpl in Hx.
      destruct Hx as [<-|[<-|[]]]; discriminate.
    - vm_compute. reflexivity. }
  split; [apply pt_0_fresh|]. split; [exact Hlaws|]. split; [exact Hr|].
  split; [vm_compute; reflexivity|].
  exact (heap_order_kept pt_0 s pt_0_fresh Hlaws Hr).
Defined.

(** The heap that holds [b], [a], [c] under the policy of the named
    function type: [c], in slot 2, does not precede the root [b]. *)
Lemma root_is_not_preceded_witness :
  policy_laws (ptr (cmpFn (heap pt_abc))) ∧ heap_ordered pt_abc ∧ 0 < 2 ∧
  at_index (objects (heap pt_abc)) 2 = Some ec ∧
  at_index (objects (heap pt_abc)) 0 = Some eb ∧
  policy pt_abc ec eb = Ok false.
Proof.
  destruct pt_abc_ordered as [Hord Hc].
  assert (policy_laws (ptr (cmpFn (heap pt_abc)))) as Hlaws
    by (rewrite Hc; apply IntElem_policy_laws; by left).
  assert (at_index (objects (heap pt_abc)) 2 = Some ec) as H2 by (vm_compute; reflexivity).
  assert (at_index (objects (heap pt_abc)) 0 = Some eb) as H0 by (vm_compute; reflexivity).
  split; [exact Hlaws|]. split; [exact Hord|]. split; [lia|]. split; [exact H2|].
  split; [exact H0|].
  exact (root_is_not_preceded pt_abc 2 ec eb Hlaws Hord ltac:(lia) H2 H0).
Defined.

(** The heap of the named function type, after three [Put]s, a [Get] and
    a [DeleteElem]. *)
Lemma settings_are_fixed_witness :
  let s := after [OpPut (Some ea); OpPut (Some eb); OpPut (Some ec); OpGet (Some ed);
                  OpDeleteElem (Some ec)] pt_0 in
  NewHeap (Some byPolicy) = Ok (Some (heap pt_0), None) ∧
  reaches any_op pt_0 s ∧
  cmpFn (heap s) = cmpFn (heap pt_0) ∧
  Some (cmpFn (heap pt_0)) = Some byPolicy ∧
  dataType (heap s) = dataType (heap pt_0) ∧ kind (dataType (heap pt_0)) = Ptr ∧
  indexer (heap s) = Implements_Indexer (dataType (heap pt_0)) ∧
  Forall (λ v, typ v = dataType (heap pt_0)) (objects (heap s)).
Proof.
  intros s.
  assert (NewHeap (Some byPolicy) = Ok (Some (heap pt_0), None)) as HN
    by (vm_compute; reflexivity).
  assert (reaches any_op pt_0 s) as Hr.
  { apply (reaches_any any_op [OpPut (Some ea); OpPut (Some eb); OpPut (Some ec);
                               OpGet (Some ed); OpDeleteElem (Some ec)]); [done|].
    vm_compute. reflexivity. }
  split; [exact HN|]. split; [exact Hr|].
  exact (settings_are_fixed (Some byPolicy) pt_0 s HN Hr).
Defined.

Lemma SetIndex_then_GetIndex_witness :
  let m' := <[1%nat := OIndexMixin 7]> mem_1200 in
  IntElem_SetIndex (ptr ea) 7 mem_1200 = Ok m' ∧
  IntElem_GetIndex (ptr ea) m' = Ok 7 ∧ ∀ v, dataOf v m' = dataOf v mem_1200.
Proof.
  intros m'.
  assert (IntElem_SetIndex (ptr ea) 7 mem_1200 = Ok m') as H by (vm_compute; reflexivity).
  split; [exact H | exact (SetIndex_then_GetIndex (ptr ea) 7 mem_1200 m' H)].
Defined.

Lemma max_heap_data_ordered_witness :
  NewMaxHeap mem_1200 = Returns (heap st_0) mem_1200 ∧
  reaches no_resident_target (mkState (heap st_0) mem_1200) st_abc ∧
  0 < 1 < Z.of_nat (length (objects (heap st_abc))) ∧
  ∃ x y a c, at_index (objects (heap st_abc)) 1 = Some x ∧
             at_index (objects (heap st_abc)) (parent 1) = Some y ∧
             dataOf x (mem st_abc) = Ok a ∧ dataOf y (mem st_abc) = Ok c ∧ a ≤ c.
Proof.
  assert (reaches no_resident_target (mkState (heap st_0) mem_1200) st_abc) as Hr.
  { apply (run_ops_reaches no_resident_target
             [OpPut (Some ea); OpPut (Some eb); OpPut (Some ec)]).
    - vm_compute. repeat split.
    - vm_compute. reflexivity. }
  assert (0 < 1 < Z.of_nat (length (objects (heap st_abc)))) as Hp
    by (replace (objects (heap st_abc)) with [eb; ea; ec] by (vm_compute; reflexivity);
        simpl; lia).
  split; [reflexivity|]. split; [exact Hr|]. split; [exact Hp|].
  exact (max_heap_data_ordered mem_1200 (heap st_0) mem_1200 st_abc 1 eq_refl Hr Hp).
Defined.

(** The min-heap after [Put(a)], [Put(b)], [Put(c)]. *)
Definition st_min_abc : State (RT := IntRuntime) :=
  after [OpPut (Some ea); OpPut (Some eb); OpPut (Some ec)] (min_heap_in mem_1200).

Lemma min_heap_data_ordered_witness :
  let h := heap (min_heap_in mem_1200) in
  NewMinHeap mem_1200 = Returns h mem_1200 ∧
  reaches no_resident_target (mkState h mem_1200) st_min_abc ∧
  0 < 1 < Z.of_nat (length (objects (heap st_min_abc))) ∧
  ∃ x y a c, at_index (objects (heap st_min_abc)) 1 = Some x ∧
             at_index (objects (heap st_min_abc)) (parent 1) = Some y ∧
             dataOf x (mem st_min_abc) = Ok a ∧ dataOf y (mem st_min_abc) = Ok c ∧ c ≤ a.
Proof.
  intros h.
  assert (reaches no_resident_target (mkState h mem_1200) st_min_abc) as Hr.
  { apply (run_ops_reaches no_resident_target
             [OpPut (Some ea); OpPut (Some eb); OpPut (Some ec)]).
    - vm_compute. repeat split.
    - vm_compute. reflexivity. }
  assert (0 < 1 < Z.of_nat (length (objects (heap st_min_abc)))) as Hp
    by (replace (objects (heap st_min_abc)) with [ec; eb; ea] by (vm_compute; reflexivity);
        simpl; lia).
  split; [reflexivity|]. split; [exact Hr|]. split; [exact Hp|].
  exact (min_heap_data_ordered mem_1200 h mem_1200 st_min_abc 1 eq_refl Hr Hp).
Defined.

Lemma max_heap_Get_delivers_maximum_witness :
  let s' := after [OpGet (Some ed)] st_abc in
  cmpFn (heap st_abc) = mkValue cmpType maxFn ∧ heap_ordered st_abc ∧
  Get (Some ed) st_abc = Returns tt s' ∧
  ∃ root, at_index (objects (heap st_abc)) 0 = Some root ∧
          dataOf ed (mem s') = dataOf root (mem st_abc) ∧
          ∀ k v, 0 < k → at_index (objects (heap st_abc)) k = Some v →
                 ∃ a c, dataOf v (mem st_abc) = Ok a ∧
                        dataOf root (mem st_abc) = Ok c ∧ a ≤ c.
Proof.
  intros s'. destruct st_abc_ordered as [Hord Hc].
  assert (Get (Some ed) st_abc = Returns tt s') as HG by (vm_compute; reflexivity).
  split; [exact Hc|]. split; [exact Hord|]. split; [exact HG|].
  exact (max_heap_Get_delivers_maximum st_abc ed s' Hc Hord HG).
Defined.

Lemma Get_shares_the_IndexMixin_witness :
  let m2 := <[3%nat := OIndexMixin 5]> (mem st_ab_get) in
  Get (Some ed) st_ab = Returns tt st_ab_get ∧
  at_index (objects (heap st_ab)) 0 = Some eb ∧
  (ptr ed = ptr ed ∨ ptr ed = ptr eb) ∧
  IntElem_SetIndex (ptr ed) 5 (mem st_ab_get) = Ok m2 ∧
  IntElem_GetIndex (ptr ed) m2 = Ok 5 ∧ IntElem_GetIndex (ptr eb) m2 = Ok 5.
Proof.
  intros m2.
  assert (Get (Some ed) st_ab = Returns tt st_ab_get) as HG by (vm_compute; reflexivity).
  assert (at_index (objects (heap st_ab)) 0 = Some eb) as H0 by (vm_compute; reflexivity).
  assert (IntElem_SetIndex (ptr ed) 5 (mem st_ab_get) = Ok m2) as HS
    by (vm_compute; reflexivity).
  split; [exact HG|]. split; [exact H0|]. split; [by left|]. split; [exact HS|].
  exact (Get_shares_the_IndexMixin st_ab ed eb st_ab_get (ptr ed) 5 m2 HG H0 (or_introl eq_refl) HS).
Defined.

(** [Put(b)] on the max-heap that holds [a] and [c]: [up] compares [b]
    with [a] and swaps them, calling [SetIndex] on both. *)
Lemma IntElem_Put_returns_witness :
  sound st_ac ∧ live (mem st_ac) eb ∧ objects (heap st_ac) = [ea; ec] ∧
  ∃ s', Put (Some eb) st_ac = Returns tt s' ∧ sound s' ∧
        length (objects (heap s')) = S (length (objects (heap st_ac))).
Proof.
  assert (sound st_ac) as Hs by (apply soundb_sound; vm_compute; reflexivity).
  assert (live (mem st_ac) eb) as Hl by (apply liveb_live; vm_compute; reflexivity).
  split; [exact Hs|]. split; [exact Hl|]. split; [vm_compute; reflexivity|].
  exact (IntElem_Put_returns eb st_ac Hs Hl).
Defined.

Lemma IntElem_Get_returns_witness :
  sound st_a ∧ objects (heap st_a) ≠ [] ∧ live (mem st_a) ed ∧
  ∃ s', Get (Some ed) st_a = Returns tt s' ∧ sound s' ∧
        S (length (objects (heap s'))) = length (objects (heap st_a)).
Proof.
  destruct st_a_sound as (Hs & Hl & Hne).
  split; [exact Hs|]. split; [exact Hne|]. split; [exact Hl|].
  exact (IntElem_Get_returns ed st_a Hs Hne Hl).
Defined.

(** [DeleteElem(b)] with [b] at the root of the max-heap that holds [b],
    [a], [c]: [Remove] swaps [b] to the end, [down] compares and swaps,
    and two elements are left. *)
Lemma IntElem_DeleteElem_returns_witness :
  sound st_abc ∧
  (lookup (heap st_abc) !! eb = None ∨
   ∃ i, lookup (heap st_abc) !! eb = Some i ∧
        0 ≤ i < Z.of_nat (length (objects (heap st_abc)))) ∧
  objects (heap st_abc) = [eb; ea; ec] ∧
  objects (heap (after [OpDeleteElem (Some eb)] st_abc)) = [ea; ec] ∧
  ∃ s', DeleteElem (Some eb) st_abc = Returns false s' ∧ sound s'.
Proof.
  assert (sound st_abc) as Hs by (apply soundb_sound; vm_compute; reflexivity).
  assert (lookup (heap st_abc) !! eb = None ∨
          ∃ i, lookup (heap st_abc) !! eb = Some i ∧
               0 ≤ i < Z.of_nat (length (objects (heap st_abc)))) as Hl.
  { right. exists 0. split; [vm_compute; reflexivity|].
    replace (objects (heap st_abc)) with [eb; ea; ec] by (vm_compute; reflexivity).
    simpl. lia. }
  split; [exact Hs|]. split; [exact Hl|].
  split; [vm_compute; reflexivity|]. split; [vm_compute; reflexivity|].
  exact (IntElem_DeleteElem_returns eb st_abc Hs Hl).
Defined.

(** A comparator [func(i, j *IntElem) Flag] with [type Flag bool]. *)
Definition flagFn : Value :=
  mkValue (TFunc [PtrIntElem; PtrIntElem] [TNamed "Flag" TBool]) maxFn.

Lemma named_bool_policy_is_accepted_and_fails_witness :
  typ flagFn = TFunc [PtrIntElem; PtrIntElem] [TNamed "Flag" TBool] ∧
  kind PtrIntElem = Ptr ∧
  NewHeap (RT := IntRuntime) (Some flagFn)
    = Ok (Some (mkHeap [] flagFn PtrIntElem (Implements_Indexer PtrIntElem) ∅), None) ∧
  (∀ s i j b s', cmpFn (heap s) = flagFn → Less i j s ≠ Returns b s') ∧
  (∀ s arg s', cmpFn (heap s) = flagFn → objects (heap s) ≠ [] →
               Put arg s ≠ Returns tt s').
Proof.
  split; [reflexivity|]. split; [reflexivity|].
  exact (named_bool_policy_is_accepted_and_fails flagFn PtrIntElem "Flag" eq_refl eq_refl).
Defined.

(** [a] and [b] are in the heap, then leave through [Get] and
    [DeleteElem]: the array is empty and both still have their keys. *)
Lemma lookup_entries_never_removed_witness :
  let s' := after [OpPut (Some ea); OpPut (Some eb); OpGet (Some ed);
                   OpDeleteElem (Some ea)] st_0 in
  fresh_state st_0 ∧ reaches any_op st_0 st_ab ∧ reaches any_op st_ab s' ∧
  objects (heap st_ab) = [eb; ea] ∧ objects (heap s') = [] ∧
  residents_have_keys (heap s') ∧
  (∀ v, is_Some (lookup (heap st_ab) !! v) → is_Some (lookup (heap s') !! v)) ∧
  (∀ v, v ∈ objects (heap st_ab) → is_Some (lookup (heap s') !! v)).
Proof.
  intros s'.
  assert (reaches any_op st_0 st_ab) as Hr.
  { apply (reaches_any any_op [OpPut (Some ea); OpPut (Some eb)]); [done|].
    vm_compute. reflexivity. }
  assert (reaches any_op st_ab s') as Hr'.
  { apply (reaches_any any_op [OpGet (Some ed); OpDeleteElem (Some ea)]); [done|].
    vm_compute. reflexivity. }
  split; [apply max_heap_in_fresh|]. split; [exact Hr|]. split; [exact Hr'|].
  split; [vm_compute; reflexivity|]. split; [vm_compute; reflexivity|].
  exact (lookup_entries_never_removed st_0 st_ab s' (max_heap_in_fresh mem_1200) Hr Hr').
Defined.
